(** * FilterPy: the fading-memory Kalman filter ([filterpy/kalman/fading_memory.py])

    A shallow embedding of [FadingKalmanFilter] and the NumPy/SciPy
    operations it calls, in exact rational arithmetic ([Qc]): rounding of
    IEEE doubles is outside the model.

    Layers, bottom up:
    - [Sum]: finite sums of rationals;
    - [Matrix]: dense two-dimensional arrays with an explicit shape;
    - [Numpy]: the dynamically typed values the filter stores (Python
      numbers, NumPy scalars, 2-D arrays) with broadcasting, [dot], [.T],
      [scipy.linalg.inv], [numpy.size], and the exceptions they raise;
      the Python float that the constructor receives, with its
      infinities, NaN and the overflow of [**];
    - [Filter]: the class, as a state-and-exception monad over the
      record of its attributes;
    - [Contract]: the vocabulary of the specification (shapes of the
      data model, resolution of [R], the update and prediction
      equations, manual sequences of calls);
    - [Example]: concrete filters.

    The properties follow: algebra of the matrix operations, correctness
    of the inverse, the methods on filters of the data model, the loops
    of [batch_filter], the statements C1 to C10 of the specification,
    and further properties of the code. *)

From Stdlib Require Import ZArith QArith Qcanon List Lia.
From stdpp Require Import base list numbers.

Set Default Proof Using "Type".
Open Scope Qc_scope.

(** ** Finite sums *)

Module Sum.

Fixpoint sumn (n : nat) (f : nat -> Qc) : Qc :=
  match n with
  | O => 0
  | S k => sumn k f + f k
  end.

End Sum.
Export Sum.

(** ** Dense matrices with an explicit shape

    A NumPy array of shape [(m, n)] carries its shape even when it has no
    element, so the shape is stored next to the rows. *)

Module Matrix.

Record mat := Mat { nrows : nat; ncols : nat; entries : list (list Qc) }.

Definition mget (A : mat) (i j : nat) : Qc :=
  nth j (nth i (entries A) []) 0.

(** The array of shape [(m, n)] whose entry [(i, j)] is [f i j]. *)
Definition build (m n : nat) (f : nat -> nat -> Qc) : mat :=
  Mat m n (map (fun i => map (f i) (seq 0 n)) (seq 0 m)).

(** An array is well formed when its rows agree with its shape. *)
Definition mat_wf (A : mat) : Prop :=
  build (nrows A) (ncols A) (mget A) = A.

Definition has_shape (m n : nat) (A : mat) : Prop :=
  nrows A = m /\ ncols A = n /\ mat_wf A.

Definition mzeros (m n : nat) : mat := build m n (fun _ _ => 0).

Definition meye (n : nat) : mat :=
  build n n (fun i j => if Nat.eqb i j then 1 else 0).

Definition mtrans (A : mat) : mat :=
  build (ncols A) (nrows A) (fun i j => mget A j i).

Definition mmap2 (op : Qc -> Qc -> Qc) (A B : mat) : mat :=
  build (nrows A) (ncols A) (fun i j => op (mget A i j) (mget B i j)).

Definition madd (A B : mat) : mat := mmap2 Qcplus A B.
Definition msub (A B : mat) : mat := mmap2 Qcminus A B.

Definition mscale (c : Qc) (A : mat) : mat :=
  build (nrows A) (ncols A) (fun i j => c * mget A i j).

Definition mmul (A B : mat) : mat :=
  build (nrows A) (ncols B)
        (fun i j => sumn (ncols A) (fun k => mget A i k * mget B k j)).

Definition symmetric (A : mat) : Prop := mtrans A = A.

(** Boolean equality, to decide equations between computed arrays. *)
Definition mat_eqb (A B : mat) : bool :=
  Nat.eqb (nrows A) (nrows B) && Nat.eqb (ncols A) (ncols B)
  && bool_decide (entries A = entries B).

End Matrix.
Export Matrix.

(** ** NumPy values and operations

    The attributes of the filter are dynamically typed.  A value is a
    number (a Python [int]/[float], or a NumPy scalar such as the result
    of [dot] on two numbers) or a two-dimensional array.  The two kinds of
    number differ in one respect that the filter exercises: a NumPy
    scalar has the attribute [.T], a Python number has not. *)

Module Numpy.

Inductive exn : Set :=
| AssertionError
| AttributeError
| ValueError
| LinAlgError
| IndexError
| OverflowError.

Inductive result (A : Type) : Type :=
| Val (a : A)
| Raise (e : exn).
Arguments Val {A} a.
Arguments Raise {A} e.

Inductive numkind : Set := PyNumber | NpScalar.

#[global] Instance numkind_eq_dec : EqDecision numkind.
Proof. solve_decision. Defined.

Inductive value : Type :=
| Num (k : numkind) (q : Qc)
| Arr (A : mat).

(** The kind of the result of a Python arithmetic operator on two numbers:
    a Python number only when both operands are. *)
Definition join_kind (k1 k2 : numkind) : numkind :=
  match k1, k2 with
  | PyNumber, PyNumber => PyNumber
  | _, _ => NpScalar
  end.

(** [np.isscalar] *)
Definition isscalar (v : value) : bool :=
  match v with
  | Num _ _ => true
  | Arr _ => false
  end.

(** *** Broadcasting *)

(** The common length of two axes, if they are compatible. *)
Definition bdim (m p : nat) : option nat :=
  if Nat.eqb m p then Some m
  else if Nat.eqb m 1 then Some p
  else if Nat.eqb p 1 then Some m
  else None.

(** [A] stretched to shape [(m, n)]: an axis of length 1 is repeated. *)
Definition bcast (m n : nat) (A : mat) : mat :=
  build m n (fun i j =>
    mget A (if Nat.eqb (nrows A) 1 then O else i)
           (if Nat.eqb (ncols A) 1 then O else j)).

(** The operators [+], [-], [*] of Python on numbers and arrays. *)
Definition elementwise (op : Qc -> Qc -> Qc) (a b : value) : result value :=
  match a, b with
  | Num k1 p, Num k2 q => Val (Num (join_kind k1 k2) (op p q))
  | Num _ p, Arr B =>
      Val (Arr (build (nrows B) (ncols B) (fun i j => op p (mget B i j))))
  | Arr A, Num _ q =>
      Val (Arr (build (nrows A) (ncols A) (fun i j => op (mget A i j) q)))
  | Arr A, Arr B =>
      match bdim (nrows A) (nrows B), bdim (ncols A) (ncols B) with
      | Some m, Some n => Val (Arr (mmap2 op (bcast m n A) (bcast m n B)))
      | _, _ => Raise ValueError
      end
  end.

Definition np_add (a b : value) : result value := elementwise Qcplus a b.
Definition np_sub (a b : value) : result value := elementwise Qcminus a b.
Definition np_mul (a b : value) : result value := elementwise Qcmult a b.

(** [numpy.dot]: a product of numbers, a scaling, or a matrix product. *)
Definition dot (a b : value) : result value :=
  match a, b with
  | Num _ p, Num _ q => Val (Num NpScalar (p * q))
  | Num _ p, Arr B => Val (Arr (mscale p B))
  | Arr A, Num _ q =>
      Val (Arr (build (nrows A) (ncols A) (fun i j => mget A i j * q)))
  | Arr A, Arr B =>
      if Nat.eqb (ncols A) (nrows B) then Val (Arr (mmul A B))
      else Raise ValueError
  end.

(** The attribute [.T]. *)
Definition T (a : value) : result value :=
  match a with
  | Num PyNumber _ => Raise AttributeError
  | Num NpScalar q => Val (Num NpScalar q)
  | Arr A => Val (Arr (mtrans A))
  end.

(** [numpy.zeros((m, n))] and [numpy.eye(n)] *)
Definition zeros (m n : Z) : result value :=
  if bool_decide (0 <= m)%Z && bool_decide (0 <= n)%Z
  then Val (Arr (mzeros (Z.to_nat m) (Z.to_nat n)))
  else Raise ValueError.

Definition eye (n : Z) : result value :=
  if bool_decide (0 <= n)%Z then Val (Arr (meye (Z.to_nat n)))
  else Raise ValueError.

(** *** [scipy.linalg.inv]

    Gauss-Jordan elimination on the pair [(A, B)], [B] starting as the
    identity: the same row operations are applied to both.  LAPACK picks
    the pivot of largest magnitude; in exact arithmetic every non-zero
    pivot leads to the same inverse, and the first one is taken here. *)

Fixpoint find_pivot (A : mat) (c r fuel : nat) : option nat :=
  match fuel with
  | O => None
  | S fuel' =>
      if bool_decide (mget A r c = 0) then find_pivot A c (S r) fuel'
      else Some r
  end.

Definition swap_rows (r c : nat) (A : mat) : mat :=
  build (nrows A) (ncols A) (fun i j =>
    mget A (if Nat.eqb i c then r else if Nat.eqb i r then c else i) j).

Definition scale_row (c : nat) (p : Qc) (A : mat) : mat :=
  build (nrows A) (ncols A) (fun i j =>
    if Nat.eqb i c then mget A i j / p else mget A i j).

(** Subtract from every row [i <> c] of [B] the row [c] of [B] times
    [A[i, c]]. *)
Definition eliminate (c : nat) (A B : mat) : mat :=
  build (nrows B) (ncols B) (fun i j =>
    if Nat.eqb i c then mget B i j
    else mget B i j - mget A i c * mget B c j).

Definition gj_step (c : nat) (A B : mat) : option (mat * mat) :=
  match find_pivot A c c (nrows A - c) with
  | None => None
  | Some r =>
      let A1 := swap_rows r c A in
      let B1 := swap_rows r c B in
      let p := mget A1 c c in
      let A2 := scale_row c p A1 in
      let B2 := scale_row c p B1 in
      Some (eliminate c A2 A2, eliminate c A2 B2)
  end.

Fixpoint gauss_jordan (A B : mat) (c fuel : nat) : option mat :=
  match fuel with
  | O => Some B
  | S fuel' =>
      match gj_step c A B with
      | None => None
      | Some (A', B') => gauss_jordan A' B' (S c) fuel'
      end
  end.

Definition minv (A : mat) : option mat :=
  gauss_jordan A (meye (nrows A)) 0 (nrows A).

(** The invariant of the elimination of [A0], before column [c] is
    processed: [B·A0 = A], and the columns of [A] before [c] are those of
    the identity. *)
Definition gj_inv (n : nat) (A0 : mat) (c : nat) (A B : mat) : Prop :=
  has_shape n n A /\ has_shape n n B /\
  (forall i j, (i < n)%nat -> (j < n)%nat ->
     sumn n (fun k => mget B i k * mget A0 k j) = mget A i j) /\
  (forall i j, (i < n)%nat -> (j < c)%nat ->
     mget A i j = if Nat.eqb i j then 1 else 0).

(** [B] has a left inverse of size [n]. *)
Definition left_invertible (n : nat) (B : mat) : Prop :=
  exists C, has_shape n n C /\ mmul C B = meye n.

Definition inv (a : value) : result value :=
  match a with
  | Num _ _ => Raise ValueError
  | Arr A =>
      if Nat.eqb (nrows A) (ncols A) then
        match minv A with
        | Some B => Val (Arr B)
        | None => Raise LinAlgError
        end
      else Raise ValueError
  end.

(** Modelled from the spec: [dot3] of [filterpy.common] is imported by the
    module but defined outside it.  The spec writes its uses as the triple
    products [H·P·Hᵗ], [P·Hᵗ·S⁻¹], [F·P·Fᵗ], so it is the product of its
    three arguments; the products are taken right to left here, and
    [dot3_assoc] below shows that on arrays the other order gives the
    same array. *)
Definition dot3 (a b c : value) : result value :=
  match dot b c with
  | Val bc => dot a bc
  | Raise e => Raise e
  end.

(** [numpy.zeros((n, p, q))]: [n] arrays of shape [(p, q)]. *)
Definition zeros3 (n : nat) (p q : Z) : result (list mat) :=
  if bool_decide (0 <= p)%Z && bool_decide (0 <= q)%Z
  then Val (replicate n (mzeros (Z.to_nat p) (Z.to_nat q)))
  else Raise ValueError.

(** An axis of length [p] can be stored into an axis of length [m]. *)
Definition fits (p m : nat) : bool := Nat.eqb p m || Nat.eqb p 1.

(** [a[i, :] = v]: the entries of [v], broadcast to the shape of the
    slot, are copied into the slot. *)
Definition setitem (a : list mat) (i : nat) (v : value) : result (list mat) :=
  match a !! i with
  | None => Raise IndexError
  | Some slot =>
      match v with
      | Num _ q =>
          Val (<[i := build (nrows slot) (ncols slot) (fun _ _ => q)]> a)
      | Arr A =>
          if fits (nrows A) (nrows slot) && fits (ncols A) (ncols slot)
          then Val (<[i := bcast (nrows slot) (ncols slot) A]> a)
          else Raise ValueError
      end
  end.

(** *** Python floats

    The argument [alpha] of the constructor is a Python float: a finite
    double, read as the rational it stands for, an infinity, or NaN. *)

Inductive pyfloat : Type :=
| Finite (q : Qc)
| PosInf
| NegInf
| NaN.

(** [a >= 1] and [a < 1] on floats: every comparison with NaN is false. *)
Definition float_ge_1 (a : pyfloat) : bool :=
  match a with
  | Finite q => bool_decide (1 <= q)
  | PosInf => true
  | NegInf => false
  | NaN => false
  end.


(** The largest finite double is [2^1024 - 2^971]; a real that is half a
    unit in the last place above it, [2^1024 - 2^970], or more, rounds
    to infinity. *)
Definition float_overflow : Qc := Q2Qc (inject_Z (2 ^ 1024 - 2 ^ 970)).

(** [a ** 2] on a float: Python raises [OverflowError] when the square
    of a finite float rounds to infinity; the square of an infinity is
    [inf], that of NaN is NaN. *)
Definition float_square (a : pyfloat) : result pyfloat :=
  match a with
  | Finite q =>
      if bool_decide (q ^ 2 < float_overflow) then Val (Finite (q ^ 2))
      else Raise OverflowError
  | PosInf => Val PosInf
  | NegInf => Val PosInf
  | NaN => Val NaN
  end.

(** *** [numpy.size(zs, 0)] on a Python list

    [np.size(zs, 0)] is [asarray(zs).shape[0]].  NumPy (1.24 and later)
    builds the array only from a homogeneous list: entries that are all
    2-D arrays of one shape, or no array at all ([None] and numbers
    give an array of shape [(n,)]).  A list that mixes an array with
    [None], with a number, or with an array of another shape raises
    [ValueError]. *)

Definition same_kind (a b : option value) : bool :=
  match a, b with
  | Some (Arr A), Some (Arr B) =>
      Nat.eqb (nrows A) (nrows B) && Nat.eqb (ncols A) (ncols B)
  | Some (Arr _), _ => false
  | _, Some (Arr _) => false
  | _, _ => true
  end.

Definition np_size0 (zs : list (option value)) : result nat :=
  match zs with
  | [] => Val 0%nat
  | z :: rest =>
      if forallb (same_kind z) rest then Val (length zs)
      else Raise ValueError
  end.

(** Boolean equality of values. *)
Definition value_eqb (a b : value) : bool :=
  match a, b with
  | Num k1 p, Num k2 q =>
      bool_decide (k1 = k2) && bool_decide (p = q)
  | Arr A, Arr B => mat_eqb A B
  | _, _ => false
  end.

End Numpy.
Export Numpy.

(** ** The filter *)

Module Filter.

(** The attributes of a [FadingKalmanFilter] instance.  [self_x] is the
    attribute [self.x], and so on. *)
Record FadingKalmanFilter := {
  self_alpha_sq : Qc;
  self_dim_x : Z;
  self_dim_z : Z;
  self_dim_u : Z;
  self_x : value;
  self_P : value;
  self_Q : value;
  self_B : value;
  self_F : value;
  self_H : value;
  self_R : value;
  self_K : value;
  self_y : value;
  self_S : value;
  self_I : value
}.

(** Assignments to the attributes that the methods write. *)
Definition set_x (v : value) (s : FadingKalmanFilter) : FadingKalmanFilter :=
  {| self_alpha_sq := self_alpha_sq s; self_dim_x := self_dim_x s;
     self_dim_z := self_dim_z s; self_dim_u := self_dim_u s;
     self_x := v; self_P := self_P s; self_Q := self_Q s;
     self_B := self_B s; self_F := self_F s; self_H := self_H s;
     self_R := self_R s; self_K := self_K s; self_y := self_y s;
     self_S := self_S s; self_I := self_I s |}.

Definition set_P (v : value) (s : FadingKalmanFilter) : FadingKalmanFilter :=
  {| self_alpha_sq := self_alpha_sq s; self_dim_x := self_dim_x s;
     self_dim_z := self_dim_z s; self_dim_u := self_dim_u s;
     self_x := self_x s; self_P := v; self_Q := self_Q s;
     self_B := self_B s; self_F := self_F s; self_H := self_H s;
     self_R := self_R s; self_K := self_K s; self_y := self_y s;
     self_S := self_S s; self_I := self_I s |}.

Definition set_K (v : value) (s : FadingKalmanFilter) : FadingKalmanFilter :=
  {| self_alpha_sq := self_alpha_sq s; self_dim_x := self_dim_x s;
     self_dim_z := self_dim_z s; self_dim_u := self_dim_u s;
     self_x := self_x s; self_P := self_P s; self_Q := self_Q s;
     self_B := self_B s; self_F := self_F s; self_H := self_H s;
     self_R := self_R s; self_K := v; self_y := self_y s;
     self_S := self_S s; self_I := self_I s |}.

Definition set_y (v : value) (s : FadingKalmanFilter) : FadingKalmanFilter :=
  {| self_alpha_sq := self_alpha_sq s; self_dim_x := self_dim_x s;
     self_dim_z := self_dim_z s; self_dim_u := self_dim_u s;
     self_x := self_x s; self_P := self_P s; self_Q := self_Q s;
     self_B := self_B s; self_F := self_F s; self_H := self_H s;
     self_R := self_R s; self_K := self_K s; self_y := v;
     self_S := self_S s; self_I := self_I s |}.

Definition set_S (v : value) (s : FadingKalmanFilter) : FadingKalmanFilter :=
  {| self_alpha_sq := self_alpha_sq s; self_dim_x := self_dim_x s;
     self_dim_z := self_dim_z s; self_dim_u := self_dim_u s;
     self_x := self_x s; self_P := self_P s; self_Q := self_Q s;
     self_B := self_B s; self_F := self_F s; self_H := self_H s;
     self_R := self_R s; self_K := self_K s; self_y := self_y s;
     self_S := v; self_I := self_I s |}.

(** *** Methods as computations

    A method runs on the instance and either returns or raises; in both
    cases the instance is left in the state reached so far, since an
    exception does not undo the assignments made before it. *)

Inductive outcome (A : Type) : Type :=
| Ok (a : A) (s : FadingKalmanFilter)
| Err (e : exn) (s : FadingKalmanFilter).
Arguments Ok {A} a s.
Arguments Err {A} e s.

Definition M (A : Type) : Type := FadingKalmanFilter -> outcome A.

#[global] Instance M_ret : MRet M := fun A a s => Ok a s.

#[global] Instance M_bind : MBind M := fun A B k m s =>
  match m s with
  | Ok a s' => k a s'
  | Err e s' => Err e s'
  end.

(** The instance after the call, returned or raised. *)
Definition state_of {A} (o : outcome A) : FadingKalmanFilter :=
  match o with
  | Ok _ s => s
  | Err _ s => s
  end.

(** Read an attribute. *)
Definition attr {A} (f : FadingKalmanFilter -> A) : M A :=
  fun s => Ok (f s) s.

(** Assign an attribute. *)
Definition assign (f : FadingKalmanFilter -> FadingKalmanFilter) : M unit :=
  fun s => Ok tt (f s).

(** Evaluate an expression that does not touch the instance. *)
Definition eval {A} (r : result A) : M A :=
  fun s => match r with
           | Val a => Ok a s
           | Raise e => Err e s
           end.

(** What the constructor returns.  The [alpha_sq] of an instance of the
    model is a rational.  For [alpha = inf] Python stores
    [alpha_sq = inf], which no rational stands for: [FilterInf s] is the
    instance whose [alpha_sq] is [inf] and whose other attributes are
    those of [s] (the [self_alpha_sq] of [s] is not used).  The methods
    of such an instance compute with infinities and are outside the
    model. *)
Inductive constructed : Type :=
| Filter (s : FadingKalmanFilter)
| FilterInf (s : FadingKalmanFilter).

(** [__init__(self, alpha, dim_x, dim_z, dim_u=0)] *)
Definition __init__ (alpha : pyfloat) (dim_x dim_z dim_u : Z)
  : result constructed :=
  if negb (float_ge_1 alpha) then Raise AssertionError
  else if negb (bool_decide (0 < dim_x)%Z) then Raise AssertionError
  else if negb (bool_decide (0 < dim_z)%Z) then Raise AssertionError
  else if negb (bool_decide (0 <= dim_u)%Z) then Raise AssertionError
  else
    match float_square alpha with
    | Raise e => Raise e
    | Val alpha_sq =>
        match zeros dim_x 1, eye dim_x, eye dim_x, eye dim_z,
              zeros dim_z 1, eye dim_x with
        | Val x0, Val P0, Val Q0, Val R0, Val y0, Val I0 =>
            let instance a :=
              {| self_alpha_sq := a;
                 self_dim_x := dim_x; self_dim_z := dim_z;
                 self_dim_u := dim_u;
                 self_x := x0; self_P := P0; self_Q := Q0;
                 self_B := Num PyNumber 0; self_F := Num PyNumber 0;
                 self_H := Num PyNumber 0; self_R := R0;
                 self_K := Num PyNumber 0; self_y := y0;
                 self_S := Num PyNumber 0; self_I := I0 |} in
            match alpha_sq with
            | Finite a => Val (Filter (instance a))
            | _ => Val (FilterInf (instance 0))
            end
        | _, _, _, _, _, _ => Raise ValueError
        end
    end.

(** [update(self, z, R=None)] *)
Definition update (z R : option value) : M unit :=
  match z with
  | None => mret tt
  | Some z =>
      R ← match R with
          | None => attr self_R
          | Some R =>
              if isscalar R then
                dz ← attr self_dim_z;
                e ← eval (eye dz);
                eval (np_mul e R)
              else mret R
          end;
      H ← attr self_H;
      P ← attr self_P;
      x ← attr self_x;
      Hx ← eval (dot H x);
      y ← eval (np_sub z Hx);
      assign (set_y y);;
      HT ← eval (T H);
      HPHT ← eval (dot3 H P HT);
      S_ ← eval (np_add HPHT R);
      HT' ← eval (T H);
      Si ← eval (inv S_);
      K ← eval (dot3 P HT' Si);
      y' ← attr self_y;
      Ky ← eval (dot K y');
      x' ← eval (np_add x Ky);
      assign (set_x x');;
      I_ ← attr self_I;
      KH ← eval (dot K H);
      I_KH ← eval (np_sub I_ KH);
      I_KHT ← eval (T I_KH);
      a ← eval (dot3 I_KH P I_KHT);
      KT ← eval (T K);
      b ← eval (dot3 K R KT);
      P' ← eval (np_add a b);
      assign (set_P P');;
      assign (set_S S_);;
      assign (set_K K)
  end.

(** [predict(self, u=0)] *)
Definition predict (u : value) : M unit :=
  F ← attr self_F;
  x ← attr self_x;
  Fx ← eval (dot F x);
  B ← attr self_B;
  Bu ← eval (dot B u);
  x' ← eval (np_add Fx Bu);
  assign (set_x x');;
  a ← attr self_alpha_sq;
  F ← attr self_F;
  P ← attr self_P;
  FT ← eval (T F);
  FPFT ← eval (dot3 F P FT);
  aFPFT ← eval (np_mul (Num PyNumber a) FPFT);
  Q ← attr self_Q;
  P' ← eval (np_add aFPFT Q);
  assign (set_P P').

(** The default [u=0] of [predict] and [get_prediction]. *)
Definition u_default : value := Num PyNumber 0.

(** The four arrays that [batch_filter] fills and returns. *)
Record batch_arrays := {
  means : list mat;
  covariances : list mat;
  means_p : list mat;
  covariances_p : list mat
}.

(** The loop of the branch [if update_first], from index [i] on. *)
Fixpoint loop_update_first (i : nat)
    (zrs : list (option value * option value)) (a : batch_arrays)
  : M batch_arrays :=
  match zrs with
  | [] => mret a
  | (z, r) :: rest =>
      update z r;;
      x ← attr self_x;
      m ← eval (setitem (means a) i x);
      P ← attr self_P;
      c ← eval (setitem (covariances a) i P);
      predict u_default;;
      x ← attr self_x;
      mp ← eval (setitem (means_p a) i x);
      P ← attr self_P;
      cp ← eval (setitem (covariances_p a) i P);
      loop_update_first (S i) rest
        {| means := m; covariances := c;
           means_p := mp; covariances_p := cp |}
  end.

(** The loop of the branch [else], from index [i] on. *)
Fixpoint loop_predict_first (i : nat)
    (zrs : list (option value * option value)) (a : batch_arrays)
  : M batch_arrays :=
  match zrs with
  | [] => mret a
  | (z, r) :: rest =>
      predict u_default;;
      x ← attr self_x;
      mp ← eval (setitem (means_p a) i x);
      P ← attr self_P;
      cp ← eval (setitem (covariances_p a) i P);
      update z r;;
      x ← attr self_x;
      m ← eval (setitem (means a) i x);
      P ← attr self_P;
      c ← eval (setitem (covariances a) i P);
      loop_predict_first (S i) rest
        {| means := m; covariances := c;
           means_p := mp; covariances_p := cp |}
  end.

(** [batch_filter(self, zs, Rs=None, update_first=False)] *)
Definition batch_filter (zs : list (option value))
    (Rs : option (list (option value))) (update_first : bool)
  : M batch_arrays :=
  n ← eval (np_size0 zs);
  let Rs := match Rs with
            | None => replicate n None
            | Some Rs => Rs
            end in
  dx ← attr self_dim_x;
  m ← eval (zeros3 n dx 1);
  mp ← eval (zeros3 n dx 1);
  c ← eval (zeros3 n dx dx);
  cp ← eval (zeros3 n dx dx);
  let a := {| means := m; covariances := c;
              means_p := mp; covariances_p := cp |} in
  if update_first then loop_update_first 0 (zip zs Rs) a
  else loop_predict_first 0 (zip zs Rs) a.

(** [get_prediction(self, u=0)] *)
Definition get_prediction (u : value) : M (value * value) :=
  F ← attr self_F;
  x ← attr self_x;
  Fx ← eval (dot F x);
  B ← attr self_B;
  Bu ← eval (dot B u);
  x' ← eval (np_add Fx Bu);
  a ← attr self_alpha_sq;
  F ← attr self_F;
  P ← attr self_P;
  FT ← eval (T F);
  FPFT ← eval (dot3 F P FT);
  aFPFT ← eval (np_mul (Num PyNumber a) FPFT);
  Q ← attr self_Q;
  P' ← eval (np_add aFPFT Q);
  mret (x', P').

(** [residual_of(self, z)] *)
Definition residual_of (z : value) : M value :=
  H ← attr self_H;
  x ← attr self_x;
  Hx ← eval (dot H x);
  eval (np_sub z Hx).

(** [measurement_of_state(self, x)] *)
Definition measurement_of_state (x : value) : M value :=
  H ← attr self_H;
  eval (dot H x).

End Filter.
Export Filter.

(** ** The contract of the spec

    The vocabulary of the specification: the shapes its data model
    prescribes, the resolution of the argument [R], and the manual
    sequences of calls that [batch_filter] is compared with. *)

Module Contract.

(** The array held by a value; a number is read as a 1 x 1 array. *)
Definition mat_of (v : value) : mat :=
  match v with
  | Arr A => A
  | Num _ q => build 1 1 (fun _ _ => q)
  end.

(** [v] is an array of shape [(m, n)]. *)
Definition shaped (m n : nat) (v : value) : Prop :=
  v = Arr (mat_of v) /\ has_shape m n (mat_of v).

(** [dim_x] and [dim_z] as array lengths. *)
Definition dx (s : FadingKalmanFilter) : nat := Z.to_nat (self_dim_x s).
Definition dz (s : FadingKalmanFilter) : nat := Z.to_nat (self_dim_z s).

(** The data model: [dim_x] and [dim_z] are positive, every matrix has
    the shape that they prescribe, and [I] is the identity that the
    constructor stored. *)
Record filter_wf (s : FadingKalmanFilter) : Prop := {
  wf_dim_x : (0 < self_dim_x s)%Z;
  wf_dim_z : (0 < self_dim_z s)%Z;
  wf_x : shaped (dx s) 1 (self_x s);
  wf_P : shaped (dx s) (dx s) (self_P s);
  wf_Q : shaped (dx s) (dx s) (self_Q s);
  wf_F : shaped (dx s) (dx s) (self_F s);
  wf_H : shaped (dz s) (dx s) (self_H s);
  wf_R : shaped (dz s) (dz s) (self_R s);
  wf_I : self_I s = Arr (meye (dx s))
}.

(** The measurement noise used by one call of [update], as the spec
    resolves the argument [R]: absent, the stored [R]; a scalar [r], [r]
    times the identity of size [dim_z]; a matrix, that matrix. *)
Inductive resolved_R (s : FadingKalmanFilter) : option value -> mat -> Prop :=
| R_default : resolved_R s None (mat_of (self_R s))
| R_scalar k r : resolved_R s (Some (Num k r)) (mscale r (meye (dz s)))
| R_matrix M : has_shape (dz s) (dz s) M -> resolved_R s (Some (Arr M)) M.

(** The control term [B·u] of [predict]: without control ([B] and [u]
    numbers, by default both 0) the number [B * u] is added to every
    component; with a control matrix, [u] is a column of matching
    length, or a number that scales a one-column [B]. *)
Inductive control_term (s : FadingKalmanFilter) : value -> mat -> Prop :=
| control_number k1 b k2 v :
    self_B s = Num k1 b ->
    control_term s (Num k2 v) (build (dx s) 1 (fun _ _ => b * v))
| control_matrix Bm um du :
    self_B s = Arr Bm -> has_shape (dx s) du Bm -> has_shape du 1 um ->
    control_term s (Arr um) (mmul Bm um)
| control_scaled Bm k v :
    self_B s = Arr Bm -> has_shape (dx s) 1 Bm ->
    control_term s (Num k v) (build (dx s) 1 (fun i j => mget Bm i j * v)).

(** The prediction equations of the spec: [x <- F·x + B·u] and
    [P <- alpha_sq·(F·P·Fᵗ) + Q], with [c] the control term. *)
Definition predicted_x (s : FadingKalmanFilter) (c : mat) : mat :=
  madd (mmul (mat_of (self_F s)) (mat_of (self_x s))) c.

Definition predicted_P (s : FadingKalmanFilter) : mat :=
  let F := mat_of (self_F s) in
  madd (mscale (self_alpha_sq s) (mmul F (mmul (mat_of (self_P s)) (mtrans F))))
       (mat_of (self_Q s)).

Definition spec_predict (s : FadingKalmanFilter) (c : mat)
  : FadingKalmanFilter :=
  set_P (Arr (predicted_P s)) (set_x (Arr (predicted_x s c)) s).

(** The update equations of the spec, for the measurement [z], the
    resolved noise [Rm] and the inverse [Si] of the innovation
    covariance. *)
Definition innovation (s : FadingKalmanFilter) (z : mat) : mat :=
  msub z (mmul (mat_of (self_H s)) (mat_of (self_x s))).

Definition innovation_cov (s : FadingKalmanFilter) (Rm : mat) : mat :=
  let H := mat_of (self_H s) in
  madd (mmul H (mmul (mat_of (self_P s)) (mtrans H))) Rm.

Definition gain (s : FadingKalmanFilter) (Si : mat) : mat :=
  mmul (mat_of (self_P s)) (mmul (mtrans (mat_of (self_H s))) Si).

Definition joseph (s : FadingKalmanFilter) (K Rm : mat) : mat :=
  let I_KH := msub (meye (dx s)) (mmul K (mat_of (self_H s))) in
  madd (mmul I_KH (mmul (mat_of (self_P s)) (mtrans I_KH)))
       (mmul K (mmul Rm (mtrans K))).

Definition spec_update (s : FadingKalmanFilter) (z Rm Si : mat)
  : FadingKalmanFilter :=
  let y := innovation s z in
  let K := gain s Si in
  set_K (Arr K)
    (set_S (Arr (innovation_cov s Rm))
       (set_P (Arr (joseph s K Rm))
          (set_x (Arr (madd (mat_of (self_x s)) (mmul K y)))
             (set_y (Arr y) s)))).

(** A value is symmetric when it is a number or a symmetric array. *)
Definition sym_value (v : value) : Prop :=
  match v with
  | Num _ _ => True
  | Arr A => symmetric A
  end.

(** A call of one of the two mutating methods. *)
Inductive call : Type :=
| Predict (u : value)
| Update (z R : option value).

Definition run_call (c : call) : M unit :=
  match c with
  | Predict u => predict u
  | Update z R => update z R
  end.

(** The instance after a sequence of calls, each of which returned or
    raised (the caller may catch the exception and go on). *)
Definition after_calls (cs : list call) (s : FadingKalmanFilter)
  : FadingKalmanFilter :=
  fold_left (fun s c => state_of (run_call c s)) cs s.

(** The override [R] of a call, when there is one, is symmetric. *)
Definition sym_call (c : call) : Prop :=
  match c with
  | Update _ (Some R) => sym_value R
  | _ => True
  end.

(** Two instances with the same configuration: [alpha_sq], the
    dimensions, and the matrices that the caller sets and the methods
    read. *)
Definition same_configuration (s s' : FadingKalmanFilter) : Prop :=
  self_alpha_sq s' = self_alpha_sq s /\
  self_dim_x s' = self_dim_x s /\
  self_dim_z s' = self_dim_z s /\
  self_dim_u s' = self_dim_u s /\
  self_Q s' = self_Q s /\
  self_B s' = self_B s /\
  self_F s' = self_F s /\
  self_H s' = self_H s /\
  self_R s' = self_R s /\
  self_I s' = self_I s.

(** *** The equations in NumPy's own operations

    For an arbitrary instance and arbitrary arguments the products, sums
    and transposes of the equations are NumPy's, broadcasting included.
    The relations below say that every expression of the equations has
    a value and that the instance [s'] holds the results in the
    attributes that the method assigns, the other attributes being
    those of [s]. *)

Definition predict_computes (s : FadingKalmanFilter) (u : value)
    (s' : FadingKalmanFilter) : Prop :=
  exists Fx Bu x1 FT FPFT aFPFT P1,
    dot (self_F s) (self_x s) = Val Fx /\
    dot (self_B s) u = Val Bu /\
    np_add Fx Bu = Val x1 /\
    T (self_F s) = Val FT /\
    dot3 (self_F s) (self_P s) FT = Val FPFT /\
    np_mul (Num PyNumber (self_alpha_sq s)) FPFT = Val aFPFT /\
    np_add aFPFT (self_Q s) = Val P1 /\
    self_x s' = x1 /\ self_P s' = P1 /\
    self_K s' = self_K s /\ self_y s' = self_y s /\
    self_S s' = self_S s /\ same_configuration s s'.

(** [Rv] is the value that [update] uses for the argument [R]. *)
Definition resolves_to (s : FadingKalmanFilter) (R : option value)
    (Rv : value) : Prop :=
  match R with
  | None => Rv = self_R s
  | Some (Num k r) =>
      exists e, eye (self_dim_z s) = Val e /\ np_mul e (Num k r) = Val Rv
  | Some (Arr M) => Rv = Arr M
  end.

Definition update_computes (s : FadingKalmanFilter) (z : value)
    (R : option value) (s' : FadingKalmanFilter) : Prop :=
  exists Rv Hx y HT HPHT S_ Si K Ky x1 KH I_KH I_KHT a KT b P1,
    resolves_to s R Rv /\
    dot (self_H s) (self_x s) = Val Hx /\
    np_sub z Hx = Val y /\
    T (self_H s) = Val HT /\
    dot3 (self_H s) (self_P s) HT = Val HPHT /\
    np_add HPHT Rv = Val S_ /\
    inv S_ = Val Si /\
    dot3 (self_P s) HT Si = Val K /\
    dot K y = Val Ky /\
    np_add (self_x s) Ky = Val x1 /\
    dot K (self_H s) = Val KH /\
    np_sub (self_I s) KH = Val I_KH /\
    T I_KH = Val I_KHT /\
    dot3 I_KH (self_P s) I_KHT = Val a /\
    T K = Val KT /\
    dot3 K Rv KT = Val b /\
    np_add a b = Val P1 /\
    self_y s' = y /\ self_S s' = S_ /\ self_K s' = K /\
    self_x s' = x1 /\ self_P s' = P1 /\ same_configuration s s'.

(** *** Manual sequences of calls, for [batch_filter] *)

(** A measurement of the batch is missing or a column of length [dim_z];
    an override of [R] is missing, a number, or a [dim_z] x [dim_z]
    matrix. *)
Definition measurement_ok (s : FadingKalmanFilter) (z : option value) : Prop :=
  match z with
  | None => True
  | Some z => shaped (dz s) 1 z
  end.

Definition override_ok (s : FadingKalmanFilter) (R : option value) : Prop :=
  match R with
  | Some (Arr M) => has_shape (dz s) (dz s) M
  | _ => True
  end.

Definition input_ok (s : FadingKalmanFilter)
    (zr : option value * option value) : Prop :=
  measurement_ok s zr.1 /\ override_ok s zr.2.

(** The pairs [(zs[i], Rs[i])] that the loop of [batch_filter] visits. *)
Definition batch_inputs (zs : list (option value))
    (Rs : option (list (option value)))
  : list (option value * option value) :=
  zip zs (match Rs with
          | None => replicate (length zs) None
          | Some Rs => Rs
          end).

(** [np.size(zs, 0)] accepts [zs]: its entries are arrays of one shape,
    or none of them is an array. *)
Definition homogeneous (zs : list (option value)) : Prop :=
  np_size0 zs = Val (length zs).

(** [r] is the override [Rs[i]], or [None] when [Rs] is absent. *)
Definition override_at (Rs : option (list (option value))) (i : nat)
    (r : option value) : Prop :=
  match Rs with
  | None => r = None
  | Some Rs => Rs !! i = Some r
  end.

(** The two calls that a user makes by hand for one measurement, in the
    order that [update_first] selects. *)
Definition first_call (update_first : bool)
    (zr : option value * option value) : M unit :=
  if update_first then update zr.1 zr.2 else predict u_default.

Definition second_call (update_first : bool)
    (zr : option value * option value) : M unit :=
  if update_first then predict u_default else update zr.1 zr.2.

(** Calling the two methods by hand for every input in order. *)
Fixpoint manual (update_first : bool)
    (zrs : list (option value * option value)) : M unit :=
  match zrs with
  | [] => mret tt
  | zr :: rest =>
      first_call update_first zr;;
      second_call update_first zr;;
      manual update_first rest
  end.

(** The instances seen by such a manual run: for every input the
    instance after the first call and the one after the second; [None]
    when a call raises. *)
Fixpoint trace (update_first : bool)
    (zrs : list (option value * option value)) (s : FadingKalmanFilter)
  : option (list (FadingKalmanFilter * FadingKalmanFilter)) :=
  match zrs with
  | [] => Some []
  | zr :: rest =>
      match first_call update_first zr s with
      | Ok _ s1 =>
          match second_call update_first zr s1 with
          | Ok _ s2 =>
              match trace update_first rest s2 with
              | Some tr => Some ((s1, s2) :: tr)
              | None => None
              end
          | Err _ _ => None
          end
      | Err _ _ => None
      end
  end.

(** In a pair of the trace, the instance after [update] and the one
    after [predict]. *)
Definition after_update (update_first : bool)
    (p : FadingKalmanFilter * FadingKalmanFilter) : FadingKalmanFilter :=
  if update_first then p.1 else p.2.

Definition after_predict (update_first : bool)
    (p : FadingKalmanFilter * FadingKalmanFilter) : FadingKalmanFilter :=
  if update_first then p.2 else p.1.

(** The instance at the end of a trace that started from [s]. *)
Definition final_state (tr : list (FadingKalmanFilter * FadingKalmanFilter))
    (s : FadingKalmanFilter) : FadingKalmanFilter :=
  fold_left (fun _ p => p.2) tr s.

(** The four sequences that the spec expects from [batch_filter]. *)
Definition recorded (update_first : bool)
    (tr : list (FadingKalmanFilter * FadingKalmanFilter)) : batch_arrays :=
  {| means := map (fun p => mat_of (self_x (after_update update_first p))) tr;
     covariances :=
       map (fun p => mat_of (self_P (after_update update_first p))) tr;
     means_p :=
       map (fun p => mat_of (self_x (after_predict update_first p))) tr;
     covariances_p :=
       map (fun p => mat_of (self_P (after_predict update_first p))) tr |}.

(** What a slot of shape [(m, n)] holds after [v] is assigned to it:
    the entries of [v], broadcast to the shape of the slot. *)
Definition stored (m n : nat) (v : value) : mat :=
  match v with
  | Num _ q => build m n (fun _ _ => q)
  | Arr A => bcast m n A
  end.

(** The array [l'] is [l] with, for every pair [p] of the trace, the
    value [get p] stored in the slot of its index, counted from [i];
    the slots before [i] are untouched. *)
Definition stores_at (i : nat)
    (get : FadingKalmanFilter * FadingKalmanFilter -> value)
    (tr : list (FadingKalmanFilter * FadingKalmanFilter))
    (l l' : list mat) : Prop :=
  length l' = length l /\
  (forall k, (k < i)%nat -> l' !! k = l !! k) /\
  (forall j p, tr !! j = Some p ->
     exists slot, l !! (i + j)%nat = Some slot /\
       l' !! (i + j)%nat = Some (stored (nrows slot) (ncols slot) (get p))).

(** Arrays side by side, and arrays followed by [e] slots that are still
    zero. *)
Definition append_arrays (a b : batch_arrays) : batch_arrays :=
  {| means := means a ++ means b;
     covariances := covariances a ++ covariances b;
     means_p := means_p a ++ means_p b;
     covariances_p := covariances_p a ++ covariances_p b |}.

Definition zero_arrays (nx e : nat) : batch_arrays :=
  {| means := replicate e (mzeros nx 1);
     covariances := replicate e (mzeros nx nx);
     means_p := replicate e (mzeros nx 1);
     covariances_p := replicate e (mzeros nx nx) |}.

(** A filter ready for [batch_filter]: shaped as the data model says,
    and with a control matrix [B] that [predict()] accepts without a
    control input. *)
Definition batch_ready (s : FadingKalmanFilter) : Prop :=
  filter_wf s /\ exists c, control_term s u_default c.

(** The arguments of a call fit the data model of [s]. *)
Definition call_ok (s : FadingKalmanFilter) (c : call) : Prop :=
  match c with
  | Predict u => exists ct, control_term s u ct
  | Update z R => measurement_ok s z /\ override_ok s R
  end.

(** The four arrays have room for the indices from [i] to [i + n - 1]. *)
Definition has_room (i n : nat) (a : batch_arrays) : Prop :=
  (i + n <= length (means a))%nat /\
  (i + n <= length (covariances a))%nat /\
  (i + n <= length (means_p a))%nat /\
  (i + n <= length (covariances_p a))%nat.

End Contract.
Export Contract.

(** ** Example filters *)

Module Example.

Definition q (n : Z) (d : positive) : Qc := Q2Qc (Qmake n d).

(** Assignments of the caller to the configuration attributes. *)
Definition set_Q (v : value) (s : FadingKalmanFilter) : FadingKalmanFilter :=
  {| self_alpha_sq := self_alpha_sq s; self_dim_x := self_dim_x s;
     self_dim_z := self_dim_z s; self_dim_u := self_dim_u s;
     self_x := self_x s; self_P := self_P s; self_Q := v;
     self_B := self_B s; self_F := self_F s; self_H := self_H s;
     self_R := self_R s; self_K := self_K s; self_y := self_y s;
     self_S := self_S s; self_I := self_I s |}.

Definition set_F (v : value) (s : FadingKalmanFilter) : FadingKalmanFilter :=
  {| self_alpha_sq := self_alpha_sq s; self_dim_x := self_dim_x s;
     self_dim_z := self_dim_z s; self_dim_u := self_dim_u s;
     self_x := self_x s; self_P := self_P s; self_Q := self_Q s;
     self_B := self_B s; self_F := v; self_H := self_H s;
     self_R := self_R s; self_K := self_K s; self_y := self_y s;
     self_S := self_S s; self_I := self_I s |}.

Definition set_H (v : value) (s : FadingKalmanFilter) : FadingKalmanFilter :=
  {| self_alpha_sq := self_alpha_sq s; self_dim_x := self_dim_x s;
     self_dim_z := self_dim_z s; self_dim_u := self_dim_u s;
     self_x := self_x s; self_P := self_P s; self_Q := self_Q s;
     self_B := self_B s; self_F := self_F s; self_H := v;
     self_R := self_R s; self_K := self_K s; self_y := self_y s;
     self_S := self_S s; self_I := self_I s |}.

Definition set_R (v : value) (s : FadingKalmanFilter) : FadingKalmanFilter :=
  {| self_alpha_sq := self_alpha_sq s; self_dim_x := self_dim_x s;
     self_dim_z := self_dim_z s; self_dim_u := self_dim_u s;
     self_x := self_x s; self_P := self_P s; self_Q := self_Q s;
     self_B := self_B s; self_F := self_F s; self_H := self_H s;
     self_R := v; self_K := self_K s; self_y := self_y s;
     self_S := self_S s; self_I := self_I s |}.

Definition set_B (v : value) (s : FadingKalmanFilter) : FadingKalmanFilter :=
  {| self_alpha_sq := self_alpha_sq s; self_dim_x := self_dim_x s;
     self_dim_z := self_dim_z s; self_dim_u := self_dim_u s;
     self_x := self_x s; self_P := self_P s; self_Q := self_Q s;
     self_B := v; self_F := self_F s; self_H := self_H s;
     self_R := self_R s; self_K := self_K s; self_y := self_y s;
     self_S := self_S s; self_I := self_I s |}.

(** The instance that a constructor call returns, for examples; an
    arbitrary instance stands for a call that raises. *)
Definition construct (alpha : Qc) (dim_x dim_z dim_u : Z)
  : FadingKalmanFilter :=
  match __init__ (Finite alpha) dim_x dim_z dim_u with
  | Val (Filter s) => s
  | _ =>
      {| self_alpha_sq := 0; self_dim_x := 0; self_dim_z := 0;
         self_dim_u := 0;
         self_x := Num PyNumber 0; self_P := Num PyNumber 0;
         self_Q := Num PyNumber 0; self_B := Num PyNumber 0;
         self_F := Num PyNumber 0; self_H := Num PyNumber 0;
         self_R := Num PyNumber 0; self_K := Num PyNumber 0;
         self_y := Num PyNumber 0; self_S := Num PyNumber 0;
         self_I := Num PyNumber 0 |}
  end.

(** The inverse that [minv] computes, for examples; the empty array
    stands for a singular matrix. *)
Definition inverse_of (A : mat) : mat :=
  match minv A with
  | Some B => B
  | None => mzeros 0 0
  end.

Definition arr (rows : list (list Qc)) : value :=
  Arr (Mat (length rows) (length (hd [] rows)) rows).

(** The 1-D constant-position model of the spec's concrete scenario:
    [F = H = [[1]]], [Q = [[0]]], [R = [[1]]], [x = [[0]]], [P = [[1]]]. *)
Definition scenario (alpha : Qc) : FadingKalmanFilter :=
  set_P (arr [[1]]) (set_x (arr [[0]])
    (set_R (arr [[1]]) (set_Q (arr [[0]])
      (set_H (arr [[1]]) (set_F (arr [[1]]) (construct alpha 1 1 0)))))).

(** A position-velocity tracker measured in position, with fading
    factor [alpha = 11/10]. *)
Definition tracker : FadingKalmanFilter :=
  set_P (arr [[q 2 1; 0]; [0; q 3 1]])
    (set_R (arr [[q 1 2]])
      (set_H (arr [[1; 0]])
        (set_F (arr [[1; 1]; [0; 1]]) (construct (q 11 10) 2 1 0)))).

(** The same tracker driven by a scalar acceleration through
    [B = [[1/2], [1]]]. *)
Definition driven_tracker : FadingKalmanFilter :=
  set_B (arr [[q 1 2]; [1]]) tracker.

(** The tracker with a control matrix of two columns. *)
Definition wide_tracker : FadingKalmanFilter :=
  set_B (arr [[1; 0]; [0; 1]]) tracker.

End Example.
Export Example.

(** * Properties *)

(** ** Finite sums *)

Lemma sumn_ext n f g :
  (forall k, (k < n)%nat -> f k = g k) -> sumn n f = sumn n g.
Proof.
  induction n as [|n IH]; intros E; simpl; [reflexivity|].
  rewrite IH by (intros; apply E; lia).
  rewrite E by lia. reflexivity.
Qed.

Lemma sumn_zero n f : (forall k, (k < n)%nat -> f k = 0) -> sumn n f = 0.
Proof.
  induction n as [|n IH]; intros E; simpl; [reflexivity|].
  rewrite IH by (intros; apply E; lia).
  rewrite E by lia. ring.
Qed.

Lemma sumn_plus n f g :
  sumn n (fun k => f k + g k) = sumn n f + sumn n g.
Proof. induction n as [|n IH]; simpl; [ring | rewrite IH; ring]. Qed.

Lemma sumn_scal_l n c f : sumn n (fun k => c * f k) = c * sumn n f.
Proof. induction n as [|n IH]; simpl; [ring | rewrite IH; ring]. Qed.

Lemma sumn_scal_r n c f : sumn n (fun k => f k * c) = sumn n f * c.
Proof. induction n as [|n IH]; simpl; [ring | rewrite IH; ring]. Qed.

(** Exchange of two finite sums. *)
Lemma sumn_swap m n (f : nat -> nat -> Qc) :
  sumn m (fun i => sumn n (fun j => f i j))
  = sumn n (fun j => sumn m (fun i => f i j)).
Proof.
  induction m as [|m IH]; simpl.
  - symmetry. apply sumn_zero. reflexivity.
  - rewrite IH, <- sumn_plus. reflexivity.
Qed.

(** A sum with a single non-zero term. *)
Lemma sumn_single n k0 f :
  (k0 < n)%nat -> (forall k, (k < n)%nat -> k <> k0 -> f k = 0) ->
  sumn n f = f k0.
Proof.
  induction n as [|n IH]; intros Hk E; [lia|]. simpl.
  destruct (Nat.eq_dec k0 n) as [->|Hne].
  - rewrite sumn_zero by (intros; apply E; lia). ring.
  - rewrite IH by (try lia; intros; apply E; lia).
    rewrite (E n) by lia. ring.
Qed.

Lemma sumn_minus n f g :
  sumn n (fun k => f k - g k) = sumn n f - sumn n g.
Proof. induction n as [|n IH]; simpl; [ring | rewrite IH; ring]. Qed.

(** Take one term out of a sum. *)
Lemma sumn_split n k0 f :
  (k0 < n)%nat ->
  sumn n f = f k0 + sumn n (fun k => if Nat.eqb k k0 then 0 else f k).
Proof.
  induction n as [|n IH]; intros Hk; [lia|]. simpl.
  destruct (Nat.eqb_spec n k0) as [->|Hne].
  - rewrite (sumn_ext k0 f (fun k => if Nat.eqb k k0 then 0 else f k)).
    + ring.
    + intros k Hlt. destruct (Nat.eqb_spec k k0); [lia | reflexivity].
  - rewrite IH by lia. ring.
Qed.

(** A sum does not change when two indices are exchanged. *)
Lemma sumn_exchange n r c g :
  (r < n)%nat -> (c < n)%nat ->
  sumn n (fun k => g (if Nat.eqb k c then r else if Nat.eqb k r then c else k))
  = sumn n g.
Proof.
  intros Hr Hc. destruct (Nat.eq_dec r c) as [->|Hne].
  - apply sumn_ext. intros k _. destruct (Nat.eqb_spec k c); congruence.
  - rewrite (sumn_split n c) by assumption. rewrite Nat.eqb_refl.
    rewrite (sumn_split n r) by assumption.
    rewrite (sumn_split n c g) by assumption.
    rewrite (sumn_split n r (fun k => if Nat.eqb k c then 0 else g k))
      by assumption.
    rewrite Nat.eqb_refl.
    destruct (Nat.eqb_spec r c); [lia|].
    rewrite (sumn_ext n
      (fun k => if Nat.eqb k r then 0
                else if Nat.eqb k c then 0
                else g (if Nat.eqb k c then r
                        else if Nat.eqb k r then c else k))
      (fun k => if Nat.eqb k r then 0
                else if Nat.eqb k c then 0 else g k)).
    + ring.
    + intros k _. destruct (Nat.eqb_spec k r), (Nat.eqb_spec k c);
        reflexivity.
Qed.

Lemma mat_eqb_eq A B : mat_eqb A B = true <-> A = B.
Proof.
  unfold mat_eqb. destruct A as [m n a], B as [m' n' b]; simpl.
  rewrite !andb_true_iff, !Nat.eqb_eq, bool_decide_eq_true.
  split; [intros [[-> ->] ->]; reflexivity | intros [= -> -> ->]; auto].
Qed.

Lemma nrows_build m n f : nrows (build m n f) = m.
Proof. reflexivity. Qed.

Lemma ncols_build m n f : ncols (build m n f) = n.
Proof. reflexivity. Qed.

Lemma nth_map_seq {A} (g : nat -> A) d n j :
  (j < n)%nat -> nth j (map g (seq 0 n)) d = g j.
Proof.
  intros Hj.
  rewrite (nth_indep _ d (g 0%nat)) by (rewrite length_map, length_seq; lia).
  rewrite (map_nth g (seq 0 n) 0%nat j), seq_nth by lia. reflexivity.
Qed.

Lemma mget_build m n f i j :
  (i < m)%nat -> (j < n)%nat -> mget (build m n f) i j = f i j.
Proof.
  intros Hi Hj. unfold mget, build; simpl.
  rewrite (nth_map_seq (fun i => map (f i) (seq 0 n))) by lia.
  apply nth_map_seq; lia.
Qed.

Lemma map_seq_ext {A} (g h : nat -> A) n :
  (forall k, (k < n)%nat -> g k = h k) -> map g (seq 0 n) = map h (seq 0 n).
Proof.
  intros E. apply map_ext_in. intros k Hk. apply in_seq in Hk. apply E. lia.
Qed.

Lemma build_ext m n f g :
  (forall i j, (i < m)%nat -> (j < n)%nat -> f i j = g i j) ->
  build m n f = build m n g.
Proof.
  intros E. unfold build. f_equal.
  apply map_seq_ext. intros i Hi. apply map_seq_ext. intros j Hj. auto.
Qed.

Lemma build_wf m n f : mat_wf (build m n f).
Proof.
  unfold mat_wf. rewrite nrows_build, ncols_build.
  apply build_ext. intros. apply mget_build; assumption.
Qed.

Lemma build_shape m n f : has_shape m n (build m n f).
Proof. split; [|split]; [reflexivity| reflexivity | apply build_wf]. Qed.

(** Two well-formed arrays of the same shape are equal as soon as their
    entries agree. *)
Lemma mat_ext A B :
  mat_wf A -> mat_wf B -> nrows A = nrows B -> ncols A = ncols B ->
  (forall i j, (i < nrows A)%nat -> (j < ncols A)%nat ->
               mget A i j = mget B i j) ->
  A = B.
Proof.
  intros WA WB Hr Hc E. rewrite <- WA, <- WB, <- Hr, <- Hc.
  apply build_ext. exact E.
Qed.

(** ** Shapes and entries of the matrix operations *)

Lemma nrows_mtrans A : nrows (mtrans A) = ncols A.
Proof. reflexivity. Qed.

Lemma ncols_mtrans A : ncols (mtrans A) = nrows A.
Proof. reflexivity. Qed.

Lemma nrows_mmul A B : nrows (mmul A B) = nrows A.
Proof. reflexivity. Qed.

Lemma ncols_mmul A B : ncols (mmul A B) = ncols B.
Proof. reflexivity. Qed.

Lemma nrows_mmap2 op A B : nrows (mmap2 op A B) = nrows A.
Proof. reflexivity. Qed.

Lemma ncols_mmap2 op A B : ncols (mmap2 op A B) = ncols A.
Proof. reflexivity. Qed.

Lemma nrows_mscale c A : nrows (mscale c A) = nrows A.
Proof. reflexivity. Qed.

Lemma ncols_mscale c A : ncols (mscale c A) = ncols A.
Proof. reflexivity. Qed.

Lemma mtrans_wf A : mat_wf (mtrans A).
Proof. apply build_wf. Qed.

Lemma mmul_wf A B : mat_wf (mmul A B).
Proof. apply build_wf. Qed.

Lemma mmap2_wf op A B : mat_wf (mmap2 op A B).
Proof. apply build_wf. Qed.

Lemma mscale_wf c A : mat_wf (mscale c A).
Proof. apply build_wf. Qed.

Lemma meye_shape n : has_shape n n (meye n).
Proof. apply build_shape. Qed.

Lemma mzeros_shape m n : has_shape m n (mzeros m n).
Proof. apply build_shape. Qed.

Lemma mtrans_shape m n A : has_shape m n A -> has_shape n m (mtrans A).
Proof. intros (<- & <- & _). apply build_shape. Qed.

Lemma mmul_shape m n p A B :
  has_shape m n A -> has_shape n p B -> has_shape m p (mmul A B).
Proof. intros (<- & _ & _) (_ & <- & _). apply build_shape. Qed.

Lemma mmap2_shape op m n A B :
  has_shape m n A -> has_shape m n (mmap2 op A B).
Proof. intros (<- & <- & _). apply build_shape. Qed.

Lemma mscale_shape c m n A : has_shape m n A -> has_shape m n (mscale c A).
Proof. intros (<- & <- & _). apply build_shape. Qed.

Lemma mget_mtrans A i j :
  (i < ncols A)%nat -> (j < nrows A)%nat -> mget (mtrans A) i j = mget A j i.
Proof. intros. unfold mtrans. rewrite mget_build; auto. Qed.

Lemma mget_mmul A B i j :
  (i < nrows A)%nat -> (j < ncols B)%nat ->
  mget (mmul A B) i j = sumn (ncols A) (fun k => mget A i k * mget B k j).
Proof. intros. unfold mmul. rewrite mget_build; auto. Qed.

Lemma mget_mmap2 op A B i j :
  (i < nrows A)%nat -> (j < ncols A)%nat ->
  mget (mmap2 op A B) i j = op (mget A i j) (mget B i j).
Proof. intros. unfold mmap2. rewrite mget_build; auto. Qed.

Lemma mget_mscale c A i j :
  (i < nrows A)%nat -> (j < ncols A)%nat ->
  mget (mscale c A) i j = c * mget A i j.
Proof. intros. unfold mscale. rewrite mget_build; auto. Qed.

Lemma mget_meye n i j :
  (i < n)%nat -> (j < n)%nat ->
  mget (meye n) i j = if Nat.eqb i j then 1 else 0.
Proof. intros. unfold meye. rewrite mget_build; auto. Qed.

(** ** Algebra of the matrix operations *)

Lemma mtrans_involutive A : mat_wf A -> mtrans (mtrans A) = A.
Proof.
  intros WA. etransitivity; [|exact WA].
  unfold mtrans at 1. rewrite nrows_mtrans, ncols_mtrans.
  apply build_ext. intros i j Hi Hj.
  apply mget_mtrans; assumption.
Qed.

Lemma mtrans_mmap2 op A B :
  nrows A = nrows B -> ncols A = ncols B ->
  mtrans (mmap2 op A B) = mmap2 op (mtrans A) (mtrans B).
Proof.
  intros Hr Hc.
  apply mat_ext; [apply mtrans_wf | apply mmap2_wf | reflexivity ..|].
  intros i j Hi Hj. rewrite nrows_mtrans, ncols_mmap2 in Hi.
  rewrite ncols_mtrans, nrows_mmap2 in Hj.
  rewrite mget_mtrans, !mget_mmap2, !mget_mtrans
    by (rewrite ?nrows_mtrans, ?ncols_mtrans, ?nrows_mmap2, ?ncols_mmap2; lia).
  reflexivity.
Qed.

Lemma mtrans_mscale c A : mtrans (mscale c A) = mscale c (mtrans A).
Proof.
  apply mat_ext; [apply mtrans_wf | apply mscale_wf | reflexivity ..|].
  intros i j Hi Hj. rewrite nrows_mtrans, ncols_mscale in Hi.
  rewrite ncols_mtrans, nrows_mscale in Hj.
  rewrite mget_mtrans, !mget_mscale, mget_mtrans
    by (rewrite ?nrows_mtrans, ?ncols_mtrans, ?nrows_mscale, ?ncols_mscale; lia).
  reflexivity.
Qed.

(** [(A·B)ᵗ = Bᵗ·Aᵗ] *)
Lemma mtrans_mmul A B :
  ncols A = nrows B -> mtrans (mmul A B) = mmul (mtrans B) (mtrans A).
Proof.
  intros E.
  apply mat_ext; [apply mtrans_wf | apply mmul_wf | reflexivity ..|].
  intros i j Hi Hj. rewrite nrows_mtrans, ncols_mmul in Hi.
  rewrite ncols_mtrans, nrows_mmul in Hj.
  rewrite mget_mtrans, !mget_mmul
    by (rewrite ?nrows_mtrans, ?ncols_mtrans, ?nrows_mmul, ?ncols_mmul; lia).
  rewrite ncols_mtrans, <- E. apply sumn_ext. intros k Hk.
  rewrite !mget_mtrans by lia. ring.
Qed.

(** [A·(B·C) = (A·B)·C] *)
Lemma mmul_assoc A B C :
  ncols A = nrows B -> ncols B = nrows C ->
  mmul A (mmul B C) = mmul (mmul A B) C.
Proof.
  intros E1 E2.
  apply mat_ext; [apply mmul_wf | apply mmul_wf | reflexivity ..|].
  intros i j Hi Hj. rewrite nrows_mmul in Hi. rewrite !ncols_mmul in Hj.
  rewrite !mget_mmul by (rewrite ?nrows_mmul, ?ncols_mmul; lia).
  rewrite ncols_mmul.
  transitivity (sumn (ncols A) (fun k =>
                  sumn (ncols B) (fun l =>
                    mget A i k * mget B k l * mget C l j))).
  - apply sumn_ext. intros k Hk. rewrite mget_mmul by lia.
    rewrite <- sumn_scal_l. apply sumn_ext. intros; ring.
  - rewrite sumn_swap. apply sumn_ext. intros l Hl.
    rewrite mget_mmul by lia. rewrite <- sumn_scal_r. reflexivity.
Qed.

Lemma mmul_meye_l n A : has_shape n (ncols A) A -> mmul (meye n) A = A.
Proof.
  intros (Hr & _ & WA). etransitivity; [|exact WA]. unfold mmul.
  change (nrows (meye n)) with n. change (ncols (meye n)) with n.
  rewrite Hr. apply build_ext. intros i j Hi Hj.
  rewrite (sumn_single n i); [| lia |].
  - rewrite mget_meye, Nat.eqb_refl by lia. ring.
  - intros k Hk Hne. rewrite mget_meye by lia.
    destruct (Nat.eqb_spec i k); [lia | ring].
Qed.

Lemma mmul_meye_r m n A : has_shape m n A -> mmul A (meye n) = A.
Proof.
  intros (Hr & Hc & WA). etransitivity; [|exact WA]. unfold mmul.
  change (ncols (meye n)) with n. rewrite Hc.
  apply build_ext. intros i j Hi Hj.
  rewrite (sumn_single n j); [| lia |].
  - rewrite mget_meye, Nat.eqb_refl by lia. ring.
  - intros k Hk Hne. rewrite mget_meye by lia.
    destruct (Nat.eqb_spec k j); [lia | ring].
Qed.

Lemma mscale_1 A : mat_wf A -> mscale 1 A = A.
Proof.
  intros WA. etransitivity; [|exact WA]. apply build_ext. intros; ring.
Qed.

(** *** Symmetric matrices *)

Lemma symmetric_square A : symmetric A -> nrows A = ncols A.
Proof. unfold symmetric. intros E. rewrite <- E at 1. reflexivity. Qed.

Lemma symmetric_wf A : symmetric A -> mat_wf A.
Proof. unfold symmetric. intros <-. apply mtrans_wf. Qed.

Lemma symmetric_mget A i j :
  symmetric A -> (i < nrows A)%nat -> (j < nrows A)%nat ->
  mget A i j = mget A j i.
Proof.
  intros E Hi Hj. pose proof (symmetric_square A E) as Hsq.
  unfold symmetric in E. rewrite <- E at 1. apply mget_mtrans; lia.
Qed.

Lemma symmetric_build n f :
  (forall i j, (i < n)%nat -> (j < n)%nat -> f i j = f j i) ->
  symmetric (build n n f).
Proof.
  intros E. unfold symmetric, mtrans. rewrite nrows_build, ncols_build.
  apply build_ext. intros i j Hi Hj. rewrite mget_build by lia. auto.
Qed.

Lemma meye_symmetric n : symmetric (meye n).
Proof.
  apply symmetric_build. intros i j _ _.
  rewrite (Nat.eqb_sym j i). reflexivity.
Qed.

(** ** NumPy operations on arrays of matching shapes *)

Lemma value_eqb_eq a b : value_eqb a b = true -> a = b.
Proof.
  destruct a as [k p|A], b as [k' q|B]; simpl; try discriminate.
  - rewrite andb_true_iff, !bool_decide_eq_true. intros [-> ->]. reflexivity.
  - intros E. apply mat_eqb_eq in E. congruence.
Qed.

Lemma bdim_same m : bdim m m = Some m.
Proof. unfold bdim. rewrite Nat.eqb_refl. reflexivity. Qed.

Lemma bcast_id m n A : has_shape m n A -> bcast m n A = A.
Proof.
  intros (Hr & Hc & WA). etransitivity; [|exact WA].
  unfold bcast. rewrite Hr, Hc. apply build_ext. intros i j Hi Hj.
  destruct (Nat.eqb_spec m 1), (Nat.eqb_spec n 1); f_equal; lia.
Qed.

Lemma elementwise_arr op m n A B :
  has_shape m n A -> has_shape m n B ->
  elementwise op (Arr A) (Arr B) = Val (Arr (mmap2 op A B)).
Proof.
  intros HA HB. pose proof HA as (Hr & Hc & _). pose proof HB as (Hr' & Hc' & _).
  unfold elementwise. rewrite Hr, Hr', Hc, Hc', !bdim_same.
  rewrite !bcast_id by assumption. reflexivity.
Qed.

Lemma np_add_arr m n A B :
  has_shape m n A -> has_shape m n B ->
  np_add (Arr A) (Arr B) = Val (Arr (madd A B)).
Proof. apply elementwise_arr. Qed.

Lemma np_sub_arr m n A B :
  has_shape m n A -> has_shape m n B ->
  np_sub (Arr A) (Arr B) = Val (Arr (msub A B)).
Proof. apply elementwise_arr. Qed.

Lemma dot_arr m n p A B :
  has_shape m n A -> has_shape n p B ->
  dot (Arr A) (Arr B) = Val (Arr (mmul A B)).
Proof.
  intros (_ & Hc & _) (Hr & _ & _). unfold dot.
  rewrite Hc, Hr, Nat.eqb_refl. reflexivity.
Qed.

Lemma dot3_arr m n p q A B C :
  has_shape m n A -> has_shape n p B -> has_shape p q C ->
  dot3 (Arr A) (Arr B) (Arr C) = Val (Arr (mmul A (mmul B C))).
Proof.
  intros HA HB HC. unfold dot3.
  rewrite (dot_arr n p q) by assumption.
  apply (dot_arr m n q); [assumption | eapply mmul_shape; eassumption].
Qed.

(** On arrays [dot3] does not depend on the order of the two products. *)
Lemma dot3_assoc m n p q A B C :
  has_shape m n A -> has_shape n p B -> has_shape p q C ->
  dot3 (Arr A) (Arr B) (Arr C) = Val (Arr (mmul (mmul A B) C)).
Proof.
  intros HA HB HC. rewrite (dot3_arr m n p q) by assumption.
  rewrite mmul_assoc; [reflexivity | |].
  - destruct HA as (_ & -> & _), HB as (-> & _ & _). reflexivity.
  - destruct HB as (_ & -> & _), HC as (-> & _ & _). reflexivity.
Qed.

Lemma inv_arr n A :
  has_shape n n A ->
  inv (Arr A) = match minv A with
                | Some B => Val (Arr B)
                | None => Raise LinAlgError
                end.
Proof.
  intros (Hr & Hc & _). unfold inv. rewrite Hr, Hc, Nat.eqb_refl.
  reflexivity.
Qed.

(** ** Running the methods *)

Arguments build : simpl never.
Arguments mmul : simpl never.
Arguments mmap2 : simpl never.
Arguments madd : simpl never.
Arguments msub : simpl never.
Arguments mscale : simpl never.
Arguments mtrans : simpl never.
Arguments meye : simpl never.
Arguments mzeros : simpl never.
Arguments minv : simpl never.
Arguments np_add : simpl never.
Arguments np_sub : simpl never.
Arguments np_mul : simpl never.
Arguments elementwise : simpl never.
Arguments dot : simpl never.
Arguments dot3 : simpl never.
Arguments T : simpl never.
Arguments inv : simpl never.
Arguments eye : simpl never.
Arguments zeros : simpl never.
Arguments zeros3 : simpl never.
Arguments setitem : simpl never.
Lemma shaped_arr m n A : has_shape m n A -> shaped m n (Arr A).
Proof. intros HA. split; [reflexivity | exact HA]. Qed.

Lemma shaped_inv m n v :
  shaped m n v -> exists A, v = Arr A /\ mat_of v = A /\ has_shape m n A.
Proof. intros [E HA]. exists (mat_of v). auto. Qed.

(** Unfold the monadic plumbing of a method body. *)
Ltac run := unfold mbind, M_bind, mret, M_ret, attr, assign, eval; simpl.

(** Name the matrix held by an attribute that the data model shapes. *)
Ltac name_shaped H A :=
  let E := fresh "E" A in
  let EM := fresh "EM" A in
  let S := fresh "S" A in
  apply shaped_inv in H; destruct H as (A & E & EM & S).

Lemma np_add_num_r m A k q :
  has_shape m 1 A ->
  np_add (Arr A) (Num k q) = Val (Arr (madd A (build m 1 (fun _ _ => q)))).
Proof.
  intros (Hr & Hc & _). unfold np_add, elementwise, madd, mmap2.
  do 2 f_equal. rewrite Hr, Hc. apply build_ext. intros i j Hi Hj.
  rewrite mget_build by lia. reflexivity.
Qed.

Lemma np_mul_num_l k a A : np_mul (Num k a) (Arr A) = Val (Arr (mscale a A)).
Proof. reflexivity. Qed.

Lemma T_arr A : T (Arr A) = Val (Arr (mtrans A)).
Proof. reflexivity. Qed.

Lemma control_term_dot s u c :
  control_term s u c ->
  exists v, dot (self_B s) u = Val v /\
    forall A, has_shape (dx s) 1 A -> np_add (Arr A) v = Val (Arr (madd A c)).
Proof.
  intros [k1 b k2 v EB | Bm um du EB SB Su | Bm k v EB SB]; rewrite EB.
  - eexists; split; [reflexivity|]. intros A HA. apply np_add_num_r, HA.
  - eexists; split; [apply (dot_arr (dx s) du 1); assumption|].
    intros A HA. apply (np_add_arr (dx s) 1); [assumption|].
    eapply mmul_shape; eassumption.
  - eexists; split; [reflexivity|].
    destruct SB as (-> & -> & _).
    intros A HA. apply (np_add_arr (dx s) 1); [assumption|].
    apply build_shape.
Qed.

Lemma predict_run s u c :
  filter_wf s -> control_term s u c ->
  predict u s = Ok tt (spec_predict s c).
Proof.
  intros [_ _ Hx HP HQ HF _ _ _] Hc.
  unfold spec_predict, predicted_P, predicted_x.
  name_shaped Hx xm. name_shaped HP Pm. name_shaped HQ Qm. name_shaped HF Fm.
  rewrite EMxm, EMPm, EMQm, EMFm. simpl.
  destruct (control_term_dot s u c Hc) as (bu & Ebu & Eadd).
  assert (SFx : has_shape (dx s) 1 (mmul Fm xm))
    by (eapply mmul_shape; eassumption).
  assert (SFT : has_shape (dx s) (dx s) (mtrans Fm)) by (apply mtrans_shape; assumption).
  unfold predict. run. rewrite EFm, Exm.
  rewrite (dot_arr (dx s) (dx s) 1) by assumption. simpl.
  rewrite Ebu; simpl. rewrite Eadd by assumption. simpl.
  rewrite EFm, T_arr; simpl. rewrite EPm, (dot3_arr (dx s) (dx s) (dx s) (dx s)) by assumption.
  rewrite np_mul_num_l; simpl. rewrite EQm.
  rewrite (np_add_arr (dx s) (dx s)); [reflexivity | | assumption].
  apply mscale_shape. eapply mmul_shape; [eassumption|]. eapply mmul_shape; eassumption.
Qed.

Lemma eye_nonneg n : (0 <= n)%Z -> eye n = Val (Arr (meye (Z.to_nat n))).
Proof. intros Hn. unfold eye. rewrite bool_decide_eq_true_2 by assumption. reflexivity. Qed.

Lemma zeros_nonneg m n :
  (0 <= m)%Z -> (0 <= n)%Z ->
  zeros m n = Val (Arr (mzeros (Z.to_nat m) (Z.to_nat n))).
Proof.
  intros Hm Hn. unfold zeros.
  rewrite !bool_decide_eq_true_2 by assumption. reflexivity.
Qed.

Lemma np_mul_eye_num n k r :
  np_mul (Arr (meye n)) (Num k r) = Val (Arr (mscale r (meye n))).
Proof.
  unfold np_mul, elementwise, mscale. do 2 f_equal.
  apply build_ext. intros; ring.
Qed.

Lemma resolved_R_shape s R Rm :
  filter_wf s -> resolved_R s R Rm -> has_shape (dz s) (dz s) Rm.
Proof.
  intros Hwf [ | k r | M HM].
  - apply (wf_R s Hwf).
  - apply mscale_shape, meye_shape.
  - exact HM.
Qed.

(** ** Symmetry is preserved by the operations of the covariance updates *)

Lemma bdim_not1_l r k m : bdim r k = Some m -> r <> 1%nat -> m = r.
Proof.
  unfold bdim. destruct (Nat.eqb_spec r k); [congruence|].
  destruct (Nat.eqb_spec r 1); [congruence|].
  destruct (Nat.eqb_spec k 1); congruence.
Qed.

Lemma bdim_not1_r r k m : bdim k r = Some m -> r <> 1%nat -> m = r.
Proof.
  unfold bdim. destruct (Nat.eqb_spec k r); [congruence|].
  destruct (Nat.eqb_spec k 1); [congruence|].
  destruct (Nat.eqb_spec r 1); congruence.
Qed.

Lemma symmetric_pointwise g A :
  symmetric A ->
  symmetric (build (nrows A) (ncols A) (fun i j => g (mget A i j))).
Proof.
  intros HA. rewrite <- (symmetric_square A HA).
  apply symmetric_build. intros i j Hi Hj. f_equal.
  apply symmetric_mget; assumption.
Qed.

Lemma bcast_symmetric_mget A m i j :
  symmetric A -> (nrows A <> 1%nat -> m = nrows A) ->
  (i < m)%nat -> (j < m)%nat ->
  mget (bcast m m A) i j = mget (bcast m m A) j i.
Proof.
  intros HA Hm Hi Hj. unfold bcast. rewrite !mget_build by assumption.
  rewrite <- (symmetric_square A HA).
  destruct (Nat.eqb_spec (nrows A) 1) as [E|E]; [reflexivity|].
  apply symmetric_mget; [assumption | rewrite <- (Hm E); assumption ..].
Qed.

Lemma elementwise_symmetric op a b c :
  sym_value a -> sym_value b -> elementwise op a b = Val c -> sym_value c.
Proof.
  destruct a as [k1 p|A], b as [k2 q|B]; unfold elementwise; simpl;
    intros Ha Hb.
  - intros [= <-]. exact Logic.I.
  - intros [= <-]. apply (symmetric_pointwise (op p)), Hb.
  - intros [= <-]. apply (symmetric_pointwise (fun a => op a q)), Ha.
  - pose proof (symmetric_square A Ha) as SA.
    pose proof (symmetric_square B Hb) as SB.
    rewrite <- SA, <- SB.
    destruct (bdim (nrows A) (nrows B)) as [m|] eqn:Em; [|discriminate].
    intros [= <-]. simpl. unfold mmap2. simpl.
    apply symmetric_build. intros i j Hi Hj.
    rewrite (bcast_symmetric_mget A m i j), (bcast_symmetric_mget B m i j);
      auto.
    + intros NB. eapply bdim_not1_r; eassumption.
    + intros NA. eapply bdim_not1_l; eassumption.
Qed.

Lemma sandwich_number_symmetric A q :
  symmetric (mmul A (mscale q (mtrans A))).
Proof.
  unfold mmul. rewrite ncols_mscale, ncols_mtrans.
  apply symmetric_build. intros i j Hi Hj.
  apply sumn_ext. intros k Hk.
  rewrite !mget_mscale, !mget_mtrans
    by (rewrite ?nrows_mtrans, ?ncols_mtrans; assumption).
  ring.
Qed.

(** [A·P·Aᵗ] is symmetric when [P] is. *)
Lemma sandwich_symmetric A P :
  symmetric P -> ncols A = nrows P ->
  symmetric (mmul A (mmul P (mtrans A))).
Proof.
  intros HP E. pose proof (symmetric_square P HP) as SP.
  unfold mmul at 1. rewrite ncols_mmul, ncols_mtrans.
  apply symmetric_build. intros i j Hi Hj.
  transitivity (sumn (ncols A) (fun k => sumn (ncols A) (fun l =>
                  mget A i k * mget P k l * mget A j l))).
  - apply sumn_ext. intros k Hk.
    rewrite mget_mmul by (rewrite ?ncols_mtrans; lia).
    rewrite <- SP, <- E, <- sumn_scal_l. apply sumn_ext. intros l Hl.
    rewrite mget_mtrans by lia. ring.
  - rewrite sumn_swap. apply sumn_ext. intros k Hk.
    rewrite mget_mmul by (rewrite ?ncols_mtrans; lia).
    rewrite <- SP, <- E, <- sumn_scal_l. apply sumn_ext. intros l Hl.
    rewrite mget_mtrans by lia.
    rewrite (symmetric_mget P l k) by (assumption || lia). ring.
Qed.

Lemma dot3_sandwich_symmetric a p at_ c :
  sym_value p -> T a = Val at_ -> dot3 a p at_ = Val c -> sym_value c.
Proof.
  intros Hp. destruct a as [[|] q|A]; simpl; [discriminate| |];
    intros [= <-]; unfold dot3, dot.
  - destruct p as [k r|Pm]; simpl.
    + intros [= <-]. exact Logic.I.
    + intros [= <-]. unfold mscale.
      apply (symmetric_pointwise (Qcmult q)).
      apply (symmetric_pointwise (fun a => a * q)), Hp.
  - destruct p as [k r|Pm]; simpl.
    + rewrite Nat.eqb_refl.
      intros [= <-]. apply sandwich_number_symmetric.
    + destruct (Nat.eqb_spec (ncols Pm) (ncols A)) as [E1|]; [|discriminate].
      simpl.
      destruct (Nat.eqb_spec (ncols A) (nrows Pm)) as [E2|]; [|discriminate].
      intros [= <-]. apply sandwich_symmetric; assumption.
Qed.

Lemma np_add_symmetric a b c :
  sym_value a -> sym_value b -> np_add a b = Val c -> sym_value c.
Proof. apply elementwise_symmetric. Qed.

Lemma np_mul_symmetric a b c :
  sym_value a -> sym_value b -> np_mul a b = Val c -> sym_value c.
Proof. apply elementwise_symmetric. Qed.

Lemma eye_symmetric n e : eye n = Val e -> sym_value e.
Proof.
  unfold eye. destruct (bool_decide _); [|discriminate].
  intros [= <-]. apply meye_symmetric.
Qed.

Lemma setitem_slot done slot todo A :
  has_shape (nrows slot) (ncols slot) A ->
  setitem (done ++ slot :: todo) (length done) (Arr A)
  = Val (done ++ A :: todo).
Proof.
  intros HA. unfold setitem.
  rewrite list_lookup_middle by reflexivity.
  pose proof HA as (-> & -> & _). unfold fits. rewrite !Nat.eqb_refl. simpl.
  rewrite bcast_id by assumption.
  rewrite <- (Nat.add_0_r (length done)), insert_app_r. reflexivity.
Qed.

Lemma zeros3_nonneg n p r :
  (0 <= p)%Z -> (0 <= r)%Z ->
  zeros3 n p r = Val (replicate n (mzeros (Z.to_nat p) (Z.to_nat r))).
Proof.
  intros Hp Hr. unfold zeros3.
  rewrite !bool_decide_eq_true_2 by assumption. reflexivity.
Qed.

Lemma setitem_val l i v l1 :
  setitem l i v = Val l1 ->
  exists slot, l !! i = Some slot /\
    l1 = <[i := stored (nrows slot) (ncols slot) v]> l.
Proof.
  unfold setitem. destruct (l !! i) as [slot|]; [|discriminate].
  destruct v as [k q|A]; simpl.
  - intros [= <-]. eauto.
  - destruct (fits _ _ && fits _ _); [|discriminate]. intros [= <-]. eauto.
Qed.

Lemma np_size0_val zs n : np_size0 zs = Val n -> n = length zs.
Proof.
  destruct zs as [|z rest]; simpl.
  - intros [= <-]. reflexivity.
  - destruct (forallb _ _); [|discriminate]. intros [= <-]. reflexivity.
Qed.

Lemma np_size0_raises zs e : np_size0 zs = Raise e -> e = ValueError.
Proof.
  destruct zs as [|z rest]; simpl; [discriminate|].
  destruct (forallb _ _); congruence.
Qed.

Lemma np_size0_homogeneous zs n : np_size0 zs = Val n -> homogeneous zs.
Proof.
  intros E. unfold homogeneous. rewrite E. f_equal.
  eapply np_size0_val, E.
Qed.

Lemma same_kind_refl a : same_kind a a = true.
Proof.
  destruct a as [[k v|A]|]; simpl; try reflexivity.
  rewrite !Nat.eqb_refl. reflexivity.
Qed.

Lemma same_kind_euclidean z a b :
  same_kind z a = true -> same_kind z b = true -> same_kind a b = true.
Proof.
  destruct z as [[kz vz|Z]|], a as [[ka va|A]|], b as [[kb vb|B]|]; simpl;
    try reflexivity; try discriminate.
  rewrite !andb_true_iff, !Nat.eqb_eq. intros [-> ->] [-> ->]. auto.
Qed.

(** [np.size(zs, 0)] accepts a list exactly when any two of its entries
    are of one kind. *)
Lemma homogeneous_iff zs :
  homogeneous zs <-> forall a b, In a zs -> In b zs -> same_kind a b = true.
Proof.
  unfold homogeneous. destruct zs as [|z rest]; simpl.
  - split; [intros _ a b [] | reflexivity].
  - destruct (forallb (same_kind z) rest) eqn:E.
    + split; [|reflexivity]. intros _ a b Ha Hb.
      rewrite forallb_forall in E.
      apply (same_kind_euclidean z).
      * destruct Ha as [<-|Ha]; [apply same_kind_refl | apply E, Ha].
      * destruct Hb as [<-|Hb]; [apply same_kind_refl | apply E, Hb].
    + split; [discriminate|]. intros H. exfalso.
      assert (E' : forallb (same_kind z) rest = true).
      { apply forallb_forall. intros b Hb. apply H; auto. }
      congruence.
Qed.

(** A part of an accepted list is accepted. *)
Lemma homogeneous_incl zs zs' :
  (forall a, In a zs' -> In a zs) -> homogeneous zs -> homogeneous zs'.
Proof.
  rewrite !homogeneous_iff. intros Hin H a b Ha Hb. apply H; auto.
Qed.

Lemma homogeneous_take n zs : homogeneous zs -> homogeneous (take n zs).
Proof.
  apply homogeneous_incl. intros a Ha.
  rewrite <- (take_drop n zs). apply in_or_app. left. exact Ha.
Qed.

Lemma homogeneous_app zs1 zs2 :
  homogeneous (zs1 ++ zs2) -> homogeneous zs1 /\ homogeneous zs2.
Proof.
  intros H. split; (eapply homogeneous_incl; [|exact H]);
    intros a Ha; apply in_or_app; auto.
Qed.

Lemma zeros3_val n p r l :
  zeros3 n p r = Val l ->
  (0 <= p)%Z /\ (0 <= r)%Z /\
  l = replicate n (mzeros (Z.to_nat p) (Z.to_nat r)).
Proof.
  unfold zeros3.
  destruct (bool_decide_reflect (0 <= p)%Z); [|discriminate].
  destruct (bool_decide_reflect (0 <= r)%Z); [|discriminate].
  intros [= <-]. auto.
Qed.

Lemma stored_shaped m n v : shaped m n v -> Arr (stored m n v) = v.
Proof.
  intros [E HS]. rewrite E at 2. destruct v as [k q|A]; [discriminate E|].
  simpl in *. rewrite bcast_id by exact HS. reflexivity.
Qed.

(** *** Numbers as operands, and the exceptions of the operations *)

Lemma dot_num_arr k p B : dot (Num k p) (Arr B) = Val (Arr (mscale p B)).
Proof. reflexivity. Qed.

Lemma dot_num_num k1 p k2 r : dot (Num k1 p) (Num k2 r) = Val (Num NpScalar (p * r)).
Proof. reflexivity. Qed.

Lemma dot_arr_num A k r :
  dot (Arr A) (Num k r)
  = Val (Arr (build (nrows A) (ncols A) (fun i j => mget A i j * r))).
Proof. reflexivity. Qed.

Lemma T_pynumber r : T (Num PyNumber r) = Raise AttributeError.
Proof. reflexivity. Qed.

(** A column added to an array of [n] columns is added to each of
    them. *)
Lemma np_add_column m n A B :
  has_shape m 1 A -> has_shape m n B ->
  np_add (Arr A) (Arr B)
  = Val (Arr (build m n (fun i j => mget A i 0 + mget B i j))).
Proof.
  intros (RA & CA & WA) SB. pose proof SB as (RB & CB & WB).
  unfold np_add, elementwise. rewrite RA, CA, RB, CB, bdim_same.
  assert (E : bdim 1 n = Some n).
  { unfold bdim. destruct (Nat.eqb_spec 1 n); [congruence | reflexivity]. }
  rewrite E. do 2 f_equal. unfold mmap2.
  rewrite (bcast_id m n B) by assumption.
  unfold bcast at 1 2. rewrite nrows_build, ncols_build.
  apply build_ext. intros i j Hi Hj.
  unfold bcast. rewrite mget_build by assumption. rewrite RA, CA. simpl.
  destruct (Nat.eqb_spec m 1); [|reflexivity].
  replace i with 0%nat by lia. reflexivity.
Qed.

Lemma elementwise_raises op a b e :
  elementwise op a b = Raise e -> e = ValueError.
Proof.
  destruct a as [k p|A], b as [k' r|B]; unfold elementwise;
    try discriminate.
  destruct (bdim _ _); [destruct (bdim _ _)|]; congruence.
Qed.

Lemma np_add_raises a b e : np_add a b = Raise e -> e = ValueError.
Proof. apply elementwise_raises. Qed.

Lemma np_sub_raises a b e : np_sub a b = Raise e -> e = ValueError.
Proof. apply elementwise_raises. Qed.

Lemma np_mul_raises a b e : np_mul a b = Raise e -> e = ValueError.
Proof. apply elementwise_raises. Qed.

Lemma dot_raises a b e : dot a b = Raise e -> e = ValueError.
Proof.
  destruct a as [k p|A], b as [k' r|B]; unfold dot; try discriminate.
  destruct (Nat.eqb _ _); congruence.
Qed.

Lemma dot3_raises a b c e : dot3 a b c = Raise e -> e = ValueError.
Proof.
  unfold dot3. destruct (dot b c) as [bc|e'] eqn:E.
  - apply dot_raises.
  - intros [= <-]. eapply dot_raises. exact E.
Qed.

Lemma T_raises a e : T a = Raise e -> e = AttributeError.
Proof. destruct a as [[|] r|A]; unfold T; congruence. Qed.

Lemma inv_raises a e :
  inv a = Raise e -> e = ValueError \/ e = LinAlgError.
Proof.
  destruct a as [k r|A]; unfold inv; [intros [= <-]; auto|].
  destruct (Nat.eqb _ _); [|intros [= <-]; auto].
  destruct (minv A); [discriminate | intros [= <-]; auto].
Qed.

Lemma eye_raises n e : eye n = Raise e -> e = ValueError.
Proof. unfold eye. destruct (bool_decide _); congruence. Qed.

Lemma zeros3_raises n p r e : zeros3 n p r = Raise e -> e = ValueError.
Proof. unfold zeros3. destruct (_ && _); congruence. Qed.

(** [zeros] does not look at the number of arrays. *)
Lemma zeros3_raises_any n n' p r e :
  zeros3 n p r = Raise e -> zeros3 n' p r = Raise e.
Proof. unfold zeros3. destruct (_ && _); congruence. Qed.

(** An assignment to a slot within the array raises only for a value
    that does not fit the slot. *)
Lemma setitem_raises l i v e :
  setitem l i v = Raise e -> (i < length l)%nat -> e = ValueError.
Proof.
  unfold setitem. intros E Hi.
  destruct (lookup_lt_is_Some_2 l i Hi) as [slot Hs]. rewrite Hs in E.
  destruct v as [k r|A]; [discriminate|].
  destruct (_ && _); congruence.
Qed.

(** The slots behind the one assigned play no role. *)
Lemma setitem_app_l l pad i v :
  (i < length l)%nat ->
  setitem (l ++ pad) i v
  = match setitem l i v with
    | Val l1 => Val (l1 ++ pad)
    | Raise e => Raise e
    end.
Proof.
  intros Hi. unfold setitem. rewrite lookup_app_l by assumption.
  destruct (l !! i) as [slot|]; [|reflexivity].
  destruct v as [k r|A].
  - rewrite insert_app_l by assumption. reflexivity.
  - destruct (_ && _); [|reflexivity].
    rewrite insert_app_l by assumption. reflexivity.
Qed.

(** The slots before the one assigned play no role either. *)
Lemma setitem_app_r pre l k i v :
  length pre = k ->
  setitem (pre ++ l) (k + i) v
  = match setitem l i v with
    | Val l1 => Val (pre ++ l1)
    | Raise e => Raise e
    end.
Proof.
  intros <-. unfold setitem. rewrite lookup_app_r by lia.
  replace (length pre + i - length pre)%nat with i by lia.
  destruct (l !! i) as [slot|]; [|reflexivity].
  destruct v as [k r|A].
  - rewrite insert_app_r. reflexivity.
  - destruct (_ && _); [|reflexivity].
    rewrite insert_app_r. reflexivity.
Qed.

Lemma setitem_length l i v l1 : setitem l i v = Val l1 -> length l1 = length l.
Proof.
  intros E. apply setitem_val in E as (slot & _ & ->).
  apply length_insert.
Qed.

(** A value with a number of columns other than that of the slot, and
    other than one, cannot be stored. *)
Lemma setitem_misfit l i slot A :
  l !! i = Some slot -> ncols A <> ncols slot -> ncols A <> 1%nat ->
  setitem l i (Arr A) = Raise ValueError.
Proof.
  intros Hs H1 H2. unfold setitem. rewrite Hs. unfold fits.
  destruct (Nat.eqb_spec (ncols A) (ncols slot)); [contradiction|].
  destruct (Nat.eqb_spec (ncols A) 1); [contradiction|].
  rewrite andb_false_r. reflexivity.
Qed.

Lemma zeros3_app n1 n2 p r :
  zeros3 (n1 + n2) p r
  = match zeros3 n1 p r, zeros3 n2 p r with
    | Val l1, Val l2 => Val (l1 ++ l2)
    | Raise e, _ => Raise e
    | _, Raise e => Raise e
    end.
Proof.
  unfold zeros3. destruct (_ && _); [|reflexivity].
  rewrite replicate_add. reflexivity.
Qed.

Lemma zeros3_negative n p r :
  ~ ((0 <= p)%Z /\ (0 <= r)%Z) -> zeros3 n p r = Raise ValueError.
Proof.
  intros H. unfold zeros3.
  destruct (bool_decide_reflect (0 <= p)%Z); [|reflexivity].
  destruct (bool_decide_reflect (0 <= r)%Z); [|reflexivity].
  tauto.
Qed.

(** A number added to an array is added to each of its entries. *)
Lemma np_add_arr_num A k r :
  np_add (Arr A) (Num k r)
  = Val (Arr (build (nrows A) (ncols A) (fun i j => mget A i j + r))).
Proof. reflexivity. Qed.

(** [dot3] with a number in the middle scales the last factor. *)
Lemma dot3_arr_num_arr m n p A k r C :
  has_shape m n A -> has_shape n p C ->
  dot3 (Arr A) (Num k r) (Arr C) = Val (Arr (mmul A (mscale r C))).
Proof.
  intros HA HC. unfold dot3. rewrite dot_num_arr.
  apply (dot_arr m n p); [assumption | apply mscale_shape; assumption].
Qed.

Opaque np_add np_sub np_mul dot dot3 T inv eye zeros zeros3 setitem.
(** The statements that resolve the argument [R] in [update]. *)
Lemma resolve_R_run s R Rm {A} (k : value -> M A) :
  filter_wf s -> resolved_R s R Rm ->
  ((match R with
    | None => attr self_R
    | Some R =>
        if isscalar R then
          dz ← attr self_dim_z; e ← eval (eye dz); eval (np_mul e R)
        else mret R
    end) ≫= k) s = k (Arr Rm) s.
Proof.
  intros Hwf [ | kd r | M HM]; run.
  - destruct (wf_R s Hwf) as [<- _]. reflexivity.
  - rewrite (eye_nonneg _ (Z.lt_le_incl _ _ (wf_dim_z s Hwf))). simpl.
    fold (dz s). rewrite np_mul_eye_num. reflexivity.
  - reflexivity.
Qed.

Lemma gj_step_shape m n c A B A' B' :
  has_shape m n B -> gj_step c A B = Some (A', B') -> has_shape m n B'.
Proof.
  intros (Hr & Hc & _). unfold gj_step.
  destruct (find_pivot _ _ _ _); [|discriminate].
  intros [= _ <-]. unfold eliminate, scale_row, swap_rows. simpl.
  rewrite Hr, Hc. apply build_shape.
Qed.

Lemma gauss_jordan_shape m n fuel : forall c A B B',
  has_shape m n B -> gauss_jordan A B c fuel = Some B' -> has_shape m n B'.
Proof.
  induction fuel as [|fuel IH]; simpl; intros c A B B' HB.
  - intros [= <-]. exact HB.
  - destruct (gj_step c A B) as [[A1 B1]|] eqn:E; [|discriminate].
    apply IH. eapply gj_step_shape; eassumption.
Qed.

Lemma minv_shape n A B :
  nrows A = n -> minv A = Some B -> has_shape n n B.
Proof.
  intros <-. unfold minv. apply gauss_jordan_shape, meye_shape.
Qed.

Lemma update_run s z R Rm :
  filter_wf s -> shaped (dz s) 1 z -> resolved_R s R Rm ->
  update (Some z) R s =
    match minv (innovation_cov s Rm) with
    | Some Si => Ok tt (spec_update s (mat_of z) Rm Si)
    | None => Err LinAlgError (set_y (Arr (innovation s (mat_of z))) s)
    end.
Proof.
  intros Hwf Hz HR.
  pose proof (resolved_R_shape s R Rm Hwf HR) as SR.
  unfold update. rewrite (resolve_R_run s R Rm) by assumption.
  destruct Hwf as [_ _ Hx HP _ _ HH _ HI].
  unfold spec_update, innovation, innovation_cov, gain, joseph.
  name_shaped Hx xm. name_shaped HP Pm. name_shaped HH Hm. name_shaped Hz zm.
  rewrite EMxm, EMPm, EMHm, EMzm. subst z. simpl.
  assert (SHT : has_shape (dx s) (dz s) (mtrans Hm)) by (apply mtrans_shape; assumption).
  assert (SHx : has_shape (dz s) 1 (mmul Hm xm)) by (eapply mmul_shape; eassumption).
  assert (SS : has_shape (dz s) (dz s) (madd (mmul Hm (mmul Pm (mtrans Hm))) Rm)).
  { apply mmap2_shape. eapply mmul_shape; [eassumption|]. eapply mmul_shape; eassumption. }
  run. rewrite EHm, Exm, (dot_arr (dz s) (dx s) 1) by assumption. simpl.
  rewrite (np_sub_arr (dz s) 1) by assumption. simpl.
  rewrite T_arr. simpl.
  rewrite EPm, (dot3_arr (dz s) (dx s) (dx s) (dz s)) by assumption. simpl.
  rewrite (np_add_arr (dz s) (dz s));
    [| eapply mmul_shape; [eassumption|]; eapply mmul_shape; eassumption | assumption].
  simpl. rewrite (inv_arr (dz s)) by assumption.
  destruct (minv _) as [Si|] eqn:Einv; simpl; [|reflexivity].
  assert (SSi : has_shape (dz s) (dz s) Si)
    by (eapply minv_shape; [exact (proj1 SS) | eassumption]).
  assert (SK : has_shape (dx s) (dz s) (mmul Pm (mmul (mtrans Hm) Si))).
  { eapply mmul_shape; [eassumption|]. eapply mmul_shape; eassumption. }
  rewrite (dot3_arr (dx s) (dx s) (dz s) (dz s)) by assumption. simpl.
  assert (Sy : has_shape (dz s) 1 (msub zm (mmul Hm xm))) by (apply mmap2_shape; assumption).
  rewrite (dot_arr (dx s) (dz s) 1) by assumption. simpl.
  rewrite (np_add_arr (dx s) 1); [| assumption | eapply mmul_shape; eassumption].
  simpl. rewrite HI, (dot_arr (dx s) (dz s) (dx s)) by assumption. simpl.
  assert (SKH : has_shape (dx s) (dx s) (mmul (mmul Pm (mmul (mtrans Hm) Si)) Hm))
    by (eapply mmul_shape; eassumption).
  rewrite (np_sub_arr (dx s) (dx s)); [| apply meye_shape | assumption].
  simpl. rewrite T_arr. simpl.
  set (IKH := msub (meye (dx s)) _).
  assert (SIKH : has_shape (dx s) (dx s) IKH) by (apply mmap2_shape, meye_shape).
  rewrite (dot3_arr (dx s) (dx s) (dx s) (dx s));
    [| assumption | assumption | apply mtrans_shape; assumption ].
  simpl. rewrite T_arr. simpl.
  rewrite (dot3_arr (dx s) (dz s) (dz s) (dx s));
    [| assumption | assumption | apply mtrans_shape; assumption ].
  simpl. rewrite (np_add_arr (dx s) (dx s)); [reflexivity | |].
  - eapply mmul_shape; [eassumption|]. eapply mmul_shape; [eassumption|].
    apply mtrans_shape; assumption.
  - eapply mmul_shape; [eassumption|]. eapply mmul_shape; [eassumption|].
    apply mtrans_shape; assumption.
Qed.

(** [predict(u)] with a number [u = v] on a filter whose control matrix
    has [du] columns: [B·v] has [du] columns, and the sum with the
    column [F·x] is taken column by column. *)
Lemma predict_run_number s Bm du k v :
  filter_wf s -> self_B s = Arr Bm -> has_shape (dx s) du Bm ->
  predict (Num k v) s
  = Ok tt
      (set_P (Arr (predicted_P s))
         (set_x (Arr (build (dx s) du (fun i j =>
                        mget (mmul (mat_of (self_F s)) (mat_of (self_x s))) i 0
                        + mget Bm i j * v))) s)).
Proof.
  intros [Hdx Hdz Hx HP HQ HF HH HR HI] EB SB. unfold predicted_P.
  name_shaped Hx xm. name_shaped HP Pm. name_shaped HQ Qm. name_shaped HF Fm.
  rewrite EMxm, EMPm, EMQm, EMFm.
  assert (SFx : has_shape (dx s) 1 (mmul Fm xm))
    by (eapply mmul_shape; eassumption).
  pose proof SB as (RB & CB & _).
  unfold predict. run. rewrite EFm, Exm.
  rewrite (dot_arr (dx s) (dx s) 1) by assumption. simpl.
  rewrite EB, dot_arr_num. simpl.
  rewrite (np_add_column (dx s) du);
    [| assumption | rewrite RB, CB; apply build_shape].
  simpl. rewrite EFm, T_arr. simpl. rewrite EPm.
  rewrite (dot3_arr (dx s) (dx s) (dx s) (dx s));
    [| assumption | assumption | apply mtrans_shape; assumption].
  rewrite np_mul_num_l. simpl. rewrite EQm.
  rewrite (np_add_arr (dx s) (dx s));
    [| apply mscale_shape; eapply mmul_shape; [eassumption|];
       eapply mmul_shape; [eassumption|]; apply mtrans_shape; assumption
     | assumption].
  do 4 f_equal. rewrite RB, CB.
  apply build_ext. intros i j Hi Hj.
  rewrite mget_build by assumption. reflexivity.
Qed.

Lemma update_none R s : update None R s = Ok tt s.
Proof. reflexivity. Qed.

(** ** Gauss-Jordan elimination computes the inverse *)

Lemma find_pivot_spec A c fuel : forall r k,
  find_pivot A c r fuel = Some k ->
  (r <= k < r + fuel)%nat /\ mget A k c <> 0.
Proof.
  induction fuel as [|fuel IH]; intros r k; simpl; [discriminate|].
  destruct (bool_decide_reflect (mget A r c = 0)) as [E|E].
  - intros H. apply IH in H as [H1 H2]. split; [lia | assumption].
  - intros [= <-]. split; [lia | assumption].
Qed.

Lemma mget_swap_rows r c A i j :
  (i < nrows A)%nat -> (j < ncols A)%nat ->
  mget (swap_rows r c A) i j
  = mget A (if Nat.eqb i c then r else if Nat.eqb i r then c else i) j.
Proof. intros. unfold swap_rows. rewrite mget_build; auto. Qed.

Lemma mget_scale_row c p A i j :
  (i < nrows A)%nat -> (j < ncols A)%nat ->
  mget (scale_row c p A) i j
  = if Nat.eqb i c then mget A i j / p else mget A i j.
Proof. intros. unfold scale_row. rewrite mget_build; auto. Qed.

Lemma mget_eliminate c A B i j :
  (i < nrows B)%nat -> (j < ncols B)%nat ->
  mget (eliminate c A B) i j
  = if Nat.eqb i c then mget B i j
    else mget B i j - mget A i c * mget B c j.
Proof. intros. unfold eliminate. rewrite mget_build; auto. Qed.

Lemma gj_inv_init n A0 : has_shape n n A0 -> gj_inv n A0 0 A0 (meye n).
Proof.
  intros HA. split; [assumption|]. split; [apply meye_shape|]. split.
  - intros i j Hi Hj. rewrite (sumn_single n i); [| lia |].
    + rewrite mget_meye, Nat.eqb_refl by lia. ring.
    + intros k Hk Hne. rewrite mget_meye by lia.
      destruct (Nat.eqb_spec i k); [lia | ring].
  - intros i j _ Hj. lia.
Qed.

Lemma gj_step_inv n A0 c A B A' B' :
  (c < n)%nat -> gj_inv n A0 c A B -> gj_step c A B = Some (A', B') ->
  gj_inv n A0 (S c) A' B'.
Proof.
  intros Hc (SA & SB & I2 & I3). unfold gj_step.
  pose proof SA as (RA & CA & _). pose proof SB as (RB & CB & _).
  destruct (find_pivot A c c (nrows A - c)) as [r|] eqn:Ep; [|discriminate].
  apply find_pivot_spec in Ep as [Hr Hp]. rewrite RA in Hr.
  intros [= <- <-].
  set (sg := fun i => if Nat.eqb i c then r else if Nat.eqb i r then c else i).
  assert (Hsg : forall i, (i < n)%nat -> (sg i < n)%nat).
  { intros i Hi. unfold sg. destruct (Nat.eqb i c), (Nat.eqb i r); lia. }
  set (A1 := swap_rows r c A). set (B1 := swap_rows r c B).
  assert (SA1 : has_shape n n A1)
    by (unfold A1, swap_rows; rewrite RA, CA; apply build_shape).
  assert (SB1 : has_shape n n B1)
    by (unfold B1, swap_rows; rewrite RB, CB; apply build_shape).
  pose proof SA1 as (RA1 & CA1 & _). pose proof SB1 as (RB1 & CB1 & _).
  assert (EA1 : forall i j, (i < n)%nat -> (j < n)%nat ->
                            mget A1 i j = mget A (sg i) j).
  { intros i j Hi Hj. unfold A1. rewrite mget_swap_rows by lia. reflexivity. }
  assert (EB1 : forall i j, (i < n)%nat -> (j < n)%nat ->
                            mget B1 i j = mget B (sg i) j).
  { intros i j Hi Hj. unfold B1. rewrite mget_swap_rows by lia. reflexivity. }
  set (p := mget A1 c c).
  assert (Hp1 : p <> 0).
  { unfold p. rewrite EA1 by lia. unfold sg. rewrite Nat.eqb_refl. exact Hp. }
  set (A2 := scale_row c p A1). set (B2 := scale_row c p B1).
  assert (SA2 : has_shape n n A2)
    by (unfold A2, scale_row; rewrite RA1, CA1; apply build_shape).
  assert (SB2 : has_shape n n B2)
    by (unfold B2, scale_row; rewrite RB1, CB1; apply build_shape).
  pose proof SA2 as (RA2 & CA2 & _). pose proof SB2 as (RB2 & CB2 & _).
  assert (EA2 : forall i j, (i < n)%nat -> (j < n)%nat ->
            mget A2 i j = if Nat.eqb i c then mget A1 i j / p else mget A1 i j).
  { intros i j Hi Hj. unfold A2. rewrite mget_scale_row by lia. reflexivity. }
  assert (EB2 : forall i j, (i < n)%nat -> (j < n)%nat ->
            mget B2 i j = if Nat.eqb i c then mget B1 i j / p else mget B1 i j).
  { intros i j Hi Hj. unfold B2. rewrite mget_scale_row by lia. reflexivity. }
  (* the products after each row operation *)
  assert (F1 : forall i j, (i < n)%nat -> (j < n)%nat ->
            sumn n (fun k => mget B1 i k * mget A0 k j) = mget A1 i j).
  { intros i j Hi Hj. rewrite EA1, <- I2 by auto.
    apply sumn_ext. intros k Hk. rewrite EB1 by lia. reflexivity. }
  assert (F2 : forall i j, (i < n)%nat -> (j < n)%nat ->
            sumn n (fun k => mget B2 i k * mget A0 k j) = mget A2 i j).
  { intros i j Hi Hj. rewrite EA2 by lia.
    destruct (Nat.eqb_spec i c) as [->|Hic].
    - rewrite <- F1 by lia. unfold Qcdiv. rewrite <- sumn_scal_r.
      apply sumn_ext. intros k Hk. rewrite EB2, Nat.eqb_refl by lia.
      unfold Qcdiv. ring.
    - rewrite <- F1 by lia. apply sumn_ext. intros k Hk.
      rewrite EB2 by lia. destruct (Nat.eqb_spec i c); [lia|reflexivity]. }
  (* the columns before [c] after each row operation *)
  assert (G1 : forall i j, (i < n)%nat -> (j < c)%nat ->
            mget A1 i j = if Nat.eqb i j then 1 else 0).
  { intros i j Hi Hj. rewrite EA1, I3 by (auto; lia). unfold sg.
    destruct (Nat.eqb_spec i c) as [->|Hic].
    - destruct (Nat.eqb_spec r j), (Nat.eqb_spec c j); try lia. reflexivity.
    - destruct (Nat.eqb_spec i r) as [->|Hir]; [|reflexivity].
      destruct (Nat.eqb_spec c j), (Nat.eqb_spec r j); try lia. reflexivity. }
  assert (G2 : forall i j, (i < n)%nat -> (j < c)%nat ->
            mget A2 i j = if Nat.eqb i j then 1 else 0).
  { intros i j Hi Hj. rewrite EA2, G1 by lia.
    destruct (Nat.eqb_spec i c) as [->|Hic]; [|reflexivity].
    destruct (Nat.eqb_spec c j); [lia|]. unfold Qcdiv. ring. }
  assert (G2c : mget A2 c c = 1).
  { rewrite EA2, Nat.eqb_refl by lia. fold p. field. exact Hp1. }
  split; [unfold eliminate; rewrite RA2, CA2; apply build_shape|].
  split; [unfold eliminate; rewrite RB2, CB2; apply build_shape|].
  split.
  - intros i j Hi Hj. rewrite (mget_eliminate c A2 A2) by lia.
    destruct (Nat.eqb_spec i c) as [->|Hic].
    + rewrite <- F2 by lia. apply sumn_ext. intros k Hk.
      rewrite mget_eliminate, Nat.eqb_refl by lia. reflexivity.
    + rewrite <- (F2 i j), <- (F2 c j) by lia.
      rewrite <- sumn_scal_l, <- sumn_minus. apply sumn_ext. intros k Hk.
      rewrite mget_eliminate by lia.
      destruct (Nat.eqb_spec i c); [lia|]. ring.
  - intros i j Hi Hj. rewrite (mget_eliminate c A2 A2) by lia.
    destruct (Nat.eqb_spec j c) as [->|Hjc].
    + destruct (Nat.eqb_spec i c) as [->|Hic]; [exact G2c|].
      rewrite G2c. ring.
    + assert (Hj' : (j < c)%nat) by lia.
      rewrite (G2 i j), (G2 c j) by lia.
      destruct (Nat.eqb_spec i c) as [->|Hic]; [reflexivity|].
      destruct (Nat.eqb_spec c j); [lia|]. ring.
Qed.

Lemma gauss_jordan_inv n A0 fuel : forall c A B B',
  (c + fuel = n)%nat -> gj_inv n A0 c A B ->
  gauss_jordan A B c fuel = Some B' ->
  exists A', gj_inv n A0 n A' B'.
Proof.
  induction fuel as [|fuel IH]; intros c A B B' Hc HI; simpl.
  - intros [= <-]. exists A. assert (c = n) as -> by lia. exact HI.
  - destruct (gj_step c A B) as [[A1 B1]|] eqn:E; [|discriminate].
    apply IH; [lia|]. eapply gj_step_inv; [| exact HI | exact E]. lia.
Qed.

(** The matrix that [minv] returns is a left inverse. *)
Lemma minv_left_inverse n A B :
  has_shape n n A -> minv A = Some B -> mmul B A = meye n.
Proof.
  intros HA E. pose proof HA as (RA & CA & _). unfold minv in E.
  rewrite RA in E.
  destruct (gauss_jordan_inv n A n 0 A (meye n) B eq_refl
              (gj_inv_init n A HA) E) as (A' & SA' & SB & I2 & I3).
  pose proof SB as (RB & CB & _).
  unfold mmul, meye. rewrite RB, CA, CB. apply build_ext.
  intros i j Hi Hj. rewrite I2, I3 by assumption. reflexivity.
Qed.

(** A product of square arrays is the identity when its entries are. *)
Lemma mmul_meye_iff n C B :
  has_shape n n C -> has_shape n n B ->
  (mmul C B = meye n <->
   forall i j, (i < n)%nat -> (j < n)%nat ->
     sumn n (fun k => mget C i k * mget B k j) = if Nat.eqb i j then 1 else 0).
Proof.
  intros (RC & CC & _) (RB & CB & _). split.
  - intros E i j Hi Hj. rewrite <- CC, <- mget_mmul by lia.
    rewrite E. apply mget_meye; assumption.
  - intros E. unfold mmul, meye. rewrite RC, CB, CC.
    apply build_ext. exact E.
Qed.

Lemma swap_rows_left_invertible n r c B :
  (r < n)%nat -> (c < n)%nat -> has_shape n n B ->
  left_invertible n B -> left_invertible n (swap_rows r c B).
Proof.
  intros Hr Hc SB (C & SC & E). pose proof SB as (RB & CB & _).
  assert (SB' : has_shape n n (swap_rows r c B))
    by (unfold swap_rows; rewrite RB, CB; apply build_shape).
  rewrite (mmul_meye_iff n C B) in E by assumption.
  exists (build n n (fun i k =>
            mget C i (if Nat.eqb k c then r else if Nat.eqb k r then c else k))).
  split; [apply build_shape|].
  apply mmul_meye_iff; [apply build_shape | assumption |].
  intros i j Hi Hj. rewrite <- E by assumption.
  rewrite <- (sumn_exchange n r c (fun k => mget C i k * mget B k j))
    by assumption.
  apply sumn_ext. intros k Hk.
  rewrite mget_build, mget_swap_rows by lia. reflexivity.
Qed.

Lemma scale_row_left_invertible n c p B :
  p <> 0 -> has_shape n n B ->
  left_invertible n B -> left_invertible n (scale_row c p B).
Proof.
  intros Hp SB (C & SC & E). pose proof SB as (RB & CB & _).
  assert (SB' : has_shape n n (scale_row c p B))
    by (unfold scale_row; rewrite RB, CB; apply build_shape).
  rewrite (mmul_meye_iff n C B) in E by assumption.
  exists (build n n (fun i k =>
            if Nat.eqb k c then mget C i k * p else mget C i k)).
  split; [apply build_shape|].
  apply mmul_meye_iff; [apply build_shape | assumption |].
  intros i j Hi Hj. rewrite <- E by assumption.
  apply sumn_ext. intros k Hk.
  rewrite mget_build, mget_scale_row by lia.
  destruct (Nat.eqb_spec k c); [field; exact Hp | reflexivity].
Qed.

Lemma eliminate_left_invertible n c A B :
  (c < n)%nat -> has_shape n n B ->
  left_invertible n B -> left_invertible n (eliminate c A B).
Proof.
  intros Hc SB (C & SC & E). pose proof SB as (RB & CB & _).
  assert (SB' : has_shape n n (eliminate c A B))
    by (unfold eliminate; rewrite RB, CB; apply build_shape).
  rewrite (mmul_meye_iff n C B) in E by assumption.
  exists (build n n (fun i k =>
            if Nat.eqb k c
            then mget C i c
                 + sumn n (fun l => if Nat.eqb l c then 0
                                    else mget A l c * mget C i l)
            else mget C i k)).
  split; [apply build_shape|].
  apply mmul_meye_iff; [apply build_shape | assumption |].
  intros i j Hi Hj. rewrite <- E by assumption.
  rewrite (sumn_split n c) by assumption.
  rewrite (sumn_split n c (fun k => mget C i k * mget B k j)) by assumption.
  rewrite mget_build, mget_eliminate, Nat.eqb_refl by lia.
  rewrite (sumn_ext n
    (fun k => if Nat.eqb k c then 0
              else mget (build n n (fun i0 k0 =>
                      if Nat.eqb k0 c
                      then mget C i0 c
                           + sumn n (fun l => if Nat.eqb l c then 0
                                              else mget A l c * mget C i0 l)
                      else mget C i0 k0)) i k
                   * mget (eliminate c A B) k j)
    (fun k => (if Nat.eqb k c then 0 else mget C i k * mget B k j)
              - (if Nat.eqb k c then 0 else mget A k c * mget C i k)
                * mget B c j)).
  - rewrite sumn_minus, sumn_scal_r. ring.
  - intros k Hk. rewrite mget_build, mget_eliminate by lia.
    destruct (Nat.eqb_spec k c); ring.
Qed.

Lemma gj_step_left_invertible n c A B A' B' :
  (c < n)%nat -> has_shape n n A -> has_shape n n B ->
  left_invertible n B -> gj_step c A B = Some (A', B') ->
  has_shape n n A' /\ has_shape n n B' /\ left_invertible n B'.
Proof.
  intros Hc SA SB LB. unfold gj_step.
  pose proof SA as (RA & CA & _). pose proof SB as (RB & CB & _).
  destruct (find_pivot A c c (nrows A - c)) as [r|] eqn:Ep; [|discriminate].
  apply find_pivot_spec in Ep as [Hr Hp]. rewrite RA in Hr.
  intros [= <- <-].
  assert (SA1 : has_shape n n (swap_rows r c A))
    by (unfold swap_rows; rewrite RA, CA; apply build_shape).
  assert (SB1 : has_shape n n (swap_rows r c B))
    by (unfold swap_rows; rewrite RB, CB; apply build_shape).
  pose proof SA1 as (RA1 & CA1 & _). pose proof SB1 as (RB1 & CB1 & _).
  set (p := mget (swap_rows r c A) c c).
  assert (Hp1 : p <> 0).
  { unfold p. rewrite mget_swap_rows, Nat.eqb_refl by lia. exact Hp. }
  assert (SA2 : has_shape n n (scale_row c p (swap_rows r c A)))
    by (unfold scale_row; rewrite RA1, CA1; apply build_shape).
  assert (SB2 : has_shape n n (scale_row c p (swap_rows r c B)))
    by (unfold scale_row; rewrite RB1, CB1; apply build_shape).
  pose proof SA2 as (RA2 & CA2 & _). pose proof SB2 as (RB2 & CB2 & _).
  split; [unfold eliminate; rewrite RA2, CA2; apply build_shape|].
  split; [unfold eliminate; rewrite RB2, CB2; apply build_shape|].
  apply eliminate_left_invertible; [assumption | assumption |].
  apply scale_row_left_invertible; [assumption | assumption |].
  apply swap_rows_left_invertible; (assumption || lia).
Qed.

Lemma gauss_jordan_left_invertible n fuel : forall c A B B',
  (c + fuel = n)%nat -> has_shape n n A -> has_shape n n B ->
  left_invertible n B -> gauss_jordan A B c fuel = Some B' ->
  left_invertible n B'.
Proof.
  induction fuel as [|fuel IH]; intros c A B B' Hc SA SB LB; simpl.
  - intros [= <-]. exact LB.
  - destruct (gj_step c A B) as [[A1 B1]|] eqn:E; [|discriminate].
    destruct (gj_step_left_invertible n c A B A1 B1) as (SA1 & SB1 & LB1);
      try assumption; [lia|].
    apply IH; (assumption || lia).
Qed.

(** [linalg.inv]: the matrix that [minv] returns is the inverse. *)
Lemma minv_inverse n A B :
  has_shape n n A -> minv A = Some B ->
  mmul B A = meye n /\ mmul A B = meye n.
Proof.
  intros SA E. pose proof (minv_left_inverse n A B SA E) as EL.
  split; [exact EL|].
  pose proof SA as (RA & CA & _).
  pose proof (minv_shape n A B RA E) as SB. pose proof SB as (RB & CB & _).
  assert (LB : left_invertible n B).
  { unfold minv in E. rewrite RA in E.
    apply (gauss_jordan_left_invertible n n 0 A (meye n) B);
      [reflexivity | assumption | apply meye_shape | | assumption].
    exists (meye n). split; [apply meye_shape|].
    apply mmul_meye_l. split; [reflexivity|].
    split; [reflexivity | apply build_wf]. }
  destruct LB as (C & SC & EC). pose proof SC as (RC & CC & _).
  assert (C = A) as ->; [|exact EC].
  rewrite <- (mmul_meye_r n n C SC), <- EL.
  rewrite mmul_assoc by congruence.
  rewrite EC. apply mmul_meye_l. rewrite CA. exact SA.
Qed.

(** *** A failing elimination means a singular matrix *)

Lemma find_pivot_none A c fuel : forall r,
  find_pivot A c r fuel = None ->
  forall k, (r <= k < r + fuel)%nat -> mget A k c = 0.
Proof.
  induction fuel as [|fuel IH]; intros r E k Hk; [lia|]. simpl in E.
  destruct (bool_decide_reflect (mget A r c = 0)) as [E0|E0];
    [|discriminate].
  destruct (Nat.eq_dec k r) as [->|Hne]; [exact E0|].
  apply (IH (S r) E). lia.
Qed.

Lemma gauss_jordan_none n A0 fuel : forall c A B,
  (c + fuel = n)%nat -> gj_inv n A0 c A B -> left_invertible n B ->
  gauss_jordan A B c fuel = None ->
  exists c' A' B',
    (c' < n)%nat /\ gj_inv n A0 c' A' B' /\ left_invertible n B' /\
    find_pivot A' c' c' (n - c') = None.
Proof.
  induction fuel as [|fuel IH]; intros c A B Hc HI LB; simpl;
    [discriminate|].
  pose proof HI as (SA & SB & _).
  destruct (gj_step c A B) as [[A1 B1]|] eqn:E.
  - intros EN.
    destruct (gj_step_left_invertible n c A B A1 B1) as (_ & _ & LB1);
      try assumption; [lia|].
    apply (IH (S c) A1 B1); try assumption; [lia|].
    eapply gj_step_inv; [| exact HI | exact E]. lia.
  - intros _. exists c, A, B.
    split; [lia|]. split; [assumption|]. split; [assumption|].
    unfold gj_step in E. destruct SA as (RA & _). rewrite RA in E.
    destruct (find_pivot A c c (n - c)); [discriminate | reflexivity].
Qed.

Lemma mmul_mzeros_r m n p A :
  has_shape m n A -> mmul A (mzeros n p) = mzeros m p.
Proof.
  intros (Hr & Hc & _). unfold mmul, mzeros at 2.
  rewrite Hr. change (ncols (mzeros n p)) with p.
  apply build_ext. intros i j Hi Hj. apply sumn_zero. intros k Hk.
  unfold mzeros. rewrite Hc in Hk. rewrite mget_build by lia. ring.
Qed.

(** When no pivot is left in column [c], a combination of the columns
    up to [c] vanishes, so the matrix has no left inverse. *)
Lemma stuck_singular n A0 c A B :
  (c < n)%nat -> has_shape n n A0 -> gj_inv n A0 c A B ->
  left_invertible n B ->
  (forall k, (c <= k < n)%nat -> mget A k c = 0) ->
  ~ left_invertible n A0.
Proof.
  intros Hc SA0 (SA & SB & I2 & I3) (C & SC & EC) Hz (X & SX & EX).
  pose proof SA as (RA & CA & WA). pose proof SB as (RB & CB & _).
  pose proof SA0 as (RA0 & CA0 & _). pose proof SC as (RC & CC & _).
  pose proof SX as (RX & CX & _).
  assert (EA : mmul B A0 = A).
  { apply mat_ext; [apply mmul_wf | assumption | | |].
    - rewrite nrows_mmul. congruence.
    - rewrite ncols_mmul. congruence.
    - intros i j Hi Hj. rewrite nrows_mmul in Hi. rewrite ncols_mmul in Hj.
      rewrite mget_mmul by lia. rewrite CB. apply I2; lia. }
  set (v := build n 1 (fun j _ =>
              if Nat.ltb j c then - mget A j c
              else if Nat.eqb j c then 1 else 0)).
  assert (Sv : has_shape n 1 v) by apply build_shape.
  assert (EAv : mmul A v = mzeros n 1).
  { unfold mmul, mzeros. rewrite RA, CA. change (ncols v) with 1%nat.
    apply build_ext. intros i j Hi Hj.
    rewrite (sumn_split n c) by assumption.
    unfold v at 1. rewrite mget_build by lia.
    rewrite Nat.ltb_irrefl, Nat.eqb_refl.
    destruct (Nat.lt_ge_cases i c) as [Hic|Hic].
    - rewrite (sumn_single n i); [| lia |].
      + unfold v. rewrite mget_build by lia.
        destruct (Nat.eqb_spec i c); [lia|].
        destruct (Nat.ltb_spec i c); [|lia].
        rewrite (I3 i i), Nat.eqb_refl by lia. ring.
      + intros k Hk Hne. destruct (Nat.eqb_spec k c); [reflexivity|].
        unfold v. rewrite mget_build by lia.
        destruct (Nat.ltb_spec k c).
        * rewrite (I3 i k) by lia. destruct (Nat.eqb_spec i k); [lia | ring].
        * destruct (Nat.eqb_spec k c); [lia | ring].
    - rewrite (Hz i) by lia. rewrite sumn_zero; [ring|].
      intros k Hk. destruct (Nat.eqb_spec k c); [reflexivity|].
      unfold v. rewrite mget_build by lia.
      destruct (Nat.ltb_spec k c).
      + rewrite (I3 i k) by lia. destruct (Nat.eqb_spec i k); [lia | ring].
      + destruct (Nat.eqb_spec k c); [lia | ring]. }
  assert (SA0v : has_shape n 1 (mmul A0 v))
    by (eapply mmul_shape; eassumption).
  assert (EA0v : mmul A0 v = mzeros n 1).
  { rewrite <- (mmul_meye_l n (mmul A0 v)) by exact SA0v.
    rewrite <- EC, <- (mmul_assoc C B) by (rewrite ?nrows_mmul; congruence).
    rewrite (mmul_assoc B A0 v) by (change (nrows v) with n; congruence).
    rewrite EA, EAv. apply (mmul_mzeros_r n n 1). exact SC. }
  assert (Ev : v = mzeros n 1).
  { rewrite <- (mmul_meye_l n v) by exact Sv.
    rewrite <- EX, <- mmul_assoc by (change (nrows v) with n; congruence).
    rewrite EA0v. apply (mmul_mzeros_r n n 1). exact SX. }
  assert (E1 : mget v c 0 = 1).
  { unfold v. rewrite mget_build by lia.
    rewrite Nat.ltb_irrefl, Nat.eqb_refl. reflexivity. }
  rewrite Ev in E1. unfold mzeros in E1. rewrite mget_build in E1 by lia.
  discriminate E1.
Qed.

(** [linalg.inv] raises only on a singular matrix. *)
Lemma minv_none_singular n A :
  has_shape n n A -> minv A = None -> ~ left_invertible n A.
Proof.
  intros SA E. pose proof SA as (RA & _). unfold minv in E. rewrite RA in E.
  destruct (gauss_jordan_none n A n 0 A (meye n)) as
    (c & A' & B' & Hc & HI & LB & Ep); try assumption.
  - reflexivity.
  - apply gj_inv_init; assumption.
  - exists (meye n). split; [apply meye_shape|].
    apply mmul_meye_l. split; [reflexivity|].
    split; [reflexivity | apply build_wf].
  - apply (stuck_singular n A c A' B'); try assumption.
    intros k Hk. apply (find_pivot_none A' c (n - c) c Ep). lia.
Qed.

(** An inverse is unique: any left inverse of [A] is the matrix that
    [minv] returns. *)
Lemma minv_unique n A Si :
  has_shape n n A -> has_shape n n Si -> mmul Si A = meye n ->
  minv A = Some Si.
Proof.
  intros SA SSi E. pose proof SA as (RA & CA & _).
  pose proof SSi as (RS & CS & _).
  destruct (minv A) as [B|] eqn:EB.
  - destruct (minv_inverse n A B SA EB) as [_ ER].
    pose proof (minv_shape n A B RA EB) as SB.
    pose proof SB as (RB & CB & _).
    f_equal. rewrite <- (mmul_meye_l n B), <- E by (rewrite CB; exact SB).
    rewrite <- mmul_assoc by congruence.
    rewrite ER. apply (mmul_meye_r n n). exact SSi.
  - exfalso. apply (minv_none_singular n A SA EB).
    exists Si. split; assumption.
Qed.

(** ** The queries *)

(** [get_prediction] computes what [predict] assigns. *)
Lemma get_prediction_predict u s :
  get_prediction u s =
    match predict u s with
    | Ok _ s' => Ok (self_x s', self_P s') s
    | Err e _ => Err e s
    end.
Proof.
  unfold get_prediction, predict. run.
  destruct (dot (self_F s) (self_x s)) as [Fx|e]; simpl; [|reflexivity].
  destruct (dot (self_B s) u) as [Bu|e]; simpl; [|reflexivity].
  destruct (np_add Fx Bu) as [x'|e]; simpl; [|reflexivity].
  destruct (T (self_F s)) as [FT|e]; simpl; [|reflexivity].
  destruct (dot3 (self_F s) (self_P s) FT) as [FPFT|e]; simpl; [|reflexivity].
  destruct (np_mul _ FPFT) as [aFPFT|e]; simpl; [|reflexivity].
  destruct (np_add aFPFT (self_Q s)) as [P'|e]; simpl; reflexivity.
Qed.

Lemma residual_of_run s z :
  filter_wf s -> shaped (dz s) 1 z ->
  residual_of z s = Ok (Arr (innovation s (mat_of z))) s.
Proof.
  intros [_ _ Hx _ _ _ HH _ _] Hz. unfold innovation.
  name_shaped Hx xm. name_shaped HH Hm. name_shaped Hz zm.
  rewrite EMxm, EMHm, EMzm. subst z.
  unfold residual_of. run. rewrite EHm, Exm.
  rewrite (dot_arr (dz s) (dx s) 1) by assumption. simpl.
  rewrite (np_sub_arr (dz s) 1); [reflexivity | assumption |].
  eapply mmul_shape; eassumption.
Qed.

Lemma measurement_of_state_run s v n :
  filter_wf s -> shaped (dx s) n v ->
  measurement_of_state v s
  = Ok (Arr (mmul (mat_of (self_H s)) (mat_of v))) s.
Proof.
  intros [_ _ _ _ _ _ HH _ _] Hv.
  name_shaped HH Hm. name_shaped Hv vm. rewrite EMHm, EMvm. subst v.
  unfold measurement_of_state. run. rewrite EHm.
  rewrite (dot_arr (dz s) (dx s) n) by assumption. reflexivity.
Qed.

(** ** Symmetry of the covariance along any sequence of calls *)

(** Split on the outcome of every expression of a method body. *)
Ltac crunch :=
  repeat (simpl;
          match goal with
          | |- context [match ?r with Val _ => _ | Raise _ => _ end] =>
              let E := fresh "E" in destruct r eqn:E
          end);
  simpl.

(** Close a symmetry goal from the equations that computed the value. *)
Ltac symmetry_of_value :=
  repeat match goal with
    | |- sym_value (Num _ _) => exact Logic.I
    | H : sym_value ?v |- sym_value ?v => exact H
    | H : np_add ?a ?b = Val ?c |- sym_value ?c =>
        apply (np_add_symmetric a b c); [ | | exact H]
    | H : np_mul ?a ?b = Val ?c |- sym_value ?c =>
        apply (np_mul_symmetric a b c); [ | | exact H]
    | H : eye ?n = Val ?c |- sym_value ?c =>
        exact (eye_symmetric n c H)
    | H : dot3 ?a ?p ?t = Val ?c, HT : T ?a = Val ?t |- sym_value ?c =>
        apply (dot3_sandwich_symmetric a p t c); [ | exact HT | exact H]
    end.

Lemma predict_frame u s :
  self_Q (state_of (predict u s)) = self_Q s /\
  self_R (state_of (predict u s)) = self_R s.
Proof. unfold predict. run. crunch; split; reflexivity. Qed.

Lemma update_frame z R s :
  self_Q (state_of (update z R s)) = self_Q s /\
  self_R (state_of (update z R s)) = self_R s.
Proof.
  unfold update. destruct z as [z|]; [|split; reflexivity].
  destruct R as [[k r|M]|]; run; crunch; split; reflexivity.
Qed.

Lemma predict_symmetric u s :
  sym_value (self_P s) -> sym_value (self_Q s) ->
  sym_value (self_P (state_of (predict u s))).
Proof.
  intros HP HQ. unfold predict. run. crunch; try assumption.
  symmetry_of_value.
Qed.

Lemma update_symmetric z R s :
  sym_value (self_P s) -> sym_value (self_R s) ->
  sym_call (Update z R) ->
  sym_value (self_P (state_of (update z R s))).
Proof.
  intros HP HR HRarg. simpl in HRarg.
  unfold update. destruct z as [z|]; [|assumption].
  destruct R as [[k r|M]|]; run; crunch; try assumption;
    symmetry_of_value.
Qed.

Lemma run_call_invariant c s :
  sym_value (self_P s) -> sym_value (self_Q s) -> sym_value (self_R s) ->
  sym_call c ->
  sym_value (self_P (state_of (run_call c s))) /\
  sym_value (self_Q (state_of (run_call c s))) /\
  sym_value (self_R (state_of (run_call c s))).
Proof.
  intros HP HQ HR Hc. destruct c as [u|z R]; simpl.
  - destruct (predict_frame u s) as [-> ->].
    auto using predict_symmetric.
  - destruct (update_frame z R s) as [-> ->].
    auto using update_symmetric.
Qed.

Lemma madd_symmetric A B :
  symmetric A -> symmetric B -> nrows A = nrows B -> symmetric (madd A B).
Proof.
  intros HA HB E. unfold madd, mmap2.
  rewrite <- (symmetric_square A HA).
  apply symmetric_build. intros i j Hi Hj.
  rewrite (symmetric_mget A i j), (symmetric_mget B i j)
    by (assumption || lia).
  reflexivity.
Qed.

Lemma mscale_symmetric c A : symmetric A -> symmetric (mscale c A).
Proof. intros HA. apply (symmetric_pointwise (Qcmult c)), HA. Qed.

(** ** The methods in NumPy's operations *)

(** [predict] returns exactly when every expression of its two
    equations has a value, and then holds the results. *)
(** An instance is determined by its attributes. *)
Lemma instance_ext s s' :
  self_x s' = self_x s -> self_P s' = self_P s -> self_K s' = self_K s ->
  self_y s' = self_y s -> self_S s' = self_S s ->
  same_configuration s s' -> s' = s.
Proof.
  destruct s, s'. simpl. unfold same_configuration. simpl.
  intros -> -> -> -> -> (-> & -> & -> & -> & -> & -> & -> & -> & -> & ->).
  reflexivity.
Qed.

Lemma predict_returns_iff s u s' :
  predict u s = Ok tt s' <-> predict_computes s u s'.
Proof.
  unfold predict_computes. split.
  - unfold predict. run. crunch; try discriminate.
    intros [= <-]. do 7 eexists.
    repeat (split; [first [reflexivity | eassumption]|]).
    repeat split.
  - intros (Fx & Bu & x1 & FT & FPFT & aFPFT & P1 &
            E1 & E2 & E3 & E4 & E5 & E6 & E7 &
            Hx & HP & HK & Hy & HS & Hc).
    assert (Es : s' = set_P P1 (set_x x1 s))
      by (apply (instance_ext (set_P P1 (set_x x1 s)) s'); assumption).
    subst s'.
    unfold predict. run. rewrite E1. simpl. rewrite E2. simpl.
    rewrite E3. simpl. rewrite E4. simpl. rewrite E5. simpl.
    rewrite E6. simpl. rewrite E7. reflexivity.
Qed.

Lemma update_returns_iff s z R s' :
  update (Some z) R s = Ok tt s' <-> update_computes s z R s'.
Proof.
  unfold update_computes, resolves_to. split.
  - unfold update. destruct R as [[k r|M]|]; run; crunch;
      try discriminate; intros [= <-];
      do 17 eexists;
      (split; [first [reflexivity
                     | eexists; split; first [reflexivity | eassumption]]|]);
      repeat (split; [first [reflexivity | eassumption]|]); repeat split.
  - intros (Rv & Hx & y & HT & HPHT & S_ & Si & K & Ky & x1 & KH & I_KH
            & I_KHT & a & KT & b & P1 & HR & E1 & E2 & E3 & E4 & E5 & E6
            & E7 & E8 & E9 & E10 & E11 & E12 & E13 & E14 & E15 & E16
            & Hy & HS & HK & Hx1 & HP & Hc).
    assert (Es : s' = set_K K (set_S S_ (set_P P1 (set_x x1 (set_y y s)))))
      by (apply (instance_ext
                   (set_K K (set_S S_ (set_P P1 (set_x x1 (set_y y s))))) s');
          assumption).
    subst s'.
    unfold update.
    assert (ER : forall {A} (k : value -> M A),
      ((match R with
        | None => attr self_R
        | Some R =>
            if isscalar R then
              dz ← attr self_dim_z; e ← eval (eye dz); eval (np_mul e R)
            else mret R
        end) ≫= k) s = k Rv s).
    { intros A k. destruct R as [[kd r|M]|]; run.
      - destruct HR as (e & -> & HR). simpl. rewrite HR. reflexivity.
      - rewrite HR. reflexivity.
      - rewrite HR. reflexivity. }
    rewrite ER. run.
    rewrite E1. simpl. rewrite E2. simpl. rewrite E3. simpl.
    rewrite E4. simpl. rewrite E5. simpl. rewrite E6. simpl.
    rewrite E7. simpl. rewrite E8. simpl. rewrite E9. simpl.
    rewrite E10. simpl. rewrite E11. simpl. rewrite E12. simpl.
    rewrite E13. simpl. rewrite E14. simpl. rewrite E15. simpl.
    rewrite E16. reflexivity.
Qed.

(** ** The data model is preserved by the calls *)

Lemma control_term_shape s u c : control_term s u c -> has_shape (dx s) 1 c.
Proof.
  intros [k1 b k2 v EB | Bm um du EB SB Su | Bm k v EB SB].
  - apply build_shape.
  - eapply mmul_shape; eassumption.
  - apply build_shape.
Qed.

Lemma spec_predict_wf s c :
  filter_wf s -> has_shape (dx s) 1 c -> filter_wf (spec_predict s c).
Proof.
  intros [Hdx Hdz Hx HP HQ HF HH HR HI] Hc.
  pose proof Hx as Hx'. pose proof HP as HP'. pose proof HQ as HQ'.
  pose proof HF as HF'.
  name_shaped Hx' xm. name_shaped HP' Pm. name_shaped HQ' Qm.
  name_shaped HF' Fm.
  constructor; try assumption.
  - apply shaped_arr. unfold predicted_x. rewrite EMFm, EMxm.
    apply mmap2_shape. eapply mmul_shape; eassumption.
  - apply shaped_arr. unfold predicted_P. rewrite EMFm, EMPm.
    apply mmap2_shape, mscale_shape.
    eapply mmul_shape; [eassumption|].
    eapply mmul_shape; [eassumption|]. apply mtrans_shape; assumption.
Qed.

Lemma spec_update_wf s z Rm Si :
  filter_wf s -> has_shape (dz s) (dz s) Si ->
  filter_wf (spec_update s z Rm Si).
Proof.
  intros [Hdx Hdz Hx HP HQ HF HH HR HI] HSi.
  pose proof Hx as Hx'. pose proof HP as HP'. pose proof HH as HH'.
  name_shaped Hx' xm. name_shaped HP' Pm. name_shaped HH' Hm.
  constructor; try assumption.
  - apply shaped_arr. simpl. rewrite EMxm. apply mmap2_shape. assumption.
  - apply shaped_arr. simpl. unfold joseph. apply mmap2_shape.
    eapply mmul_shape; [apply mmap2_shape, meye_shape|].
    rewrite EMPm. eapply mmul_shape; [eassumption|].
    apply mtrans_shape, mmap2_shape, meye_shape.
Qed.

Lemma override_resolved s R : override_ok s R -> exists Rm, resolved_R s R Rm.
Proof.
  destruct R as [[k r|M]|]; simpl; intros HR; eexists; econstructor.
  exact HR.
Qed.

Lemma control_term_same s s' u c :
  self_B s' = self_B s -> dx s' = dx s ->
  control_term s u c -> control_term s' u c.
Proof.
  intros EB Ex [k1 b k2 v HB | Bm um du HB SB Su | Bm k v HB SB];
    rewrite <- Ex in *.
  - apply (control_number s' k1 b k2 v). congruence.
  - apply (control_matrix s' Bm um du); [congruence | assumption ..].
  - apply (control_scaled s' Bm k v); [congruence | assumption].
Qed.

(** [predict()] returns on a ready filter, which stays ready. *)
Lemma predict_ready s :
  batch_ready s ->
  exists s', predict u_default s = Ok tt s' /\ batch_ready s' /\
             dx s' = dx s /\ dz s' = dz s.
Proof.
  intros [Hwf (c & Hc)]. exists (spec_predict s c).
  split; [apply predict_run; assumption|].
  split; [|split; reflexivity].
  split; [apply spec_predict_wf; [assumption | eapply control_term_shape; eassumption]|].
  exists c. eapply control_term_same; [| |exact Hc]; reflexivity.
Qed.

(** [update(z, R)] keeps a ready filter ready when it returns. *)
Lemma update_ready s z R s' :
  batch_ready s -> measurement_ok s z -> override_ok s R ->
  update z R s = Ok tt s' ->
  batch_ready s' /\ dx s' = dx s /\ dz s' = dz s.
Proof.
  intros [Hwf (c & Hc)] Hz HR. destruct z as [z|].
  2:{ intros [= <-].
      split; [split; [assumption | exists c; assumption] | split; reflexivity]. }
  destruct (override_resolved s R HR) as (Rm & HRm).
  rewrite (update_run s z R Rm) by assumption.
  destruct (minv _) as [Si|] eqn:E; [|discriminate].
  intros [= <-]. split; [|split; reflexivity]. split.
  - apply spec_update_wf; [assumption|].
    eapply minv_shape; [|exact E].
    change (nrows (mat_of (self_H s)) = dz s).
    apply (wf_H s Hwf).
  - exists c. eapply control_term_same; [| |exact Hc]; reflexivity.
Qed.

(** ** The loops of [batch_filter] *)

Lemma bind_ok {A B} (m : M A) (k : A -> M B) s a s1 :
  m s = Ok a s1 -> (m ≫= k) s = k a s1.
Proof. intros E. unfold mbind, M_bind. rewrite E. reflexivity. Qed.

Lemma bind_err {A B} (m : M A) (k : A -> M B) s e s1 :
  m s = Err e s1 -> (m ≫= k) s = Err e s1.
Proof. intros E. unfold mbind, M_bind. rewrite E. reflexivity. Qed.

(** Recording an attribute into the next free slot of an array. *)
Lemma record_run {A} (get : FadingKalmanFilter -> value) done m n k i
    (cont : list mat -> M A) s :
  shaped m n (get s) -> i = length done ->
  (attr get ≫= fun x =>
     eval (setitem (done ++ replicate (S k) (mzeros m n)) i x) ≫= cont) s
  = cont ((done ++ [mat_of (get s)]) ++ replicate k (mzeros m n)) s.
Proof.
  intros [E HS] ->. unfold mbind, M_bind, attr, eval. rewrite E. simpl.
  rewrite (setitem_slot done (mzeros m n) (replicate k (mzeros m n)))
    by exact HS.
  rewrite <- app_assoc. reflexivity.
Qed.

Opaque predict update.
Lemma input_ok_same s s' zr : dz s' = dz s -> input_ok s zr -> input_ok s' zr.
Proof.
  intros E [Hz HR]. destruct zr as [[z|] [[k r|M]|]];
    unfold input_ok, measurement_ok, override_ok in *; simpl in *;
    rewrite ?E; auto.
Qed.

Lemma loop_predict_first_run zrs : forall s e d,
  batch_ready s -> Forall (input_ok s) zrs ->
  length (covariances d) = length (means d) ->
  length (means_p d) = length (means d) ->
  length (covariances_p d) = length (means d) ->
  match trace false zrs s with
  | Some tr =>
      loop_predict_first (length (means d)) zrs
        (append_arrays d (zero_arrays (dx s) (length zrs + e))) s
      = Ok (append_arrays (append_arrays d (recorded false tr))
                          (zero_arrays (dx s) e))
           (final_state tr s)
  | None =>
      exists err s',
        loop_predict_first (length (means d)) zrs
          (append_arrays d (zero_arrays (dx s) (length zrs + e))) s
        = Err err s'
  end.
Proof.
  induction zrs as [|[z r] rest IH]; intros s e d Hs Hin L1 L2 L3.
  - simpl. unfold append_arrays; simpl. rewrite !app_nil_r. reflexivity.
  - inversion Hin as [|zr' rest' [Hz Hr] Hin' Eq]; subst.
    simpl in Hz, Hr.
    destruct (predict_ready s Hs) as (s1 & E1 & Hs1 & X1 & Z1).
    cbn [trace first_call second_call loop_predict_first length Nat.add
         fst snd].
    rewrite E1, (bind_ok _ _ _ _ _ E1).
    cbn [append_arrays zero_arrays means covariances means_p covariances_p].
    rewrite <- X1.
    rewrite (record_run self_x (means_p d) (dx s1) 1)
      by (try apply (wf_x s1), Hs1; congruence).
    rewrite (record_run self_P (covariances_p d) (dx s1) (dx s1))
      by (try apply (wf_P s1), Hs1; congruence).
    destruct (update z r s1) as [[] s2|err s2] eqn:E2.
    2:{ rewrite (bind_err _ _ _ _ _ E2). eauto. }
    rewrite (bind_ok _ _ _ _ _ E2).
    assert (Hz1 : measurement_ok s1 z)
      by (destruct z; [simpl in *; rewrite Z1; assumption | exact Logic.I]).
    assert (Hr1 : override_ok s1 r)
      by (destruct r as [[|]|]; simpl in *; rewrite ?Z1; auto).
    destruct (update_ready s1 z r s2 Hs1 Hz1 Hr1 E2) as (Hs2 & X2 & Z2).
    rewrite <- X2.
    rewrite (record_run self_x (means d) (dx s2) 1)
      by (try apply (wf_x s2), Hs2; congruence).
    rewrite (record_run self_P (covariances d) (dx s2) (dx s2))
      by (try apply (wf_P s2), Hs2; congruence).
    set (d' := {| means := means d ++ [mat_of (self_x s2)];
                  covariances := covariances d ++ [mat_of (self_P s2)];
                  means_p := means_p d ++ [mat_of (self_x s1)];
                  covariances_p := covariances_p d ++ [mat_of (self_P s1)] |}).
    assert (Hin2 : Forall (input_ok s2) rest).
    { eapply Forall_impl; [|exact Hin']. intros zr. apply input_ok_same.
      congruence. }
    assert (IH' := IH s2 e d' Hs2 Hin2).
    subst d'. cbn [means covariances means_p covariances_p] in IH'.
    rewrite !length_app, L1, L2, L3 in IH'.
    specialize (IH' eq_refl eq_refl eq_refl).
    replace (length (means d) + length [mat_of (self_x s2)])%nat
      with (S (length (means d))) in IH' by (simpl; lia).
    unfold append_arrays, zero_arrays, recorded in IH' |- *.
    cbn [means covariances means_p covariances_p] in IH' |- *.
    destruct (trace false rest s2) as [tr|]; [|exact IH'].
    rewrite IH'. cbn [map after_update after_predict fst snd].
    rewrite <- !app_assoc, X2, X1. reflexivity.
Qed.

Lemma loop_update_first_run zrs : forall s e d,
  batch_ready s -> Forall (input_ok s) zrs ->
  length (covariances d) = length (means d) ->
  length (means_p d) = length (means d) ->
  length (covariances_p d) = length (means d) ->
  match trace true zrs s with
  | Some tr =>
      loop_update_first (length (means d)) zrs
        (append_arrays d (zero_arrays (dx s) (length zrs + e))) s
      = Ok (append_arrays (append_arrays d (recorded true tr))
                          (zero_arrays (dx s) e))
           (final_state tr s)
  | None =>
      exists err s',
        loop_update_first (length (means d)) zrs
          (append_arrays d (zero_arrays (dx s) (length zrs + e))) s
        = Err err s'
  end.
Proof.
  induction zrs as [|[z r] rest IH]; intros s e d Hs Hin L1 L2 L3.
  - simpl. unfold append_arrays; simpl. rewrite !app_nil_r. reflexivity.
  - inversion Hin as [|zr' rest' [Hz Hr] Hin' Eq]; subst.
    simpl in Hz, Hr.
    cbn [trace first_call second_call loop_update_first length Nat.add
         fst snd].
    destruct (update z r s) as [[] s1|err s1] eqn:E1.
    2:{ rewrite (bind_err _ _ _ _ _ E1). eauto. }
    rewrite (bind_ok _ _ _ _ _ E1).
    destruct (update_ready s z r s1 Hs Hz Hr E1) as (Hs1 & X1 & Z1).
    destruct (predict_ready s1 Hs1) as (s2 & E2 & Hs2 & X2 & Z2).
    rewrite E2.
    cbn [append_arrays zero_arrays means covariances means_p covariances_p].
    rewrite <- X1.
    rewrite (record_run self_x (means d) (dx s1) 1)
      by (try apply (wf_x s1), Hs1; congruence).
    rewrite (record_run self_P (covariances d) (dx s1) (dx s1))
      by (try apply (wf_P s1), Hs1; congruence).
    rewrite (bind_ok _ _ _ _ _ E2).
    rewrite <- X2.
    rewrite (record_run self_x (means_p d) (dx s2) 1)
      by (try apply (wf_x s2), Hs2; congruence).
    rewrite (record_run self_P (covariances_p d) (dx s2) (dx s2))
      by (try apply (wf_P s2), Hs2; congruence).
    set (d' := {| means := means d ++ [mat_of (self_x s1)];
                  covariances := covariances d ++ [mat_of (self_P s1)];
                  means_p := means_p d ++ [mat_of (self_x s2)];
                  covariances_p := covariances_p d ++ [mat_of (self_P s2)] |}).
    assert (Hin2 : Forall (input_ok s2) rest).
    { eapply Forall_impl; [|exact Hin']. intros zr. apply input_ok_same.
      congruence. }
    assert (IH' := IH s2 e d' Hs2 Hin2).
    subst d'. cbn [means covariances means_p covariances_p] in IH'.
    rewrite !length_app, L1, L2, L3 in IH'.
    specialize (IH' eq_refl eq_refl eq_refl).
    replace (length (means d) + length [mat_of (self_x s1)])%nat
      with (S (length (means d))) in IH' by (simpl; lia).
    unfold append_arrays, zero_arrays, recorded in IH' |- *.
    cbn [means covariances means_p covariances_p] in IH' |- *.
    destruct (trace true rest s2) as [tr|]; [|exact IH'].
    rewrite IH'. cbn [map after_update after_predict fst snd].
    rewrite <- !app_assoc, X2, X1. reflexivity.
Qed.

Lemma length_batch_inputs zs Rs :
  (length (batch_inputs zs Rs) <= length zs)%nat.
Proof. unfold batch_inputs. rewrite length_zip. lia. Qed.

(** [batch_filter] returns only on measurements that [np.size(zs, 0)]
    accepts. *)
Lemma batch_filter_homogeneous zs Rs uf s a s' :
  batch_filter zs Rs uf s = Ok a s' -> homogeneous zs.
Proof.
  unfold batch_filter. unfold mbind, M_bind, attr, eval.
  destruct (np_size0 zs) as [n|] eqn:En; [|discriminate].
  intros _. eapply np_size0_homogeneous. exact En.
Qed.

(** [batch_filter] on a ready filter: it returns exactly when the manual
    run does, with the recorded instances followed by the slots that a
    short [Rs] leaves at zero. *)
Lemma batch_filter_run zs Rs uf s :
  homogeneous zs ->
  batch_ready s -> Forall (input_ok s) (batch_inputs zs Rs) ->
  match trace uf (batch_inputs zs Rs) s with
  | Some tr =>
      batch_filter zs Rs uf s
      = Ok (append_arrays (recorded uf tr)
              (zero_arrays (dx s)
                 (length zs - length (batch_inputs zs Rs))))
           (final_state tr s)
  | None => exists err s', batch_filter zs Rs uf s = Err err s'
  end.
Proof.
  intros Hzs Hs Hin. pose proof (length_batch_inputs zs Rs) as Hlen.
  pose proof (Z.lt_le_incl _ _ (wf_dim_x s (proj1 Hs))) as Hdx.
  set (empty := {| means := []; covariances := [];
                   means_p := []; covariances_p := [] |}).
  assert (Ebody : batch_filter zs Rs uf s =
            (if uf then loop_update_first 0 (batch_inputs zs Rs)
                          (append_arrays empty
                             (zero_arrays (dx s) (length zs)))
             else loop_predict_first 0 (batch_inputs zs Rs)
                          (append_arrays empty
                             (zero_arrays (dx s) (length zs)))) s).
  { unfold batch_filter. run. rewrite Hzs. simpl.
    rewrite !zeros3_nonneg by (assumption || lia). simpl.
    destruct uf; reflexivity. }
  rewrite Ebody. clear Ebody.
  set (e := (length zs - length (batch_inputs zs Rs))%nat).
  replace (length zs) with (length (batch_inputs zs Rs) + e)%nat
    by (unfold e; lia).
  destruct uf.
  - pose proof (loop_update_first_run (batch_inputs zs Rs) s e empty Hs Hin
                  eq_refl eq_refl eq_refl) as Hloop.
    destruct (trace true _ s); exact Hloop.
  - pose proof (loop_predict_first_run (batch_inputs zs Rs) s e empty Hs Hin
                  eq_refl eq_refl eq_refl) as Hloop.
    destruct (trace false _ s); exact Hloop.
Qed.

(** ** Manual runs and their traces *)

Lemma predict_ready_inv s s' :
  batch_ready s -> predict u_default s = Ok tt s' ->
  batch_ready s' /\ dx s' = dx s /\ dz s' = dz s.
Proof.
  intros Hs E. destruct (predict_ready s Hs) as (s1 & E1 & H1).
  rewrite E1 in E. injection E as <-. exact H1.
Qed.

Lemma first_call_ready uf zr s s1 :
  batch_ready s -> input_ok s zr -> first_call uf zr s = Ok tt s1 ->
  batch_ready s1 /\ dx s1 = dx s /\ dz s1 = dz s.
Proof.
  intros Hs [Hz Hr]. destruct uf; simpl.
  - apply update_ready; assumption.
  - apply predict_ready_inv; assumption.
Qed.

Lemma second_call_ready uf zr s s1 :
  batch_ready s -> input_ok s zr -> second_call uf zr s = Ok tt s1 ->
  batch_ready s1 /\ dx s1 = dx s /\ dz s1 = dz s.
Proof.
  intros Hs [Hz Hr]. destruct uf; simpl.
  - apply predict_ready_inv; assumption.
  - apply update_ready; assumption.
Qed.

Lemma trace_cons_inv uf zr rest s tr :
  trace uf (zr :: rest) s = Some tr ->
  exists s1 s2 tr',
    first_call uf zr s = Ok tt s1 /\ second_call uf zr s1 = Ok tt s2 /\
    trace uf rest s2 = Some tr' /\ tr = (s1, s2) :: tr'.
Proof.
  simpl. destruct (first_call uf zr s) as [[] s1|] eqn:E1; [|discriminate].
  destruct (second_call uf zr s1) as [[] s2|] eqn:E2; [|discriminate].
  destruct (trace uf rest s2) as [tr'|] eqn:E3; [|discriminate].
  intros [= <-]. exists s1, s2, tr'. auto.
Qed.

Lemma trace_length uf zrs : forall s tr,
  trace uf zrs s = Some tr -> length tr = length zrs.
Proof.
  induction zrs as [|zr rest IH]; intros s tr.
  - intros [= <-]. reflexivity.
  - intros E. apply trace_cons_inv in E as (s1 & s2 & tr' & _ & _ & E & ->).
    simpl. f_equal. eapply IH. exact E.
Qed.

(** A manual run returns exactly when it has a trace, and ends in the
    last instance of the trace. *)
Lemma manual_trace uf zrs : forall s s',
  manual uf zrs s = Ok tt s' <->
  exists tr, trace uf zrs s = Some tr /\ final_state tr s = s'.
Proof.
  induction zrs as [|zr rest IH]; intros s s'; simpl.
  - split; [intros [= <-]; exists []; auto | intros (tr & [= <-] & <-); reflexivity].
  - unfold mbind, M_bind.
    destruct (first_call uf zr s) as [[] s1|e s1].
    2:{ split; [discriminate | intros (tr & [=] & _)]. }
    destruct (second_call uf zr s1) as [[] s2|e s2].
    2:{ split; [discriminate | intros (tr & [=] & _)]. }
    rewrite IH. split.
    + intros (tr & -> & <-). exists ((s1, s2) :: tr). auto.
    + intros (tr & E & <-). destruct (trace uf rest s2) as [tr'|];
        [|discriminate].
      injection E as <-. exists tr'. auto.
Qed.

Lemma manual_step uf zr rest s s1 s2 :
  first_call uf zr s = Ok tt s1 -> second_call uf zr s1 = Ok tt s2 ->
  manual uf (zr :: rest) s = manual uf rest s2.
Proof.
  intros E1 E2. simpl. unfold mbind, M_bind. rewrite E1, E2. reflexivity.
Qed.

(** Entry [i] of a trace holds the instances around the two calls made
    for input [i], after the manual run over the [i] inputs before it. *)
Lemma trace_lookup uf zrs : forall s tr i p,
  trace uf zrs s = Some tr -> tr !! i = Some p ->
  exists zr s_i,
    zrs !! i = Some zr /\
    manual uf (take i zrs) s = Ok tt s_i /\
    first_call uf zr s_i = Ok tt p.1 /\
    second_call uf zr p.1 = Ok tt p.2 /\
    manual uf (take (S i) zrs) s = Ok tt p.2.
Proof.
  induction zrs as [|zr rest IH]; intros s tr i p E Hp.
  - injection E as <-. discriminate.
  - apply trace_cons_inv in E as (s1 & s2 & tr' & E1 & E2 & E & ->).
    destruct i as [|i]; simpl in Hp.
    + injection Hp as <-. exists zr, s. simpl.
      repeat split; try assumption.
      unfold mbind, M_bind. rewrite E1, E2. reflexivity.
    + destruct (IH s2 tr' i p E Hp) as (zr' & s_i & Hl & Hm & Hf & Hs & Hm').
      exists zr', s_i. repeat split; try assumption.
      * rewrite firstn_cons, (manual_step uf zr _ s s1 s2) by assumption.
        exact Hm.
      * rewrite firstn_cons, (manual_step uf zr _ s s1 s2) by assumption.
        exact Hm'.
Qed.

Lemma trace_ready uf zrs : forall s tr,
  batch_ready s -> Forall (input_ok s) zrs -> trace uf zrs s = Some tr ->
  Forall (fun p => batch_ready p.1 /\ batch_ready p.2) tr.
Proof.
  induction zrs as [|zr rest IH]; intros s tr Hs Hin E.
  - injection E as <-. constructor.
  - apply trace_cons_inv in E as (s1 & s2 & tr' & E1 & E2 & E & ->).
    inversion Hin as [|zr' rest' Hzr Hin' Eq]; subst.
    destruct (first_call_ready uf zr s s1 Hs Hzr E1) as (Hs1 & X1 & Z1).
    assert (Hzr1 : input_ok s1 zr) by (eapply input_ok_same; eassumption).
    destruct (second_call_ready uf zr s1 s2 Hs1 Hzr1 E2) as (Hs2 & X2 & Z2).
    constructor; [split; assumption|].
    apply (IH s2); [assumption| |assumption].
    eapply Forall_impl; [|exact Hin']. intros a. apply input_ok_same.
    congruence.
Qed.

Lemma final_state_snoc tr p s : final_state (tr ++ [p]) s = p.2.
Proof. unfold final_state. rewrite fold_left_app. reflexivity. Qed.

Lemma batch_inputs_full zs Rs :
  match Rs with
  | None => True
  | Some Rs => (length zs <= length Rs)%nat
  end ->
  length (batch_inputs zs Rs) = length zs.
Proof.
  unfold batch_inputs. rewrite length_zip. destruct Rs as [Rs|].
  - intros H. lia.
  - intros _. rewrite length_replicate. lia.
Qed.

Lemma batch_inputs_lookup zs Rs i zr :
  batch_inputs zs Rs !! i = Some zr ->
  zs !! i = Some zr.1 /\ override_at Rs i zr.2.
Proof.
  unfold batch_inputs. destruct zr as [z r]. intros H.
  apply lookup_zip_with_Some in H as (z' & r' & [= <- <-] & Hz & Hr).
  split; [exact Hz|]. destruct Rs as [Rs|]; simpl; [exact Hr|].
  apply lookup_replicate in Hr as [-> _]. reflexivity.
Qed.

(** ** What the loops of [batch_filter] store, on any instance *)

Lemma stores_at_nil i get l : stores_at i get [] l l.
Proof.
  split; [reflexivity|]. split; [reflexivity|]. intros j p. discriminate.
Qed.

(** One assignment followed by the assignments of the rest of the trace. *)
Lemma stores_at_cons i get p tr l l1 l' :
  setitem l i (get p) = Val l1 -> stores_at (S i) get tr l1 l' ->
  stores_at i get (p :: tr) l l'.
Proof.
  intros Hset (Hlen & Hpre & Hsto).
  apply setitem_val in Hset as (slot & Hslot & ->).
  rewrite length_insert in Hlen.
  split; [exact Hlen|]. split.
  - intros k Hk. rewrite Hpre by lia.
    apply list_lookup_insert_ne. lia.
  - intros [|j] q Hq; simpl in Hq.
    + injection Hq as <-. rewrite Nat.add_0_r.
      exists slot. split; [exact Hslot|].
      rewrite Hpre by lia. apply list_lookup_insert_eq.
      eapply lookup_lt_Some. exact Hslot.
    + destruct (Hsto j q Hq) as (slot' & Hs1 & Hs2).
      replace (i + S j)%nat with (S i + j)%nat by lia.
      exists slot'. split; [|exact Hs2].
      rewrite list_lookup_insert_ne in Hs1 by lia. exact Hs1.
Qed.


Lemma loop_predict_first_returns zrs : forall i a s a' s',
  loop_predict_first i zrs a s = Ok a' s' ->
  exists tr,
    trace false zrs s = Some tr /\ s' = final_state tr s /\
    stores_at i (fun p => self_x (after_update false p)) tr
      (means a) (means a') /\
    stores_at i (fun p => self_P (after_update false p)) tr
      (covariances a) (covariances a') /\
    stores_at i (fun p => self_x (after_predict false p)) tr
      (means_p a) (means_p a') /\
    stores_at i (fun p => self_P (after_predict false p)) tr
      (covariances_p a) (covariances_p a').
Proof.
  induction zrs as [|[z r] rest IH]; intros i a s a' s'.
  - intros [= <- <-]. exists [].
    split; [reflexivity|]. split; [reflexivity|].
    split; [|split; [|split]]; apply stores_at_nil.
  - cbn [loop_predict_first trace first_call second_call fst snd].
    unfold mbind, M_bind, attr, eval.
    destruct (predict u_default s) as [[] s1|] eqn:E1; [|discriminate].
    destruct (setitem (means_p a) i (self_x s1)) as [mp|] eqn:Emp;
      [|discriminate].
    destruct (setitem (covariances_p a) i (self_P s1)) as [cp|] eqn:Ecp;
      [|discriminate].
    destruct (update z r s1) as [[] s2|] eqn:E2; [|discriminate].
    destruct (setitem (means a) i (self_x s2)) as [m|] eqn:Em;
      [|discriminate].
    destruct (setitem (covariances a) i (self_P s2)) as [c|] eqn:Ec;
      [|discriminate].
    intros Hloop. apply IH in Hloop as (tr & Et & -> & S1 & S2 & S3 & S4).
    rewrite Et. exists ((s1, s2) :: tr).
    split; [reflexivity|]. split; [reflexivity|].
    simpl in S1, S2, S3, S4.
    split; [|split; [|split]]; eapply stores_at_cons; eassumption.
Qed.

Lemma loop_update_first_returns zrs : forall i a s a' s',
  loop_update_first i zrs a s = Ok a' s' ->
  exists tr,
    trace true zrs s = Some tr /\ s' = final_state tr s /\
    stores_at i (fun p => self_x (after_update true p)) tr
      (means a) (means a') /\
    stores_at i (fun p => self_P (after_update true p)) tr
      (covariances a) (covariances a') /\
    stores_at i (fun p => self_x (after_predict true p)) tr
      (means_p a) (means_p a') /\
    stores_at i (fun p => self_P (after_predict true p)) tr
      (covariances_p a) (covariances_p a').
Proof.
  induction zrs as [|[z r] rest IH]; intros i a s a' s'.
  - intros [= <- <-]. exists [].
    split; [reflexivity|]. split; [reflexivity|].
    split; [|split; [|split]]; apply stores_at_nil.
  - cbn [loop_update_first trace first_call second_call fst snd].
    unfold mbind, M_bind, attr, eval.
    destruct (update z r s) as [[] s1|] eqn:E1; [|discriminate].
    destruct (setitem (means a) i (self_x s1)) as [m|] eqn:Em;
      [|discriminate].
    destruct (setitem (covariances a) i (self_P s1)) as [c|] eqn:Ec;
      [|discriminate].
    destruct (predict u_default s1) as [[] s2|] eqn:E2; [|discriminate].
    destruct (setitem (means_p a) i (self_x s2)) as [mp|] eqn:Emp;
      [|discriminate].
    destruct (setitem (covariances_p a) i (self_P s2)) as [cp|] eqn:Ecp;
      [|discriminate].
    intros Hloop. apply IH in Hloop as (tr & Et & -> & S1 & S2 & S3 & S4).
    rewrite Et. exists ((s1, s2) :: tr).
    split; [reflexivity|]. split; [reflexivity|].
    simpl in S1, S2, S3, S4.
    split; [|split; [|split]]; eapply stores_at_cons; eassumption.
Qed.

Lemma stores_at_zeros get tr m n k l' :
  stores_at 0 get tr (replicate k (mzeros m n)) l' ->
  length l' = k /\
  forall j p, tr !! j = Some p -> l' !! j = Some (stored m n (get p)).
Proof.
  intros (Hlen & _ & Hsto). rewrite length_replicate in Hlen.
  split; [exact Hlen|]. intros j p Hp.
  destruct (Hsto j p Hp) as (slot & Hslot & Hl). simpl in Hslot, Hl.
  apply lookup_replicate in Hslot as [-> _]. exact Hl.
Qed.

(** Whenever [batch_filter] returns, on any instance, the manual run has
    a trace, the instance is the last of the trace, and entry [j] of
    each array is what the assignment of the corresponding attribute
    stores in a slot of that array. *)
Lemma batch_filter_returns zs Rs uf s a s' :
  batch_filter zs Rs uf s = Ok a s' ->
  exists tr,
    trace uf (batch_inputs zs Rs) s = Some tr /\ s' = final_state tr s /\
    length (means a) = length zs /\
    length (covariances a) = length zs /\
    length (means_p a) = length zs /\
    length (covariances_p a) = length zs /\
    forall j p, tr !! j = Some p ->
      means a !! j = Some (stored (dx s) 1 (self_x (after_update uf p))) /\
      covariances a !! j
        = Some (stored (dx s) (dx s) (self_P (after_update uf p))) /\
      means_p a !! j = Some (stored (dx s) 1 (self_x (after_predict uf p))) /\
      covariances_p a !! j
        = Some (stored (dx s) (dx s) (self_P (after_predict uf p))).
Proof.
  unfold batch_filter. unfold mbind, M_bind, attr, eval.
  destruct (np_size0 zs) as [n|] eqn:En; [|discriminate].
  apply np_size0_val in En as ->.
  destruct (zeros3 (length zs) (self_dim_x s) 1) as [m|] eqn:Em;
    [|discriminate].
  destruct (zeros3 (length zs) (self_dim_x s) (self_dim_x s)) as [c|] eqn:Ec;
    [|discriminate].
  apply zeros3_val in Em as (_ & _ & ->).
  apply zeros3_val in Ec as (_ & _ & ->).
  fold (batch_inputs zs Rs). fold (dx s). change (Z.to_nat 1) with 1%nat.
  intros Hloop.
  assert (exists tr,
    trace uf (batch_inputs zs Rs) s = Some tr /\ s' = final_state tr s /\
    stores_at 0 (fun p => self_x (after_update uf p)) tr
      (replicate (length zs) (mzeros (dx s) 1)) (means a) /\
    stores_at 0 (fun p => self_P (after_update uf p)) tr
      (replicate (length zs) (mzeros (dx s) (dx s))) (covariances a) /\
    stores_at 0 (fun p => self_x (after_predict uf p)) tr
      (replicate (length zs) (mzeros (dx s) 1)) (means_p a) /\
    stores_at 0 (fun p => self_P (after_predict uf p)) tr
      (replicate (length zs) (mzeros (dx s) (dx s))) (covariances_p a))
    as (tr & Et & Es & S1 & S2 & S3 & S4).
  { destruct uf.
    - apply loop_update_first_returns in Hloop. exact Hloop.
    - apply loop_predict_first_returns in Hloop. exact Hloop. }
  apply stores_at_zeros in S1 as [L1 S1]. apply stores_at_zeros in S2 as [L2 S2].
  apply stores_at_zeros in S3 as [L3 S3]. apply stores_at_zeros in S4 as [L4 S4].
  exists tr. repeat (split; [assumption|]).
  intros j p Hp. auto.
Qed.

(** ** Constructed filters and the examples satisfy the data model *)

Ltac shapes := repeat split; vm_compute; try reflexivity; try discriminate.

(** Check the inputs of an example batch. *)
Ltac inputs_ok :=
  cbv [batch_inputs zip zip_with length replicate];
  repeat (apply List.Forall_cons;
          [split; simpl; try exact Logic.I; shapes|]);
  apply List.Forall_nil.

Lemma tracker_wf : filter_wf tracker.
Proof. constructor; shapes. Defined.

Lemma driven_tracker_wf : filter_wf driven_tracker.
Proof. constructor; shapes. Defined.

Lemma wide_tracker_wf : filter_wf wide_tracker.
Proof. constructor; shapes. Defined.

(** What the constructor returns, when it returns an instance of the
    model. *)
Lemma init_returns alpha dim_x dim_z dim_u s0 :
  __init__ alpha dim_x dim_z dim_u = Val (Filter s0) ->
  exists a,
    alpha = Finite a /\ 1 <= a /\ a ^ 2 < float_overflow /\
    (0 < dim_x)%Z /\ (0 < dim_z)%Z /\ (0 <= dim_u)%Z /\
    s0 = {| self_alpha_sq := a ^ 2;
            self_dim_x := dim_x; self_dim_z := dim_z; self_dim_u := dim_u;
            self_x := Arr (mzeros (Z.to_nat dim_x) 1);
            self_P := Arr (meye (Z.to_nat dim_x));
            self_Q := Arr (meye (Z.to_nat dim_x));
            self_B := Num PyNumber 0; self_F := Num PyNumber 0;
            self_H := Num PyNumber 0;
            self_R := Arr (meye (Z.to_nat dim_z));
            self_K := Num PyNumber 0;
            self_y := Arr (mzeros (Z.to_nat dim_z) 1);
            self_S := Num PyNumber 0;
            self_I := Arr (meye (Z.to_nat dim_x)) |}.
Proof.
  unfold __init__.
  destruct (float_ge_1 alpha) eqn:Ha; simpl; [|discriminate].
  destruct (bool_decide_reflect (0 < dim_x)%Z) as [Hx|]; simpl;
    [|discriminate].
  destruct (bool_decide_reflect (0 < dim_z)%Z) as [Hz|]; simpl;
    [|discriminate].
  destruct (bool_decide_reflect (0 <= dim_u)%Z) as [Hu|]; simpl;
    [|discriminate].
  rewrite !zeros_nonneg, !eye_nonneg by lia.
  destruct alpha as [a| | |]; unfold float_square; try discriminate.
  destruct (bool_decide_reflect (a ^ 2 < float_overflow)) as [Hm|];
    [|discriminate].
  apply bool_decide_eq_true in Ha.
  intros [= <-]. exists a. repeat (split; [assumption || reflexivity|]).
  reflexivity.
Qed.

(** An instance returned by the constructor, with [F] and [H] assigned
    matrices of the prescribed shapes, satisfies the data model and is
    ready for [batch_filter]. *)
Lemma configured_ready alpha dim_x dim_z dim_u s F H :
  __init__ alpha dim_x dim_z dim_u = Val (Filter s) ->
  shaped (Z.to_nat dim_x) (Z.to_nat dim_x) F ->
  shaped (Z.to_nat dim_z) (Z.to_nat dim_x) H ->
  batch_ready (set_H H (set_F F s)).
Proof.
  intros E HF HH.
  apply init_returns in E as (a & _ & _ & _ & Hx & Hz & _ & ->).
  split.
  - constructor; simpl; try assumption;
      try (apply shaped_arr; first [apply meye_shape | apply mzeros_shape]).
    reflexivity.
  - eexists. apply (control_number _ PyNumber 0 PyNumber 0). reflexivity.
Qed.

Lemma tracker_ready : batch_ready tracker.
Proof.
  split; [exact tracker_wf|]. eexists.
  exact (control_number tracker PyNumber 0 PyNumber 0 eq_refl).
Defined.

Lemma scenario_ready : batch_ready (scenario 1).
Proof.
  split; [constructor; shapes|]. eexists.
  exact (control_number (scenario 1) PyNumber 0 PyNumber 0 eq_refl).
Defined.

(** ** At the border of the data model

    Three runs that show what the hypotheses of the statements below
    exclude. *)

(** A filter whose [F] is still the placeholder 0 cannot predict: a
    Python number has no transpose. *)
Example unconfigured_predict_raises :
  exists s', predict u_default (construct 1 2 1 0) = Err AttributeError s'.
Proof. eexists. vm_compute. reflexivity. Qed.

(** With a control matrix of two columns and the default [u = 0], NumPy
    broadcasts the sum: [predict()] returns, and [x] has two columns.
    [batch_filter] then raises when it stores that [x], although the
    calls made by hand return. *)
Example wide_control_reshapes_x :
  (exists s' A, predict u_default wide_tracker = Ok tt s' /\
                self_x s' = Arr A /\ nrows A = 2%nat /\ ncols A = 2%nat) /\
  (exists s', manual false (batch_inputs [None] None) wide_tracker
              = Ok tt s') /\
  (exists s', batch_filter [None] None false wide_tracker
              = Err ValueError s').
Proof.
  split; [|split].
  - do 2 eexists. split; [vm_compute; reflexivity|].
    split; [reflexivity|]. split; reflexivity.
  - eexists. vm_compute. reflexivity.
  - eexists. vm_compute. reflexivity.
Qed.

(** An [Rs] shorter than [zs] silently shortens the loop: no call is
    made for the measurements it does not cover, and their slots stay
    at zero. *)
Example short_Rs_skips_measurements :
  exists a,
    batch_filter [Some (arr [[q 3 1]])] (Some []) false tracker
    = Ok a tracker /\
    means a = [mzeros 2 1] /\ covariances a = [mzeros 2 2].
Proof.
  eexists. split; [vm_compute; reflexivity|]. split; reflexivity.
Qed.

(** ** The statements of the specification *)

(** C1. Every call [update(z, R)] with a measurement [z] returns exactly
    when each expression of the update equations has a value in NumPy's
    operations, and then its attributes [y], [S], [K], [x] and [P] hold
    their results, every other attribute being the one before the call.
    On a filter whose matrices have the shapes of the data model, with
    [R] resolved as the spec says (absent: the stored [R]; a scalar
    [r]: [r] times the identity of size [dim_z]; a matrix: itself), let
    [S = H·P0·Hᵗ + R].  When [S] has an inverse [Si], the call returns
    an instance whose [y] is [z - H·x0], whose [S] is that [S], whose
    [K] is [P0·Hᵗ·Si], whose [x] is [x0 + K·y] and whose [P] is
    [(I - K·H)·P0·(I - K·H)ᵗ + K·R·Kᵗ], with the configuration it had.
    When [S] has no inverse the call raises the error of [linalg.inv]:
    [y] has been assigned, and [x], [P], [K], [S] are the ones before
    the call. *)
Theorem update_sets_kalman_equations :
  (forall s z R s',
     update (Some z) R s = Ok tt s' <-> update_computes s z R s') /\
  (forall s z R Rm,
     filter_wf s -> shaped (dz s) 1 z -> resolved_R s R Rm ->
     let x0 := mat_of (self_x s) in
     let P0 := mat_of (self_P s) in
     let H := mat_of (self_H s) in
     let y := msub (mat_of z) (mmul H x0) in
     let S_ := madd (mmul H (mmul P0 (mtrans H))) Rm in
     (forall Si,
        has_shape (dz s) (dz s) Si -> mmul Si S_ = meye (dz s) ->
        let K := mmul P0 (mmul (mtrans H) Si) in
        let I_KH := msub (meye (dx s)) (mmul K H) in
        let x1 := madd x0 (mmul K y) in
        let P1 := madd (mmul I_KH (mmul P0 (mtrans I_KH)))
                       (mmul K (mmul Rm (mtrans K))) in
        exists s',
          update (Some z) R s = Ok tt s' /\
          self_y s' = Arr y /\ self_S s' = Arr S_ /\ self_K s' = Arr K /\
          self_x s' = Arr x1 /\ self_P s' = Arr P1 /\
          same_configuration s s') /\
     (~ left_invertible (dz s) S_ ->
      exists s',
        update (Some z) R s = Err LinAlgError s' /\
        self_y s' = Arr y /\
        self_x s' = self_x s /\ self_P s' = self_P s /\
        self_K s' = self_K s /\ self_S s' = self_S s /\
        same_configuration s s')).
Proof.
  split; [exact update_returns_iff|].
  intros s z R Rm Hwf Hz HR x0 P0 H y S_.
  assert (SS : has_shape (dz s) (dz s) S_).
  { apply mmap2_shape. destruct (wf_H s Hwf) as (_ & SH).
    destruct (wf_P s Hwf) as (_ & SP).
    eapply mmul_shape; [exact SH|].
    eapply mmul_shape; [exact SP | apply mtrans_shape; exact SH]. }
  pose proof (update_run s z R Rm Hwf Hz HR) as Hrun.
  unfold innovation_cov in Hrun. fold x0 P0 H S_ in Hrun. split.
  - intros Si SSi ESi K I_KH x1 P1.
    rewrite (minv_unique (dz s) S_ Si SS SSi ESi) in Hrun.
    eexists. split; [exact Hrun|]. repeat split.
  - intros Hsing. destruct (minv S_) as [Si|] eqn:E.
    + exfalso. apply Hsing. exists Si.
      split; [exact (minv_shape (dz s) S_ Si (proj1 SS) E)|].
      apply (minv_inverse (dz s) S_ Si SS E).
    + eexists. split; [exact Hrun|]. repeat split.
Qed.

Lemma update_sets_kalman_equations_witness :
  exists Si s',
    mmul Si (innovation_cov tracker (mscale (q 1 4) (meye 1))) = meye 1 /\
    update (Some (arr [[q 3 1]])) (Some (Num PyNumber (q 1 4))) tracker
    = Ok tt s' /\
    self_K s'
    = Arr (mmul (mat_of (self_P tracker))
             (mmul (mtrans (mat_of (self_H tracker))) Si)).
Proof.
  assert (E : minv (innovation_cov tracker (mscale (q 1 4) (meye 1)))
              = Some (inverse_of
                        (innovation_cov tracker (mscale (q 1 4) (meye 1)))))
    by (vm_compute; reflexivity).
  assert (SS : has_shape 1 1
                 (innovation_cov tracker (mscale (q 1 4) (meye 1))))
    by shapes.
  destruct (minv_inverse 1 _ _ SS E) as [EL _].
  destruct (proj1 (proj2 update_sets_kalman_equations tracker
              (arr [[q 3 1]]) (Some (Num PyNumber (q 1 4)))
              (mscale (q 1 4) (meye 1))
              tracker_wf ltac:(shapes) (R_scalar tracker PyNumber (q 1 4)))
              (inverse_of (innovation_cov tracker (mscale (q 1 4) (meye 1)))))
    as (s' & Es & _ & _ & EK & _).
  - eapply minv_shape; [|exact E]. reflexivity.
  - exact EL.
  - eexists. exists s'. split; [exact EL|]. split; [exact Es | exact EK].
Defined.

(** C2. Every call [predict(u)] returns exactly when each expression of
    the two prediction equations has a value in NumPy's operations, and
    then its attributes [x] and [P] hold their results, every other
    attribute being the one before the call.  On a filter whose
    matrices have the shapes of the data model the call returns an
    instance whose [x] is [F·x0 + B·u], whose [P] is
    [alpha_sq·(F·P0·Fᵗ) + Q], and whose other attributes are the ones
    before the call: for the control term [c = B·u] of a column [u], or
    of a number [u] without control matrix or with a control matrix of
    one column, [x] is the column [F·x0 + c]; for a number [u = v] and
    a control matrix [B] of any number [du] of columns (the default
    [u = 0] with [dim_u] columns), NumPy adds the column [F·x0] to each
    column of [B·v], so that [x] has [du] columns.  When [alpha = 1], so
    that [alpha_sq = 1], the new covariance is the standard Kalman
    prediction [F·P0·Fᵗ + Q]. *)
Theorem predict_sets_fading_equations :
  (forall s u s', predict u s = Ok tt s' <-> predict_computes s u s') /\
  (forall s u c,
     filter_wf s -> control_term s u c ->
     let x0 := mat_of (self_x s) in
     let P0 := mat_of (self_P s) in
     let F := mat_of (self_F s) in
     let Q := mat_of (self_Q s) in
     let x1 := madd (mmul F x0) c in
     let P1 :=
       madd (mscale (self_alpha_sq s) (mmul F (mmul P0 (mtrans F)))) Q in
     (exists s',
        predict u s = Ok tt s' /\
        self_x s' = Arr x1 /\ self_P s' = Arr P1 /\
        self_K s' = self_K s /\ self_y s' = self_y s /\
        self_S s' = self_S s /\ same_configuration s s') /\
     (forall alpha, self_alpha_sq s = alpha ^ 2 -> alpha = 1 ->
        P1 = madd (mmul F (mmul P0 (mtrans F))) Q)) /\
  (forall s Bm du k v,
     filter_wf s -> self_B s = Arr Bm -> has_shape (dx s) du Bm ->
     let x0 := mat_of (self_x s) in
     let P0 := mat_of (self_P s) in
     let F := mat_of (self_F s) in
     let Q := mat_of (self_Q s) in
     let x1 := build (dx s) du (fun i j =>
                 mget (mmul F x0) i 0 + mget Bm i j * v) in
     let P1 :=
       madd (mscale (self_alpha_sq s) (mmul F (mmul P0 (mtrans F)))) Q in
     exists s',
       predict (Num k v) s = Ok tt s' /\
       self_x s' = Arr x1 /\ self_P s' = Arr P1 /\
       self_K s' = self_K s /\ self_y s' = self_y s /\
       self_S s' = self_S s /\ same_configuration s s').
Proof.
  split; [exact predict_returns_iff|]. split.
  - intros s u c Hwf Hc x0 P0 F Q x1 P1. split.
    + eexists. split; [apply predict_run; eassumption|]. repeat split.
    + intros alpha Ea ->. unfold P1. rewrite Ea.
      rewrite Qcpower_1.
      rewrite mscale_1 by apply mmul_wf. reflexivity.
  - intros s Bm du k v Hwf EB SB x0 P0 F Q x1 P1.
    eexists. split; [apply (predict_run_number s Bm du k v); assumption|].
    repeat split.
Qed.

Lemma predict_sets_fading_equations_witness :
  (exists s', predict u_default tracker = Ok tt s' /\
              self_P s' = Arr (predicted_P tracker)) /\
  (exists s', predict (arr [[q 3 1]]) driven_tracker = Ok tt s' /\
              self_P s' = Arr (predicted_P driven_tracker)) /\
  (exists s' x1, predict u_default wide_tracker = Ok tt s' /\
                 self_x s' = Arr x1 /\ ncols x1 = 2%nat).
Proof.
  split; [|split].
  - destruct (proj1 (proj1 (proj2 predict_sets_fading_equations) tracker
                       u_default _ tracker_wf
                       (control_number tracker PyNumber 0 PyNumber 0 eq_refl)))
      as (s' & E & _ & EP & _).
    exists s'. split; [exact E | exact EP].
  - assert (Hc : control_term driven_tracker (arr [[q 3 1]])
                   (mmul (mat_of (self_B driven_tracker))
                      (mat_of (arr [[q 3 1]]))))
      by (refine (control_matrix driven_tracker _ _ 1%nat eq_refl _ _);
          shapes).
    destruct (proj1 (proj1 (proj2 predict_sets_fading_equations)
                       driven_tracker (arr [[q 3 1]]) _ driven_tracker_wf
                       Hc))
      as (s' & E & _ & EP & _).
    exists s'. split; [exact E | exact EP].
  - destruct (proj2 (proj2 predict_sets_fading_equations) wide_tracker
                (mat_of (self_B wide_tracker)) 2%nat PyNumber 0
                wide_tracker_wf eq_refl ltac:(shapes))
      as (s' & E & Ex & _).
    exists s'. eexists. split; [exact E|]. split; [exact Ex|]. reflexivity.
Defined.

(** C3. [batch_filter] does not make the calls of the manual run for
    every sequence of measurements.  On the measurements
    [[array([[3.]]), None]], where [None] marks a missing measurement as
    the docstring of [batch_filter] prescribes, [np.size(zs, 0)] raises
    [ValueError] before any call is made, with either order of the
    calls, and the instance is left as it was: no sequence is returned,
    although the filter and the measurements are those of the data model
    and the two calls made by hand for each measurement return.  On the
    tracker with a control matrix of two columns, a filter of the data
    model too, [batch_filter] raises [ValueError] when it stores the [x]
    of the first [predict()], although the calls made by hand return. *)
Theorem batch_filter_rejects_missing_marker :
  (filter_wf tracker /\
   Forall (input_ok tracker)
     (batch_inputs [Some (arr [[q 3 1]]); None] None) /\
   batch_filter [Some (arr [[q 3 1]]); None] None false tracker
   = Err ValueError tracker /\
   batch_filter [Some (arr [[q 3 1]]); None] None true tracker
   = Err ValueError tracker /\
   (exists s', manual false (batch_inputs [Some (arr [[q 3 1]]); None] None)
                 tracker = Ok tt s') /\
   (exists s', manual true (batch_inputs [Some (arr [[q 3 1]]); None] None)
                 tracker = Ok tt s')) /\
  (filter_wf wide_tracker /\
   Forall (input_ok wide_tracker) (batch_inputs [Some (arr [[q 3 1]])] None) /\
   (exists s1, predict u_default wide_tracker = Ok tt s1 /\
               batch_filter [Some (arr [[q 3 1]])] None false wide_tracker
               = Err ValueError s1) /\
   (exists s', manual false (batch_inputs [Some (arr [[q 3 1]])] None)
                 wide_tracker = Ok tt s')).
Proof.
  split.
  - split; [exact tracker_wf|]. split; [inputs_ok|].
    split; [vm_compute; reflexivity|]. split; [vm_compute; reflexivity|].
    split; eexists; vm_compute; reflexivity.
  - split; [exact wide_tracker_wf|]. split; [inputs_ok|].
    split; eexists; [split|]; vm_compute; reflexivity.
Qed.

(** C4. [update(None)] raises nothing and leaves [x] and [P] exactly as
    they were: a missed measurement skips the step. *)
Theorem update_none_is_noop s :
  exists s', update None None s = Ok tt s' /\
             self_x s' = self_x s /\ self_P s' = self_P s.
Proof. exists s. rewrite update_none. repeat split. Qed.

(** C5. Along every sequence of [predict] and [update] calls that starts
    with symmetric [P], [Q] and stored [R], and whose overrides of [R] are
    symmetric, [P] is symmetric after every call, whether the call
    returned or raised and whatever [F], [H] and the gain [K] are; in
    particular [alpha_sq·(F·P0·Fᵗ) + Q] and the Joseph form
    [(I - K·H)·P0·(I - K·H)ᵗ + K·R·Kᵗ] are symmetric for symmetric [P0],
    [Q], [R] and any [K]. *)
Theorem covariance_stays_symmetric cs s :
  sym_value (self_P s) -> sym_value (self_Q s) -> sym_value (self_R s) ->
  Forall sym_call cs ->
  sym_value (self_P (after_calls cs s)) /\
  (forall a F P0 Qm, symmetric P0 -> symmetric Qm ->
     ncols F = nrows P0 -> nrows F = nrows Qm ->
     symmetric (madd (mscale a (mmul F (mmul P0 (mtrans F)))) Qm)) /\
  (forall K H P0 Rm, symmetric P0 -> symmetric Rm ->
     nrows K = nrows P0 -> ncols K = nrows Rm ->
     let I_KH := msub (meye (nrows P0)) (mmul K H) in
     symmetric (madd (mmul I_KH (mmul P0 (mtrans I_KH)))
                     (mmul K (mmul Rm (mtrans K))))).
Proof.
  intros HP HQ HR Hcs. split; [|split].
  - revert s HP HQ HR. induction Hcs as [|c cs Hc _ IH]; intros s HP HQ HR.
    + exact HP.
    + simpl. destruct (run_call_invariant c s HP HQ HR Hc) as (? & ? & ?).
      apply IH; assumption.
  - intros a F P0 Qm HP0 HQm E1 E2.
    apply madd_symmetric; [| assumption | exact E2].
    apply mscale_symmetric, sandwich_symmetric; assumption.
  - intros K H P0 Rm HP0 HRm E1 E2 I_KH.
    apply madd_symmetric.
    + apply sandwich_symmetric; [assumption|].
      unfold I_KH. pose proof (symmetric_square P0 HP0). reflexivity.
    + apply sandwich_symmetric; assumption.
    + exact (eq_sym E1).
Qed.

Lemma covariance_stays_symmetric_witness :
  sym_value (self_P (after_calls
    [Predict u_default; Update (Some (arr [[q 3 1]])) None;
     Update None None; Predict u_default;
     Update (Some (arr [[q 2 1]])) (Some (Num PyNumber (q 1 4)))]
    tracker)).
Proof.
  refine (proj1 (covariance_stays_symmetric _ tracker _ _ _ _)).
  - vm_compute. reflexivity.
  - vm_compute. reflexivity.
  - vm_compute. reflexivity.
  - repeat constructor.
Defined.



(** C7. [get_prediction], [residual_of] and [measurement_of_state] leave
    the instance as it was, whatever their argument and whether they
    return or raise; [get_prediction(u)] returns the pair that
    [predict(u)] would assign to [x] and [P], that is
    [(F·x + B·u, alpha_sq·(F·P·Fᵗ) + Q)]; [residual_of(z)] returns
    [z - H·x] for the current [x]; [measurement_of_state(v)] returns
    [H·v]. *)
Theorem queries_do_not_mutate :
  (forall s u z v,
     state_of (get_prediction u s) = s /\
     state_of (residual_of z s) = s /\
     state_of (measurement_of_state v s) = s /\
     get_prediction u s =
       match predict u s with
       | Ok _ s' => Ok (self_x s', self_P s') s
       | Err e _ => Err e s
       end) /\
  (forall s u c z v,
     filter_wf s -> control_term s u c ->
     shaped (dz s) 1 z -> shaped (dx s) 1 v ->
     let x0 := mat_of (self_x s) in
     let P0 := mat_of (self_P s) in
     let F := mat_of (self_F s) in
     let H := mat_of (self_H s) in
     let Q := mat_of (self_Q s) in
     get_prediction u s =
       Ok (Arr (madd (mmul F x0) c),
           Arr (madd (mscale (self_alpha_sq s) (mmul F (mmul P0 (mtrans F))))
                     Q)) s /\
     residual_of z s = Ok (Arr (msub (mat_of z) (mmul H x0))) s /\
     measurement_of_state v s = Ok (Arr (mmul H (mat_of v))) s).
Proof.
  split.
  - intros s u z v. repeat split.
    + rewrite get_prediction_predict. destruct (predict u s); reflexivity.
    + unfold residual_of. run.
      destruct (dot _ _) as [Hx|e]; simpl; [|reflexivity].
      destruct (np_sub z Hx); reflexivity.
    + unfold measurement_of_state. run. destruct (dot _ _); reflexivity.
    + apply get_prediction_predict.
  - intros s u c z v Hwf Hc Hz Hv x0 P0 F H Q. repeat split.
    + rewrite get_prediction_predict, (predict_run s u c) by assumption.
      reflexivity.
    + apply residual_of_run; assumption.
    + eapply measurement_of_state_run; eassumption.
Qed.

Lemma queries_do_not_mutate_witness :
  exists xP r m,
    get_prediction u_default tracker = Ok xP tracker /\
    residual_of (arr [[q 3 1]]) tracker = Ok r tracker /\
    measurement_of_state (arr [[q 1 1]; [q 2 1]]) tracker = Ok m tracker.
Proof.
  do 3 eexists.
  refine (proj2 queries_do_not_mutate tracker u_default _ (arr [[q 3 1]])
            (arr [[q 1 1]; [q 2 1]]) tracker_wf _ _ _).
  - exact (control_number tracker PyNumber 0 PyNumber 0 eq_refl).
  - shapes.
  - shapes.
Defined.

(** C8. In the 1-D model [F = H = [[1]]], [Q = [[0]]], [R = [[1]]],
    [x = [[0]]], [P = [[1]]] built with [dim_x = dim_z = 1], [dim_u = 0]:
    with [alpha = 1] one update with [z = [[1]]] gives [K = [[1/2]]],
    [x = [[1/2]]], [P = [[1/2]]]; with [alpha = 11/10] the constructor
    stores [alpha_sq = 121/100] and a predict from [P = [[1]]] gives
    [P = [[121/100]]]. *)
Theorem concrete_scenario :
  (exists s',
     update (Some (arr [[1]])) None (scenario 1) = Ok tt s' /\
     self_K s' = arr [[q 1 2]] /\
     self_x s' = arr [[q 1 2]] /\
     self_P s' = arr [[q 1 2]]) /\
  (exists s0, __init__ (Finite (q 11 10)) 1 1 0 = Val (Filter s0) /\
              self_alpha_sq s0 = q 121 100) /\
  (exists s',
     predict u_default (scenario (q 11 10)) = Ok tt s' /\
     self_P (scenario (q 11 10)) = arr [[1]] /\
     self_P s' = arr [[q 121 100]]).
Proof.
  split; [|split].
  - eexists. split; [vm_compute; reflexivity|].
    repeat split; apply value_eqb_eq; vm_compute; reflexivity.
  - eexists. split; [vm_compute; reflexivity|].
    apply Qc_is_canon. vm_compute. reflexivity.
  - eexists. split; [vm_compute; reflexivity|].
    split; apply value_eqb_eq; vm_compute; reflexivity.
Qed.

(** C9. [update(None, R)] returns before [R] is looked at: whatever [R]
    is, well shaped or not, no exception is raised and the instance,
    with its diagnostics [K], [S], [y] and its stored [R], is the one
    before the call. *)
Theorem update_none_ignores_R s (R : option value) :
  update None R s = Ok tt s /\
  self_K (state_of (update None R s)) = self_K s /\
  self_S (state_of (update None R s)) = self_S s /\
  self_y (state_of (update None R s)) = self_y s /\
  self_R (state_of (update None R s)) = self_R s.
Proof. rewrite update_none. repeat split. Qed.

(** On a ready filter the last entries of a batch that returned are the
    [x] and [P] of the instance. *)
Lemma batch_filter_last_entries s zs Rs uf a s' :
  batch_ready s ->
  Forall (input_ok s) (batch_inputs zs Rs) ->
  match Rs with
  | None => True
  | Some Rs => (length zs <= length Rs)%nat
  end ->
  (1 <= length zs)%nat ->
  batch_filter zs Rs uf s = Ok a s' ->
  manual uf (batch_inputs zs Rs) s = Ok tt s' /\
  exists m c,
    (if uf then means_p a else means a) !! (length zs - 1)%nat = Some m /\
    (if uf then covariances_p a else covariances a) !! (length zs - 1)%nat
      = Some c /\
    self_x s' = Arr m /\ self_P s' = Arr c.
Proof.
  intros Hs Hin HRs Hn Hb.
  pose proof (batch_filter_homogeneous zs Rs uf s a s' Hb) as Hzs.
  pose proof (batch_inputs_full zs Rs HRs) as Hfull.
  pose proof (batch_filter_run zs Rs uf s Hzs Hs Hin) as Hrun.
  destruct (trace uf (batch_inputs zs Rs) s) as [tr|] eqn:Etr.
  2:{ destruct Hrun as (e & s'' & Hrun). congruence. }
  rewrite Hb, Hfull, Nat.sub_diag in Hrun. injection Hrun as -> ->.
  pose proof (trace_length uf _ s tr Etr) as Hlen. rewrite Hfull in Hlen.
  pose proof (trace_ready uf _ s tr Hs Hin Etr) as Hready.
  split; [apply manual_trace; eauto|].
  destruct tr as [|p0 tr0] using rev_ind; [simpl in Hlen; lia|].
  clear IHtr0. rewrite length_app in Hlen. simpl in Hlen.
  apply Forall_app in Hready as [_ Hp]. inversion Hp as [|? ? [_ [W _]] _]; subst.
  rewrite final_state_snoc.
  exists (mat_of (self_x p0.2)), (mat_of (self_P p0.2)).
  unfold append_arrays, zero_arrays, recorded; simpl.
  rewrite !app_nil_r.
  replace (length zs - 1)%nat with (length tr0 + 0)%nat by lia.
  destruct uf; simpl; rewrite !map_app, !lookup_app_r, !length_map
                        by (rewrite length_map; lia);
    rewrite Nat.add_0_r, Nat.sub_diag; simpl;
    (repeat split; [apply (wf_x _ W) | apply (wf_P _ W)]).
Qed.

(** C10. [batch_filter] works on the instance itself: whenever it returns
    on [n >= 1] measurements ([Rs] absent or covering them), on any
    instance, the instance is the one that the manual run leaves, and
    entry [n - 1] of the means and covariances when
    [update_first = False], of the predicted means and covariances when
    [update_first = True], is the copy of its [x] and [P]: the value
    itself when it has the shape of its slot.  On a filter shaped as the
    data model says the entries are the stored [x] and [P]; and there
    [batch_filter] does return, on measurements that [np.size(zs, 0)]
    accepts, whenever the calls made by hand return, with these last
    entries. *)
Theorem batch_filter_ends_in_last_record :
  (forall s zs Rs uf a s',
     match Rs with
     | None => True
     | Some Rs => (length zs <= length Rs)%nat
     end ->
     (1 <= length zs)%nat ->
     batch_filter zs Rs uf s = Ok a s' ->
     manual uf (batch_inputs zs Rs) s = Ok tt s' /\
     (if uf then means_p a else means a) !! (length zs - 1)%nat
       = Some (stored (dx s) 1 (self_x s')) /\
     (if uf then covariances_p a else covariances a) !! (length zs - 1)%nat
       = Some (stored (dx s) (dx s) (self_P s'))) /\
  (forall m n v, shaped m n v -> Arr (stored m n v) = v) /\
  (forall s zs Rs uf a s',
     batch_ready s ->
     Forall (input_ok s) (batch_inputs zs Rs) ->
     match Rs with
     | None => True
     | Some Rs => (length zs <= length Rs)%nat
     end ->
     (1 <= length zs)%nat ->
     batch_filter zs Rs uf s = Ok a s' ->
     manual uf (batch_inputs zs Rs) s = Ok tt s' /\
     exists m c,
       (if uf then means_p a else means a) !! (length zs - 1)%nat = Some m /\
       (if uf then covariances_p a else covariances a) !! (length zs - 1)%nat
         = Some c /\
       self_x s' = Arr m /\ self_P s' = Arr c) /\
  (forall s zs Rs uf s_end,
     homogeneous zs ->
     batch_ready s ->
     Forall (input_ok s) (batch_inputs zs Rs) ->
     match Rs with
     | None => True
     | Some Rs => (length zs <= length Rs)%nat
     end ->
     (1 <= length zs)%nat ->
     manual uf (batch_inputs zs Rs) s = Ok tt s_end ->
     exists a m c,
       batch_filter zs Rs uf s = Ok a s_end /\
       (if uf then means_p a else means a) !! (length zs - 1)%nat = Some m /\
       (if uf then covariances_p a else covariances a) !! (length zs - 1)%nat
         = Some c /\
       self_x s_end = Arr m /\ self_P s_end = Arr c).
Proof.
  split; [|split; [exact stored_shaped|split]].
  - intros s zs Rs uf a s' HRs Hn Hb.
    pose proof (batch_inputs_full zs Rs HRs) as Hfull.
    apply batch_filter_returns in Hb
      as (tr & Etr & -> & L1 & L2 & L3 & L4 & Hsto).
    pose proof (trace_length uf _ s tr Etr) as Hlen. rewrite Hfull in Hlen.
    split; [apply manual_trace; eauto|].
    destruct tr as [|p tr0 _] using rev_ind; [simpl in Hlen; lia|].
    rewrite length_app in Hlen. simpl in Hlen.
    rewrite final_state_snoc.
    replace (length zs - 1)%nat with (length tr0) by lia.
    destruct (Hsto (length tr0) p) as (H1 & H2 & H3 & H4).
    { apply list_lookup_middle. reflexivity. }
    destruct uf; simpl in *; auto.
  - exact batch_filter_last_entries.
  - intros s zs Rs uf s_end Hzs Hs Hin HRs Hn Hman.
    pose proof (batch_filter_run zs Rs uf s Hzs Hs Hin) as Hrun.
    apply manual_trace in Hman as (tr & Etr & <-).
    rewrite Etr in Hrun.
    destruct (batch_filter_last_entries s zs Rs uf _ _ Hs Hin HRs Hn Hrun)
      as (_ & m & c & Hm & Hc & Hx & HP).
    eexists. exists m, c. split; [exact Hrun|].
    repeat (split; [assumption|]). assumption.
Qed.

Lemma batch_filter_ends_in_last_record_witness :
  (exists a s' m c,
     batch_filter [Some (arr [[q 3 1]]); Some (arr [[q 2 1]])] None false
       tracker = Ok a s' /\
     means a !! 1%nat = Some m /\ covariances a !! 1%nat = Some c /\
     self_x s' = Arr m /\ self_P s' = Arr c) /\
  (exists a s' m c,
     batch_filter [Some (arr [[q 3 1]]); Some (arr [[q 2 1]])] None true
       tracker = Ok a s' /\
     means_p a !! 1%nat = Some m /\ covariances_p a !! 1%nat = Some c /\
     self_x s' = Arr m /\ self_P s' = Arr c).
Proof.
  split.
  - destruct (proj2 (proj2 (proj2 batch_filter_ends_in_last_record)) tracker
                [Some (arr [[q 3 1]]); Some (arr [[q 2 1]])] None false
                (state_of (manual false
                   (batch_inputs [Some (arr [[q 3 1]]); Some (arr [[q 2 1]])]
                      None) tracker))
                eq_refl tracker_ready ltac:(inputs_ok) Logic.I
                (le_S 1 1 (le_n 1)))
      as (a & m & c & Ha & Hm & Hc & Hx & HP).
    + vm_compute. reflexivity.
    + exists a. eexists. exists m, c. split; [exact Ha|].
      split; [exact Hm|]. split; [exact Hc|]. split; [exact Hx | exact HP].
  - destruct (proj2 (proj2 (proj2 batch_filter_ends_in_last_record)) tracker
                [Some (arr [[q 3 1]]); Some (arr [[q 2 1]])] None true
                (state_of (manual true
                   (batch_inputs [Some (arr [[q 3 1]]); Some (arr [[q 2 1]])]
                      None) tracker))
                eq_refl tracker_ready ltac:(inputs_ok) Logic.I
                (le_S 1 1 (le_n 1)))
      as (a & m & c & Ha & Hm & Hc & Hx & HP).
    + vm_compute. reflexivity.
    + exists a. eexists. exists m, c. split; [exact Ha|].
      split; [exact Hm|]. split; [exact Hc|]. split; [exact Hx | exact HP].
Defined.

(** * Further properties of the code

    Properties of the methods beyond the statements of the
    specification: what a call assigns and what it leaves, the
    exceptions, the update in its standard form, and how the loops of
    [batch_filter] behave on short, split and failing inputs. *)

(** ** Linearity of the matrix product *)

Lemma shape_rows m n A : has_shape m n A -> nrows A = m.
Proof. intros (H & _). exact H. Qed.

Lemma shape_cols m n A : has_shape m n A -> ncols A = n.
Proof. intros (_ & H & _). exact H. Qed.

Lemma shape_wf m n A : has_shape m n A -> mat_wf A.
Proof. intros (_ & _ & H). exact H. Qed.

(** Two arrays of the same shape with the same entries are equal. *)
Lemma shape_ext m n A B :
  has_shape m n A -> has_shape m n B ->
  (forall i j, (i < m)%nat -> (j < n)%nat -> mget A i j = mget B i j) ->
  A = B.
Proof.
  intros (RA & CA & WA) (RB & CB & WB) E.
  apply mat_ext; try assumption; try congruence.
  intros i j Hi Hj. apply E; lia.
Qed.

Lemma mmul_madd_r m n p A B C :
  has_shape m n A -> has_shape n p B -> has_shape n p C ->
  mmul A (madd B C) = madd (mmul A B) (mmul A C).
Proof.
  intros SA SB SC.
  apply (shape_ext m p).
  - eapply mmul_shape; [eassumption|]. apply mmap2_shape. assumption.
  - apply mmap2_shape. eapply mmul_shape; eassumption.
  - intros i j Hi Hj.
    pose proof (shape_rows _ _ _ SA). pose proof (shape_cols _ _ _ SA).
    pose proof (shape_rows _ _ _ SB). pose proof (shape_cols _ _ _ SB).
    pose proof (shape_rows _ _ _ SC). pose proof (shape_cols _ _ _ SC).
    unfold madd.
    rewrite mget_mmap2 by (rewrite ?nrows_mmul, ?ncols_mmul; lia).
    rewrite !mget_mmul by (rewrite ?nrows_mmap2, ?ncols_mmap2; lia).
    rewrite <- sumn_plus. apply sumn_ext. intros k Hk.
    rewrite mget_mmap2 by lia. ring.
Qed.

Lemma mmul_msub_r m n p A B C :
  has_shape m n A -> has_shape n p B -> has_shape n p C ->
  mmul A (msub B C) = msub (mmul A B) (mmul A C).
Proof.
  intros SA SB SC.
  apply (shape_ext m p).
  - eapply mmul_shape; [eassumption|]. apply mmap2_shape. assumption.
  - apply mmap2_shape. eapply mmul_shape; eassumption.
  - intros i j Hi Hj.
    pose proof (shape_rows _ _ _ SA). pose proof (shape_cols _ _ _ SA).
    pose proof (shape_rows _ _ _ SB). pose proof (shape_cols _ _ _ SB).
    pose proof (shape_rows _ _ _ SC). pose proof (shape_cols _ _ _ SC).
    unfold msub.
    rewrite mget_mmap2 by (rewrite ?nrows_mmul, ?ncols_mmul; lia).
    rewrite !mget_mmul by (rewrite ?nrows_mmap2, ?ncols_mmap2; lia).
    rewrite <- sumn_minus. apply sumn_ext. intros k Hk.
    rewrite mget_mmap2 by lia. ring.
Qed.

Lemma mmul_msub_l m n p A B C :
  has_shape m n A -> has_shape m n B -> has_shape n p C ->
  mmul (msub A B) C = msub (mmul A C) (mmul B C).
Proof.
  intros SA SB SC.
  apply (shape_ext m p).
  - eapply mmul_shape; [|eassumption]. apply mmap2_shape. assumption.
  - apply mmap2_shape. eapply mmul_shape; eassumption.
  - intros i j Hi Hj.
    pose proof (shape_rows _ _ _ SA). pose proof (shape_cols _ _ _ SA).
    pose proof (shape_rows _ _ _ SB). pose proof (shape_cols _ _ _ SB).
    pose proof (shape_rows _ _ _ SC). pose proof (shape_cols _ _ _ SC).
    unfold msub.
    rewrite mget_mmap2 by (rewrite ?nrows_mmul, ?ncols_mmul; lia).
    rewrite !mget_mmul by (rewrite ?nrows_mmap2, ?ncols_mmap2; lia).
    rewrite ncols_mmap2.
    replace (ncols B) with (ncols A) by lia.
    rewrite <- sumn_minus. apply sumn_ext. intros k Hk.
    rewrite mget_mmap2 by lia. ring.
Qed.

Lemma mtrans_msub m n A B :
  has_shape m n A -> has_shape m n B ->
  mtrans (msub A B) = msub (mtrans A) (mtrans B).
Proof.
  intros (RA & CA & _) (RB & CB & _). apply mtrans_mmap2; congruence.
Qed.

(** [X + Y = Z] gives [Z - X = Y]. *)
Lemma madd_msub m n X Y Z :
  has_shape m n X -> has_shape m n Y -> has_shape m n Z ->
  madd X Y = Z -> msub Z X = Y.
Proof.
  intros SX SY SZ E. apply (shape_ext m n).
  - apply mmap2_shape. assumption.
  - assumption.
  - intros i j Hi Hj.
    pose proof (shape_rows _ _ _ SX). pose proof (shape_cols _ _ _ SX).
    pose proof (shape_rows _ _ _ SZ). pose proof (shape_cols _ _ _ SZ).
    unfold msub. rewrite mget_mmap2 by lia. rewrite <- E. unfold madd.
    rewrite mget_mmap2 by lia. ring.
Qed.

(** [(X - Y) + Y = X] *)
Lemma msub_madd m n X Y :
  has_shape m n X -> madd (msub X Y) Y = X.
Proof.
  intros SX. apply (shape_ext m n).
  - apply mmap2_shape, mmap2_shape. assumption.
  - assumption.
  - intros i j Hi Hj.
    pose proof (shape_rows _ _ _ SX). pose proof (shape_cols _ _ _ SX).
    unfold madd, msub.
    rewrite mget_mmap2 by (rewrite ?nrows_mmap2, ?ncols_mmap2; lia).
    rewrite mget_mmap2 by lia. ring.
Qed.

(** With the gain [K = P·Hᵗ·S⁻¹] of the filter, [K·S = P·Hᵗ] and the
    Joseph form [(I - K·H)·P·(I - K·H)ᵗ + K·R·Kᵗ] is [(I - K·H)·P]. *)
Lemma gain_equation nx nz Hm Pm Rm Si :
  has_shape nz nx Hm -> has_shape nx nx Pm -> has_shape nz nz Rm ->
  has_shape nz nz Si ->
  mmul Si (madd (mmul Hm (mmul Pm (mtrans Hm))) Rm) = meye nz ->
  mmul (mmul Pm (mmul (mtrans Hm) Si))
       (madd (mmul Hm (mmul Pm (mtrans Hm))) Rm)
  = mmul Pm (mtrans Hm).
Proof.
  intros SH SP SR SSi E.
  assert (SHT : has_shape nx nz (mtrans Hm)) by (apply mtrans_shape; assumption).
  assert (SS : has_shape nz nz (madd (mmul Hm (mmul Pm (mtrans Hm))) Rm)).
  { apply mmap2_shape. eapply mmul_shape; [eassumption|].
    eapply mmul_shape; eassumption. }
  set (S_ := madd _ Rm) in *.
  rewrite <- (mmul_assoc Pm);
    [| rewrite (shape_cols _ _ _ SP), nrows_mmul, (shape_rows _ _ _ SHT);
       reflexivity
     | rewrite ncols_mmul, (shape_cols _ _ _ SSi), (shape_rows _ _ _ SS);
       reflexivity].
  rewrite <- (mmul_assoc (mtrans Hm));
    [| rewrite (shape_cols _ _ _ SHT), (shape_rows _ _ _ SSi); reflexivity
     | rewrite (shape_cols _ _ _ SSi), (shape_rows _ _ _ SS); reflexivity].
  rewrite E, (mmul_meye_r nx nz) by assumption. reflexivity.
Qed.

Lemma joseph_standard_form nx nz Hm Pm Rm Si :
  has_shape nz nx Hm -> has_shape nx nx Pm -> has_shape nz nz Rm ->
  has_shape nz nz Si ->
  mmul Si (madd (mmul Hm (mmul Pm (mtrans Hm))) Rm) = meye nz ->
  let K := mmul Pm (mmul (mtrans Hm) Si) in
  let I_KH := msub (meye nx) (mmul K Hm) in
  madd (mmul I_KH (mmul Pm (mtrans I_KH))) (mmul K (mmul Rm (mtrans K)))
  = mmul I_KH Pm.
Proof.
  intros SH SP SR SSi E K I_KH.
  pose proof (gain_equation nx nz Hm Pm Rm Si SH SP SR SSi E) as EK.
  fold K in EK.
  assert (SHT : has_shape nx nz (mtrans Hm)) by (apply mtrans_shape; assumption).
  assert (SK : has_shape nx nz K).
  { eapply mmul_shape; [eassumption|]. eapply mmul_shape; eassumption. }
  assert (SKT : has_shape nz nx (mtrans K)) by (apply mtrans_shape; assumption).
  assert (SKH : has_shape nx nx (mmul K Hm)) by (eapply mmul_shape; eassumption).
  assert (SI : has_shape nx nx I_KH) by (apply mmap2_shape, meye_shape).
  assert (SPHT : has_shape nx nz (mmul Pm (mtrans Hm)))
    by (eapply mmul_shape; eassumption).
  assert (SHPHT : has_shape nz nz (mmul Hm (mmul Pm (mtrans Hm))))
    by (eapply mmul_shape; eassumption).
  assert (SKR : has_shape nx nz (mmul K Rm)) by (eapply mmul_shape; eassumption).
  (* the transpose of [I - K·H] *)
  assert (ET : mtrans I_KH = msub (meye nx) (mmul (mtrans Hm) (mtrans K))).
  { unfold I_KH. rewrite (mtrans_msub nx nx) by (assumption || apply meye_shape).
    rewrite meye_symmetric, mtrans_mmul; [reflexivity|].
    rewrite (shape_cols _ _ _ SK), (shape_rows _ _ _ SH). reflexivity. }
  assert (SHTKT : has_shape nx nx (mmul (mtrans Hm) (mtrans K)))
    by (eapply mmul_shape; eassumption).
  (* [P·(I - K·H)ᵗ = P - (P·Hᵗ)·Kᵗ] *)
  assert (E1 : mmul Pm (mtrans I_KH)
               = msub Pm (mmul (mmul Pm (mtrans Hm)) (mtrans K))).
  { rewrite ET, (mmul_msub_r nx nx nx) by (assumption || apply meye_shape).
    rewrite (mmul_meye_r nx nx) by assumption.
    rewrite (mmul_assoc Pm);
      [reflexivity
      | rewrite (shape_cols _ _ _ SP), (shape_rows _ _ _ SHT); reflexivity
      | rewrite (shape_cols _ _ _ SHT), (shape_rows _ _ _ SKT); reflexivity]. }
  (* [(I - K·H)·(P·Hᵗ) = P·Hᵗ - K·(H·P·Hᵗ) = K·R] *)
  assert (E2 : mmul I_KH (mmul Pm (mtrans Hm)) = mmul K Rm).
  { unfold I_KH.
    rewrite (mmul_msub_l nx nx nz) by (assumption || apply meye_shape).
    rewrite (mmul_meye_l nx);
      [| rewrite (shape_cols _ _ _ SPHT);
         destruct SPHT as (? & ? & ?); repeat split; assumption].
    rewrite <- (mmul_assoc K);
      [| rewrite (shape_cols _ _ _ SK), (shape_rows _ _ _ SH); reflexivity
       | rewrite (shape_cols _ _ _ SH), (shape_rows _ _ _ SPHT); reflexivity].
    apply (madd_msub nx nz); try assumption.
    - eapply mmul_shape; eassumption.
    - rewrite <- (mmul_madd_r nx nz nz) by assumption. exact EK. }
  rewrite E1.
  rewrite (mmul_msub_r nx nx nx);
    [| assumption | assumption | eapply mmul_shape; eassumption].
  rewrite (mmul_assoc I_KH (mmul Pm (mtrans Hm)));
    [| rewrite (shape_cols _ _ _ SI), (shape_rows _ _ _ SPHT); reflexivity
     | rewrite (shape_cols _ _ _ SPHT), (shape_rows _ _ _ SKT); reflexivity].
  rewrite E2.
  rewrite (mmul_assoc K Rm);
    [| rewrite (shape_cols _ _ _ SK), (shape_rows _ _ _ SR); reflexivity
     | rewrite (shape_cols _ _ _ SR), (shape_rows _ _ _ SKT); reflexivity].
  apply (msub_madd nx nx). eapply mmul_shape; eassumption.
Qed.

(** ** What a call assigns, and the exceptions it raises *)

Transparent predict update.

Lemma same_configuration_refl s : same_configuration s s.
Proof. repeat split. Qed.

Lemma same_configuration_trans s1 s2 s3 :
  same_configuration s1 s2 -> same_configuration s2 s3 ->
  same_configuration s1 s3.
Proof.
  unfold same_configuration. intros H1 H2.
  decompose [and] H1. decompose [and] H2. repeat split; congruence.
Qed.

(** The assignments that a call has made when it returns or raises. *)
Lemma predict_outcomes u s :
  match predict u s with
  | Ok _ s' => exists x P, s' = set_P P (set_x x s)
  | Err _ s' => s' = s \/ exists x, s' = set_x x s
  end.
Proof.
  unfold predict. run. crunch; eauto.
Qed.

Lemma update_outcomes z R s :
  match update (Some z) R s with
  | Ok _ s' =>
      exists y x P S_ K,
        s' = set_K K (set_S S_ (set_P P (set_x x (set_y y s))))
  | Err _ s' =>
      s' = s \/ exists y, s' = set_y y s \/ exists x, s' = set_x x (set_y y s)
  end.
Proof.
  unfold update. destruct R as [[k r|M]|]; run; crunch; eauto 10.
Qed.

Lemma run_call_configuration c s :
  same_configuration s (state_of (run_call c s)).
Proof.
  destruct c as [u|[z|] R]; unfold run_call.
  - pose proof (predict_outcomes u s) as H.
    destruct (predict u s) as [[] s'|e s']; simpl.
    + destruct H as (x & P & ->). repeat split.
    + destruct H as [->|(x & ->)]; repeat split.
  - pose proof (update_outcomes z R s) as H.
    destruct (update (Some z) R s) as [[] s'|e s']; simpl.
    + destruct H as (y & x & P & S_ & K & ->). repeat split.
    + destruct H as [->|(y & [->|(x & ->)])]; repeat split.
  - rewrite update_none. repeat split.
Qed.

Lemma after_calls_configuration cs : forall s,
  same_configuration s (after_calls cs s).
Proof.
  induction cs as [|c cs IH]; intros s.
  - apply same_configuration_refl.
  - simpl. eapply same_configuration_trans; [|apply IH].
    apply run_call_configuration.
Qed.

(** X1. [predict] and [update] assign only [x], [P] and the diagnostics
    [y], [S], [K]: along every sequence of calls, returned or raised,
    [alpha_sq], the dimensions, [Q], [B], [F], [H], [R] and [I] are the
    ones before; in particular an override [R] passed to [update] is
    not stored.  [predict] leaves [K], [y] and [S] as well. *)
Theorem calls_keep_configuration :
  (forall cs s, same_configuration s (after_calls cs s)) /\
  (forall u s,
     self_K (state_of (predict u s)) = self_K s /\
     self_y (state_of (predict u s)) = self_y s /\
     self_S (state_of (predict u s)) = self_S s).
Proof.
  split.
  - intros cs s. apply after_calls_configuration.
  - intros u s. pose proof (predict_outcomes u s) as H.
    destruct (predict u s) as [[] s'|e s']; simpl.
    + destruct H as (x & P & ->). repeat split.
    + destruct H as [->|(x & ->)]; repeat split.
Qed.

(** X2. An [update] that raises has assigned at most [y] and [x]: [P],
    [K] and [S] are the ones before the call.  A [predict] that raises
    has assigned at most [x]. *)
Theorem failed_call_leaves_covariance :
  (forall s z R e s',
     update (Some z) R s = Err e s' ->
     self_P s' = self_P s /\ self_K s' = self_K s /\ self_S s' = self_S s /\
     (s' = s \/
      exists y, s' = set_y y s \/ exists x, s' = set_x x (set_y y s))) /\
  (forall s u e s',
     predict u s = Err e s' ->
     self_P s' = self_P s /\ (s' = s \/ exists x, s' = set_x x s)).
Proof.
  split.
  - intros s z R e s' E. pose proof (update_outcomes z R s) as H.
    rewrite E in H.
    split; [|split; [|split; [|exact H]]];
      destruct H as [->|(y & [->|(x & ->)])]; reflexivity.
  - intros s u e s' E. pose proof (predict_outcomes u s) as H.
    rewrite E in H. split; [|exact H].
    destruct H as [->|(x & ->)]; reflexivity.
Qed.

Lemma failed_call_leaves_covariance_witness :
  self_P (state_of (update (Some (arr [[q 3 1]]))
                      (Some (Num PyNumber (q (-2) 1))) tracker))
  = self_P tracker.
Proof.
  refine (proj1 (proj1 failed_call_leaves_covariance tracker (arr [[q 3 1]])
            (Some (Num PyNumber (q (-2) 1))) LinAlgError _ _)).
  vm_compute. reflexivity.
Defined.

(** Name the exception of the expression that raised. *)
Ltac exn_of_raise :=
  match goal with
  | E : dot _ _ = Raise _ |- _ => apply dot_raises in E
  | E : dot3 _ _ _ = Raise _ |- _ => apply dot3_raises in E
  | E : np_add _ _ = Raise _ |- _ => apply np_add_raises in E
  | E : np_sub _ _ = Raise _ |- _ => apply np_sub_raises in E
  | E : np_mul _ _ = Raise _ |- _ => apply np_mul_raises in E
  | E : T _ = Raise _ |- _ => apply T_raises in E
  | E : eye _ = Raise _ |- _ => apply eye_raises in E
  | E : inv _ = Raise _ |- _ => apply inv_raises in E; destruct E as [E|E]
  end; subst; auto.

Lemma predict_raises u s e s' :
  predict u s = Err e s' -> e = ValueError \/ e = AttributeError.
Proof.
  unfold predict. run. crunch; try discriminate; intros [= <- <-];
    exn_of_raise.
Qed.

Lemma update_raises z R s e s' :
  update z R s = Err e s' ->
  e = ValueError \/ e = AttributeError \/ e = LinAlgError.
Proof.
  destruct z as [z|]; [|discriminate]. unfold update.
  destruct R as [[k r|M]|]; run; crunch; try discriminate;
    intros [= <- <-]; exn_of_raise.
Qed.

(** X3. [update(z, R)] stores in [y] the residual that [residual_of(z)]
    returns, whatever happens later in the call; when [residual_of(z)]
    raises, [update] raises the same exception and leaves the instance
    as it was.  ([dim_z >= 0], so that a scalar [R] is resolved.) *)
Theorem update_stores_residual s z R :
  (0 <= self_dim_z s)%Z ->
  match residual_of z s with
  | Ok y _ => self_y (state_of (update (Some z) R s)) = y
  | Err e _ => update (Some z) R s = Err e s
  end.
Proof.
  intros Hz. unfold residual_of, update.
  destruct R as [[k r|M]|]; run;
    rewrite ?eye_nonneg by assumption; simpl;
    rewrite ?np_mul_eye_num; simpl;
    (destruct (dot (self_H s) (self_x s)) as [Hx|e]; simpl; [|reflexivity]);
    (destruct (np_sub z Hx) as [y|e]; simpl; [|reflexivity]);
    crunch; reflexivity.
Qed.

Lemma update_stores_residual_witness :
  match residual_of (arr [[q 3 1]]) tracker with
  | Ok y _ =>
      self_y (state_of (update (Some (arr [[q 3 1]]))
                          (Some (Num PyNumber (q 1 4))) tracker)) = y
  | Err e _ =>
      update (Some (arr [[q 3 1]])) (Some (Num PyNumber (q 1 4))) tracker
      = Err e tracker
  end.
Proof.
  apply (update_stores_residual tracker (arr [[q 3 1]])
           (Some (Num PyNumber (q 1 4)))).
  vm_compute. discriminate.
Defined.

Lemma mscale_mzeros c m n : mscale c (mzeros m n) = mzeros m n.
Proof.
  apply (shape_ext m n).
  - apply mscale_shape, mzeros_shape.
  - apply mzeros_shape.
  - intros i j Hi Hj. unfold mscale, mzeros.
    rewrite nrows_build, ncols_build, !mget_build by assumption. ring.
Qed.

(** X4. The instance that the constructor returns is not a working
    filter: its [F], [B] and [H] are the number 0.  [predict()] and
    [get_prediction()] raise [AttributeError], since a Python number
    has no [.T], and leave the instance as constructed; [update(z)]
    never returns: it raises [ValueError] when [z] cannot be broadcast
    against a column of length [dim_x], and otherwise [AttributeError]
    after storing [y = z - 0]; [batch_filter] on a non-empty [zs]
    raises the exception of [np.size(zs, 0)] when that call rejects
    [zs], and otherwise [AttributeError] at its first [predict()]. *)
Theorem unconfigured_filter_raises alpha dim_x dim_z dim_u s0 :
  __init__ alpha dim_x dim_z dim_u = Val (Filter s0) ->
  predict u_default s0 = Err AttributeError s0 /\
  get_prediction u_default s0 = Err AttributeError s0 /\
  (forall z R,
     update (Some z) R s0
     = match np_sub z (Arr (mzeros (dx s0) 1)) with
       | Val y => Err AttributeError (set_y y s0)
       | Raise e => Err e s0
       end) /\
  (forall z zs,
     batch_filter (z :: zs) None false s0
     = Err match np_size0 (z :: zs) with
           | Val _ => AttributeError
           | Raise e => e
           end s0).
Proof.
  intros E. apply init_returns in E as (a & _ & _ & _ & Hx & Hz & Hu & Es).
  assert (EP : predict u_default s0 = Err AttributeError s0).
  { subst s0. unfold predict, u_default. run.
    rewrite dot_num_arr, mscale_mzeros. simpl.
    rewrite dot_num_num. simpl.
    rewrite (np_add_num_r (Z.to_nat dim_x)) by apply mzeros_shape. simpl.
    rewrite T_pynumber. simpl. unfold set_x. simpl. do 3 f_equal.
    apply (shape_ext (Z.to_nat dim_x) 1).
    - apply mmap2_shape, mzeros_shape.
    - apply mzeros_shape.
    - intros i j Hi Hj. unfold madd, mzeros.
      rewrite mget_mmap2 by (rewrite ?nrows_build, ?ncols_build; assumption).
      rewrite !mget_build by assumption. ring. }
  split; [exact EP|]. split; [rewrite get_prediction_predict, EP; reflexivity|].
  split.
  - intros z R. subst s0. unfold update. unfold dx. simpl.
    destruct R as [[k r|M]|]; run;
      rewrite ?eye_nonneg by lia; simpl; rewrite ?np_mul_eye_num; simpl;
      rewrite dot_num_arr, mscale_mzeros; simpl;
      (destruct (np_sub z _) as [y|e]; simpl; [|reflexivity]);
      rewrite T_pynumber; reflexivity.
  - intros z zs. unfold batch_filter. unfold mbind, M_bind, attr, eval.
    destruct (np_size0 (z :: zs)) as [n|e] eqn:En; [|reflexivity].
    apply np_size0_val in En as ->.
    rewrite !zeros3_nonneg by (subst s0; simpl; lia). simpl.
    unfold mbind, M_bind. rewrite EP. reflexivity.
Qed.

Lemma unconfigured_filter_raises_witness :
  predict u_default (construct 1 2 1 0)
  = Err AttributeError (construct 1 2 1 0).
Proof.
  refine (proj1 (unconfigured_filter_raises (Finite 1) 2 1 0
                   (construct 1 2 1 0) _)).
  vm_compute. reflexivity.
Defined.

(** X5. [predict()] without control input on a filter whose control
    matrix [B] has [du] columns: [B·0] is a zero array of [du] columns
    and NumPy broadcasts the sum, so [x] becomes an array of [du]
    columns, each equal to [F·x]; [P] is predicted as usual and every
    other attribute is kept.  When [du <> 1], [batch_filter] on
    measurements that [np.size(zs, 0)] accepts raises [ValueError] at
    its first assignment, on the instance that this [predict()] left. *)
Theorem predict_without_control_input s Bm du :
  filter_wf s -> self_B s = Arr Bm -> has_shape (dx s) du Bm ->
  let Fx := mmul (mat_of (self_F s)) (mat_of (self_x s)) in
  exists s1,
    predict u_default s = Ok tt s1 /\
    self_x s1 = Arr (build (dx s) du (fun i _ => mget Fx i 0)) /\
    self_P s1 = Arr (predicted_P s) /\
    self_K s1 = self_K s /\ self_y s1 = self_y s /\
    self_S s1 = self_S s /\ same_configuration s s1 /\
    (du <> 1%nat ->
     forall z zs,
       homogeneous (z :: zs) ->
       batch_filter (z :: zs) None false s = Err ValueError s1).
Proof.
  intros Hwf EB SB Fx.
  pose proof (predict_run_number s Bm du PyNumber 0 Hwf EB SB) as EP.
  fold u_default in EP. fold Fx in EP.
  assert (Ex : build (dx s) du (fun i j => mget Fx i 0 + mget Bm i j * 0)
               = build (dx s) du (fun i _ => mget Fx i 0))
    by (apply build_ext; intros i j Hi Hj; ring).
  rewrite Ex in EP.
  eexists. split; [exact EP|].
  do 6 (split; [reflexivity || (repeat split)|]).
  intros Hdu z zs Hzs.
  pose proof (wf_dim_x s Hwf) as Hdx.
  unfold batch_filter. run. rewrite Hzs. simpl.
  rewrite !zeros3_nonneg by lia. simpl.
  unfold mbind, M_bind. rewrite EP. unfold attr, eval. simpl.
  rewrite (setitem_misfit _ 0 (mzeros (Z.to_nat (self_dim_x s)) 1));
    [reflexivity | reflexivity | | ].
  - rewrite ncols_build. exact Hdu.
  - rewrite ncols_build. exact Hdu.
Qed.

Lemma predict_without_control_input_witness :
  exists s1 x1,
    predict u_default wide_tracker = Ok tt s1 /\
    self_x s1 = Arr x1 /\ ncols x1 = 2%nat /\
    batch_filter [Some (arr [[q 3 1]]); Some (arr [[q 2 1]])] None false
      wide_tracker = Err ValueError s1.
Proof.
  destruct (predict_without_control_input wide_tracker
              (mat_of (self_B wide_tracker)) 2 wide_tracker_wf eq_refl
              ltac:(shapes)) as (s1 & E1 & Ex & _ & _ & _ & _ & _ & E2).
  exists s1. eexists. split; [exact E1|]. split; [exact Ex|].
  split; [reflexivity|]. apply E2; [discriminate | reflexivity].
Defined.

Opaque predict update.

(** ** The update in its standard form *)

Lemma msub_self m n A : has_shape m n A -> msub A A = mzeros m n.
Proof.
  intros SA. apply (shape_ext m n).
  - apply mmap2_shape. assumption.
  - apply mzeros_shape.
  - intros i j Hi Hj.
    pose proof (shape_rows _ _ _ SA). pose proof (shape_cols _ _ _ SA).
    unfold msub, mzeros. rewrite mget_mmap2, mget_build by lia. ring.
Qed.

Lemma madd_mzeros_r m n A : has_shape m n A -> madd A (mzeros m n) = A.
Proof.
  intros SA. apply (shape_ext m n).
  - apply mmap2_shape. assumption.
  - assumption.
  - intros i j Hi Hj.
    pose proof (shape_rows _ _ _ SA). pose proof (shape_cols _ _ _ SA).
    unfold madd, mzeros. rewrite mget_mmap2, mget_build by lia. ring.
Qed.

(** X6. After an [update] that returns, on a filter of the data model,
    the stored gain and innovation covariance satisfy [K·S = P·Hᵗ], and
    the covariance that the Joseph form computes is [(I - K·H)·P], for
    the [P] and [H] before the call. *)
Theorem update_gives_standard_covariance s z R Rm s' :
  filter_wf s -> shaped (dz s) 1 z -> resolved_R s R Rm ->
  update (Some z) R s = Ok tt s' ->
  exists K,
    self_K s' = Arr K /\
    self_S s' = Arr (innovation_cov s Rm) /\
    mmul K (innovation_cov s Rm)
      = mmul (mat_of (self_P s)) (mtrans (mat_of (self_H s))) /\
    self_P s'
      = Arr (mmul (msub (meye (dx s)) (mmul K (mat_of (self_H s))))
                  (mat_of (self_P s))).
Proof.
  intros Hwf Hz HR. rewrite (update_run s z R Rm) by assumption.
  pose proof (resolved_R_shape s R Rm Hwf HR) as SR.
  pose proof (proj2 (wf_H s Hwf)) as SH.
  pose proof (proj2 (wf_P s Hwf)) as SP.
  assert (SS : has_shape (dz s) (dz s) (innovation_cov s Rm)).
  { apply mmap2_shape. eapply mmul_shape; [eassumption|].
    eapply mmul_shape; [eassumption|]. apply mtrans_shape. assumption. }
  destruct (minv (innovation_cov s Rm)) as [Si|] eqn:E; [|discriminate].
  intros [= <-].
  pose proof (minv_shape (dz s) _ Si (shape_rows _ _ _ SS) E) as SSi.
  pose proof (minv_left_inverse (dz s) _ Si SS E) as EL.
  exists (gain s Si). split; [reflexivity|]. split; [reflexivity|]. split.
  - exact (gain_equation (dx s) (dz s) _ _ Rm Si SH SP SR SSi EL).
  - simpl. f_equal.
    exact (joseph_standard_form (dx s) (dz s) _ _ Rm Si SH SP SR SSi EL).
Qed.

Lemma update_gives_standard_covariance_witness :
  exists K,
    self_P (state_of (update (Some (arr [[q 3 1]])) None tracker))
    = Arr (mmul (msub (meye 2) (mmul K (mat_of (self_H tracker))))
                (mat_of (self_P tracker))).
Proof.
  destruct (update_gives_standard_covariance tracker (arr [[q 3 1]]) None
              (mat_of (self_R tracker))
              (state_of (update (Some (arr [[q 3 1]])) None tracker))
              tracker_wf ltac:(shapes) (R_default tracker))
    as (K & _ & _ & _ & EP).
  - vm_compute. reflexivity.
  - exists K. exact EP.
Defined.

(** X7. A measurement equal to the one predicted for the current state,
    [z = measurement_of_state(x)], leaves [x] as it was when [update]
    returns, and the stored residual [y] is zero. *)
Theorem agreeing_measurement_keeps_state s z R Rm s' :
  filter_wf s -> resolved_R s R Rm ->
  measurement_of_state (self_x s) s = Ok z s ->
  update (Some z) R s = Ok tt s' ->
  self_x s' = self_x s /\ self_y s' = Arr (mzeros (dz s) 1).
Proof.
  intros Hwf HR.
  rewrite (measurement_of_state_run s (self_x s) 1 Hwf (wf_x s Hwf)).
  intros [= <-].
  pose proof (proj2 (wf_H s Hwf)) as SH.
  pose proof (proj2 (wf_P s Hwf)) as SP.
  pose proof (wf_x s Hwf) as [Ex Sx].
  pose proof (resolved_R_shape s R Rm Hwf HR) as SR.
  assert (SHx : has_shape (dz s) 1
                  (mmul (mat_of (self_H s)) (mat_of (self_x s))))
    by (eapply mmul_shape; eassumption).
  rewrite (update_run s _ R Rm Hwf (shaped_arr _ _ _ SHx) HR).
  assert (SS : has_shape (dz s) (dz s) (innovation_cov s Rm)).
  { apply mmap2_shape. eapply mmul_shape; [eassumption|].
    eapply mmul_shape; [eassumption|]. apply mtrans_shape. assumption. }
  destruct (minv (innovation_cov s Rm)) as [Si|] eqn:E; [|discriminate].
  intros [= <-].
  pose proof (minv_shape (dz s) _ Si (shape_rows _ _ _ SS) E) as SSi.
  assert (Ey : innovation s (mmul (mat_of (self_H s)) (mat_of (self_x s)))
               = mzeros (dz s) 1).
  { unfold innovation. apply msub_self. assumption. }
  unfold spec_update. simpl. rewrite Ey. split; [|reflexivity].
  rewrite (mmul_mzeros_r (dx s) (dz s) 1).
  - rewrite (madd_mzeros_r (dx s) 1) by assumption. symmetry. exact Ex.
  - eapply mmul_shape; [eassumption|]. eapply mmul_shape; [|eassumption].
    apply mtrans_shape. assumption.
Qed.

Lemma agreeing_measurement_keeps_state_witness :
  self_x (state_of (update (Some (arr [[0]])) None tracker)) = self_x tracker.
Proof.
  refine (proj1 (agreeing_measurement_keeps_state tracker (arr [[0]]) None
                   (mat_of (self_R tracker)) _ tracker_wf (R_default tracker)
                   _ _)).
  - vm_compute. reflexivity.
  - vm_compute. reflexivity.
Defined.

(** X8. [residual_of(measurement_of_state(v))] is [H·(v - x)] for a
    column [v] of length [dim_x]; at [v = x] it is the zero column. *)
Theorem residual_of_measurement_of_state s v :
  filter_wf s -> shaped (dx s) 1 v ->
  exists m,
    measurement_of_state v s = Ok (Arr m) s /\
    residual_of (Arr m) s
      = Ok (Arr (mmul (mat_of (self_H s))
                      (msub (mat_of v) (mat_of (self_x s))))) s /\
    (v = self_x s -> residual_of (Arr m) s = Ok (Arr (mzeros (dz s) 1)) s).
Proof.
  intros Hwf Hv.
  pose proof (proj2 (wf_H s Hwf)) as SH.
  pose proof (proj2 (wf_x s Hwf)) as Sx.
  pose proof (proj2 Hv) as Sv.
  assert (SHv : has_shape (dz s) 1 (mmul (mat_of (self_H s)) (mat_of v)))
    by (eapply mmul_shape; eassumption).
  assert (SHx : has_shape (dz s) 1
                  (mmul (mat_of (self_H s)) (mat_of (self_x s))))
    by (eapply mmul_shape; eassumption).
  exists (mmul (mat_of (self_H s)) (mat_of v)).
  split; [apply (measurement_of_state_run s v 1); assumption|].
  rewrite (residual_of_run s _ Hwf (shaped_arr _ _ _ SHv)).
  unfold innovation. simpl. split.
  - rewrite (mmul_msub_r (dz s) (dx s) 1) by assumption. reflexivity.
  - intros ->. rewrite (msub_self (dz s) 1) by assumption. reflexivity.
Qed.

Lemma residual_of_measurement_of_state_witness :
  exists m,
    measurement_of_state (self_x tracker) tracker = Ok (Arr m) tracker /\
    residual_of (Arr m) tracker = Ok (Arr (mzeros 1 1)) tracker.
Proof.
  destruct (residual_of_measurement_of_state tracker (self_x tracker)
              tracker_wf ltac:(shapes)) as (m & E1 & _ & E2).
  exists m. split; [exact E1 | exact (E2 eq_refl)].
Defined.

(** ** The data model along sequences of calls *)


Lemma call_ok_same s s' c :
  same_configuration s s' -> call_ok s c -> call_ok s' c.
Proof.
  intros (_ & Ex & Ez & _ & _ & EB & _) Hc.
  assert (Edx : dx s' = dx s) by (unfold dx; congruence).
  assert (Edz : dz s' = dz s) by (unfold dz; congruence).
  destruct c as [u|z R]; simpl in *.
  - destruct Hc as (ct & Hct). exists ct.
    eapply control_term_same; eassumption.
  - apply (input_ok_same s s' (z, R) Edz Hc).
Qed.

Lemma run_call_wf c s :
  filter_wf s -> call_ok s c -> filter_wf (state_of (run_call c s)).
Proof.
  intros Hwf Hc. destruct c as [u|[z|] R]; unfold run_call.
  - destruct Hc as (ct & Hct). rewrite (predict_run s u ct) by assumption.
    apply spec_predict_wf; [assumption|].
    eapply control_term_shape. eassumption.
  - destruct Hc as [Hz HR]. simpl in Hz.
    destruct (override_resolved s R HR) as (Rm & HRm).
    rewrite (update_run s z R Rm) by assumption.
    destruct (minv _) as [Si|] eqn:E; simpl.
    + apply spec_update_wf; [assumption|].
      eapply minv_shape; [|exact E].
      change (nrows (mat_of (self_H s)) = dz s). apply (wf_H s Hwf).
    + destruct Hwf. constructor; assumption.
  - rewrite update_none. exact Hwf.
Qed.

(** X9. The data model is an invariant of the two methods: from a filter
    shaped as it says, every sequence of [predict(u)] and [update(z, R)]
    calls with arguments of the prescribed shapes leaves such a filter,
    also when an [update] raises on a singular [S].  After an [update]
    that returns, [y], [S] and [K] have the shapes [(dim_z, 1)],
    [(dim_z, dim_z)] and [(dim_x, dim_z)]. *)
Theorem calls_keep_data_model :
  (forall cs s,
     filter_wf s -> Forall (call_ok s) cs -> filter_wf (after_calls cs s)) /\
  (forall s z R s',
     filter_wf s -> shaped (dz s) 1 z -> override_ok s R ->
     update (Some z) R s = Ok tt s' ->
     shaped (dz s) 1 (self_y s') /\
     shaped (dz s) (dz s) (self_S s') /\
     shaped (dx s) (dz s) (self_K s')).
Proof.
  split.
  - induction cs as [|c cs IH]; intros s Hwf Hcs; [exact Hwf|].
    inversion Hcs as [|c' cs' Hc Hcs' Eq]; subst. simpl. apply IH.
    + apply run_call_wf; assumption.
    + eapply Forall_impl; [|exact Hcs']. intros c'.
      apply call_ok_same, run_call_configuration.
  - intros s z R s' Hwf Hz HR.
    destruct (override_resolved s R HR) as (Rm & HRm).
    rewrite (update_run s z R Rm) by assumption.
    pose proof (resolved_R_shape s R Rm Hwf HRm) as SR.
    pose proof (proj2 (wf_H s Hwf)) as SH.
    pose proof (proj2 (wf_P s Hwf)) as SP.
    pose proof (proj2 (wf_x s Hwf)) as Sx.
    assert (SS : has_shape (dz s) (dz s) (innovation_cov s Rm)).
    { apply mmap2_shape. eapply mmul_shape; [eassumption|].
      eapply mmul_shape; [eassumption|]. apply mtrans_shape. assumption. }
    destruct (minv (innovation_cov s Rm)) as [Si|] eqn:E; [|discriminate].
    intros [= <-].
    pose proof (minv_shape (dz s) _ Si (shape_rows _ _ _ SS) E) as SSi.
    split; [|split]; apply shaped_arr.
    + apply mmap2_shape. exact (proj2 Hz).
    + exact SS.
    + eapply mmul_shape; [eassumption|]. eapply mmul_shape; [|eassumption].
      apply mtrans_shape. assumption.
Qed.

Lemma calls_keep_data_model_witness :
  filter_wf (after_calls
    [Predict u_default; Update (Some (arr [[q 3 1]])) None;
     Update None None; Predict (Num PyNumber 1);
     Update (Some (arr [[q 2 1]])) (Some (Num PyNumber (q (-2) 1)))]
    tracker).
Proof.
  refine (proj1 calls_keep_data_model _ tracker tracker_wf _).
  repeat (apply List.Forall_cons;
          [first [ eexists;
                   exact (control_number tracker PyNumber 0 PyNumber _ eq_refl)
                 | split; simpl; try exact Logic.I; shapes ]|]).
  apply List.Forall_nil.
Defined.

Lemma Qc_square_ge_1 a : 1 <= a -> 1 <= a ^ 2.
Proof.
  intros Ha. simpl.
  assert (H0 : 0 <= a) by (eapply Qcle_trans; [|exact Ha]; discriminate).
  apply Qcle_trans with (1 * a).
  - rewrite Qcmult_1_l. exact Ha.
  - rewrite Qcmult_1_r. apply Qcmult_le_compat_r; assumption.
Qed.

(** X10. What the constructor establishes stays: after every sequence
    of calls on a constructed instance, [alpha_sq] is [alpha²] and at
    least 1, [dim_x] and [dim_z] are the positive arguments, [dim_u] is
    not negative, and [I] is the identity of size [dim_x]. *)
Theorem constructed_invariants (alpha : Qc) dim_x dim_z dim_u s0 cs :
  __init__ (Finite alpha) dim_x dim_z dim_u = Val (Filter s0) ->
  let s := after_calls cs s0 in
  self_alpha_sq s = alpha ^ 2 /\ 1 <= self_alpha_sq s /\
  self_dim_x s = dim_x /\ (0 < self_dim_x s)%Z /\
  self_dim_z s = dim_z /\ (0 < self_dim_z s)%Z /\
  self_dim_u s = dim_u /\ (0 <= self_dim_u s)%Z /\
  self_I s = Arr (meye (dx s)).
Proof.
  intros E s.
  apply init_returns in E as (a & [= <-] & Ha & _ & Hx & Hz & Hu & Es).
  destruct (after_calls_configuration cs s0)
    as (Ea & Ex & Ez & Eu & _ & _ & _ & _ & _ & EI).
  fold s in Ea, Ex, Ez, Eu, EI. unfold dx.
  rewrite Ea, Ex, Ez, Eu, EI. subst s0. simpl.
  repeat split; try assumption. apply Qc_square_ge_1, Ha.
Qed.

Lemma constructed_invariants_witness :
  1 <= self_alpha_sq (after_calls [Predict u_default; Update None None]
                        (construct (q 11 10) 2 1 0)).
Proof.
  refine (proj1 (proj2 (constructed_invariants (q 11 10) 2 1 0
                          (construct (q 11 10) 2 1 0)
                          [Predict u_default; Update None None] _))).
  vm_compute. reflexivity.
Defined.

(** ** The loops of [batch_filter] on any instance *)

(** Split on the outcome of the next call or assignment of a loop body;
    when it raises, both sides of the goal are that exception. *)
Ltac loop_next :=
  match goal with
  | |- context [match predict ?u ?s with Ok _ _ => _ | Err _ _ => _ end] =>
      let E := fresh "Ep" in
      destruct (predict u s) as [[] ?|? ?] eqn:E; cbn beta iota;
      [|try reflexivity]
  | |- context [match update ?z ?r ?s with Ok _ _ => _ | Err _ _ => _ end] =>
      let E := fresh "Eu" in
      destruct (update z r s) as [[] ?|? ?] eqn:E; cbn beta iota;
      [|try reflexivity]
  | |- context [match setitem ?l ?i ?v with Val _ => _ | Raise _ => _ end] =>
      let E := fresh "Es" in
      destruct (setitem l i v) as [?|?] eqn:E; cbn beta iota;
      [|try reflexivity]
  end.

Ltac loop_body := unfold mbind, M_bind, attr, eval; repeat loop_next.

Lemma loop_predict_first_app zrs1 zrs2 : forall i a s,
  loop_predict_first i (zrs1 ++ zrs2) a s
  = match loop_predict_first i zrs1 a s with
    | Ok a' s' => loop_predict_first (i + length zrs1) zrs2 a' s'
    | Err e s' => Err e s'
    end.
Proof.
  induction zrs1 as [|[z r] rest IH]; intros i a s.
  - simpl. rewrite Nat.add_0_r. reflexivity.
  - cbn [app loop_predict_first length]. loop_body.
    rewrite IH. replace (S i + length rest)%nat with (i + S (length rest))%nat
      by lia.
    reflexivity.
Qed.

Lemma loop_update_first_app zrs1 zrs2 : forall i a s,
  loop_update_first i (zrs1 ++ zrs2) a s
  = match loop_update_first i zrs1 a s with
    | Ok a' s' => loop_update_first (i + length zrs1) zrs2 a' s'
    | Err e s' => Err e s'
    end.
Proof.
  induction zrs1 as [|[z r] rest IH]; intros i a s.
  - simpl. rewrite Nat.add_0_r. reflexivity.
  - cbn [app loop_update_first length]. loop_body.
    rewrite IH. replace (S i + length rest)%nat with (i + S (length rest))%nat
      by lia.
    reflexivity.
Qed.


(** Slots behind those that the loop visits are carried along. *)
Lemma loop_predict_first_pad zrs : forall i a pad s,
  has_room i (length zrs) a ->
  loop_predict_first i zrs (append_arrays a pad) s
  = match loop_predict_first i zrs a s with
    | Ok a' s' => Ok (append_arrays a' pad) s'
    | Err e s' => Err e s'
    end.
Proof.
  induction zrs as [|[z r] rest IH]; intros i a pad s (L1 & L2 & L3 & L4).
  - reflexivity.
  - cbn [loop_predict_first length append_arrays
         means covariances means_p covariances_p] in *.
    unfold mbind, M_bind, attr, eval.
    repeat (loop_next; rewrite ?setitem_app_l by lia).
    apply (IH (S i) {| means := _; covariances := _;
                       means_p := _; covariances_p := _ |} pad).
    unfold has_room. simpl.
    repeat match goal with
           | E : setitem _ _ _ = Val _ |- _ => apply setitem_length in E
           end.
    lia.
Qed.

Lemma loop_update_first_pad zrs : forall i a pad s,
  has_room i (length zrs) a ->
  loop_update_first i zrs (append_arrays a pad) s
  = match loop_update_first i zrs a s with
    | Ok a' s' => Ok (append_arrays a' pad) s'
    | Err e s' => Err e s'
    end.
Proof.
  induction zrs as [|[z r] rest IH]; intros i a pad s (L1 & L2 & L3 & L4).
  - reflexivity.
  - cbn [loop_update_first length append_arrays
         means covariances means_p covariances_p] in *.
    unfold mbind, M_bind, attr, eval.
    repeat (loop_next; rewrite ?setitem_app_l by lia).
    apply (IH (S i) {| means := _; covariances := _;
                       means_p := _; covariances_p := _ |} pad).
    unfold has_room. simpl.
    repeat match goal with
           | E : setitem _ _ _ = Val _ |- _ => apply setitem_length in E
           end.
    lia.
Qed.

(** Slots before those that the loop visits are carried along too. *)
Lemma loop_predict_first_shift zrs : forall k i pre a s,
  length (means pre) = k -> length (covariances pre) = k ->
  length (means_p pre) = k -> length (covariances_p pre) = k ->
  loop_predict_first (k + i) zrs (append_arrays pre a) s
  = match loop_predict_first i zrs a s with
    | Ok a' s' => Ok (append_arrays pre a') s'
    | Err e s' => Err e s'
    end.
Proof.
  induction zrs as [|[z r] rest IH]; intros k i pre a s L1 L2 L3 L4.
  - reflexivity.
  - cbn [loop_predict_first append_arrays
         means covariances means_p covariances_p] in *.
    unfold mbind, M_bind, attr, eval.
    repeat (loop_next; rewrite ?(setitem_app_r _ _ k) by assumption).
    replace (S (k + i)) with (k + S i)%nat by lia.
    apply (IH k (S i) pre {| means := _; covariances := _;
                             means_p := _; covariances_p := _ |});
      assumption.
Qed.

Lemma loop_update_first_shift zrs : forall k i pre a s,
  length (means pre) = k -> length (covariances pre) = k ->
  length (means_p pre) = k -> length (covariances_p pre) = k ->
  loop_update_first (k + i) zrs (append_arrays pre a) s
  = match loop_update_first i zrs a s with
    | Ok a' s' => Ok (append_arrays pre a') s'
    | Err e s' => Err e s'
    end.
Proof.
  induction zrs as [|[z r] rest IH]; intros k i pre a s L1 L2 L3 L4.
  - reflexivity.
  - cbn [loop_update_first append_arrays
         means covariances means_p covariances_p] in *.
    unfold mbind, M_bind, attr, eval.
    repeat (loop_next; rewrite ?(setitem_app_r _ _ k) by assumption).
    replace (S (k + i)) with (k + S i)%nat by lia.
    apply (IH k (S i) pre {| means := _; covariances := _;
                             means_p := _; covariances_p := _ |});
      assumption.
Qed.

Lemma predict_dim_x u s s' :
  predict u s = Ok tt s' -> self_dim_x s' = self_dim_x s.
Proof.
  intros E. pose proof (run_call_configuration (Predict u) s) as H.
  unfold run_call in H. rewrite E in H. apply H.
Qed.

Lemma update_dim_x z r s s' :
  update z r s = Ok tt s' -> self_dim_x s' = self_dim_x s.
Proof.
  intros E. pose proof (run_call_configuration (Update z r) s) as H.
  unfold run_call in H. rewrite E in H. apply H.
Qed.

(** A loop that returns leaves [dim_x] and the lengths of the arrays. *)
Lemma loop_predict_first_keeps zrs : forall i a s a' s',
  loop_predict_first i zrs a s = Ok a' s' ->
  self_dim_x s' = self_dim_x s /\
  length (means a') = length (means a) /\
  length (covariances a') = length (covariances a) /\
  length (means_p a') = length (means_p a) /\
  length (covariances_p a') = length (covariances_p a).
Proof.
  induction zrs as [|[z r] rest IH]; intros i a s a' s'.
  - intros [= <- <-]. repeat split.
  - cbn [loop_predict_first]. unfold mbind, M_bind, attr, eval.
    repeat (loop_next; try discriminate).
    intros H. apply IH in H. simpl in H.
    apply predict_dim_x in Ep. apply update_dim_x in Eu.
    repeat match goal with
           | E : setitem _ _ _ = Val _ |- _ => apply setitem_length in E
           end.
    repeat split; try congruence; lia.
Qed.

Lemma loop_update_first_keeps zrs : forall i a s a' s',
  loop_update_first i zrs a s = Ok a' s' ->
  self_dim_x s' = self_dim_x s /\
  length (means a') = length (means a) /\
  length (covariances a') = length (covariances a) /\
  length (means_p a') = length (means_p a) /\
  length (covariances_p a') = length (covariances_p a).
Proof.
  induction zrs as [|[z r] rest IH]; intros i a s a' s'.
  - intros [= <- <-]. repeat split.
  - cbn [loop_update_first]. unfold mbind, M_bind, attr, eval.
    repeat (loop_next; try discriminate).
    intros H. apply IH in H. simpl in H.
    apply predict_dim_x in Ep. apply update_dim_x in Eu.
    repeat match goal with
           | E : setitem _ _ _ = Val _ |- _ => apply setitem_length in E
           end.
    repeat split; try congruence; lia.
Qed.

(** [batch_filter] is the call of [np.size], then the allocation of the
    four arrays, then one of the two loops. *)
Lemma batch_filter_unfold zs Rs uf s :
  batch_filter zs Rs uf s
  = match np_size0 zs with
    | Raise e => Err e s
    | Val _ =>
        if bool_decide (0 <= self_dim_x s)%Z then
          if uf then
            loop_update_first 0 (batch_inputs zs Rs)
              (zero_arrays (dx s) (length zs)) s
          else
            loop_predict_first 0 (batch_inputs zs Rs)
              (zero_arrays (dx s) (length zs)) s
        else Err ValueError s
    end.
Proof.
  unfold batch_filter. unfold mbind, M_bind, attr, eval.
  destruct (np_size0 zs) as [n|e] eqn:En; [|reflexivity].
  apply np_size0_val in En as ->.
  destruct (bool_decide_reflect (0 <= self_dim_x s)%Z) as [H|H].
  - rewrite !zeros3_nonneg by (assumption || lia). simpl.
    destruct uf; reflexivity.
  - rewrite zeros3_negative by tauto. reflexivity.
Qed.

(** The body of [batch_filter] on measurements that [np.size] accepts,
    once the four arrays are allocated. *)
Lemma batch_filter_body zs Rs uf s :
  homogeneous zs ->
  batch_filter zs Rs uf s
  = if bool_decide (0 <= self_dim_x s)%Z then
      if uf then
        loop_update_first 0 (batch_inputs zs Rs)
          (zero_arrays (dx s) (length zs)) s
      else
        loop_predict_first 0 (batch_inputs zs Rs)
          (zero_arrays (dx s) (length zs)) s
    else Err ValueError s.
Proof. intros H. rewrite batch_filter_unfold, H. reflexivity. Qed.

Lemma zero_arrays_add nx n1 n2 :
  zero_arrays nx (n1 + n2)
  = append_arrays (zero_arrays nx n1) (zero_arrays nx n2).
Proof.
  unfold zero_arrays, append_arrays. simpl.
  rewrite !replicate_add. reflexivity.
Qed.

Lemma has_room_zero_arrays nx n k :
  (k <= n)%nat -> has_room 0 k (zero_arrays nx n).
Proof.
  intros H. unfold has_room, zero_arrays. simpl.
  rewrite !length_replicate. lia.
Qed.

Lemma zip_take_l {A B} (l : list A) (k : list B) :
  zip (take (length k) l) k = zip l k.
Proof.
  revert k. induction l as [|x l IH]; intros [|y k]; simpl;
    try reflexivity.
  f_equal. apply IH.
Qed.

Lemma zip_take_r {A B} (l : list A) (k : list B) :
  zip l (take (length l) k) = zip l k.
Proof.
  revert k. induction l as [|x l IH]; intros [|y k]; simpl;
    try reflexivity.
  f_equal. apply IH.
Qed.

(** X11. The loop of [batch_filter] runs over [zip(zs, Rs)], which stops
    at the shorter sequence.  With [Rs] shorter than [zs], on
    measurements that [np.size(zs, 0)] accepts, the call behaves as on
    the first [len(Rs)] measurements: the same calls, the same
    exception if one is raised, the same instance, and the rows of the
    measurements left out stay zero.  The entries of [Rs] beyond
    [len(zs)] are never read, whatever [zs] is. *)
Theorem Rs_bounds_the_loop zs Rs uf s :
  ((length Rs <= length zs)%nat ->
   homogeneous zs ->
   batch_filter zs (Some Rs) uf s
   = match batch_filter (take (length Rs) zs) (Some Rs) uf s with
     | Ok a s' =>
         Ok (append_arrays a
               (zero_arrays (dx s) (length zs - length Rs))) s'
     | Err e s' => Err e s'
     end) /\
  batch_filter zs (Some (take (length zs) Rs)) uf s
  = batch_filter zs (Some Rs) uf s.
Proof.
  split.
  - intros Hlen Hzs.
    rewrite !batch_filter_body by (try apply homogeneous_take; exact Hzs).
    destruct (bool_decide (0 <= self_dim_x s)%Z); [|reflexivity].
    unfold batch_inputs. rewrite zip_take_l.
    rewrite length_take. replace (length Rs `min` length zs) with (length Rs)
      by lia.
    assert (Hk : (length (zip zs Rs) <= length Rs)%nat)
      by (rewrite length_zip; lia).
    set (e := (length zs - length Rs)%nat).
    replace (length zs) with (length Rs + e)%nat by (unfold e; lia).
    rewrite zero_arrays_add.
    destruct uf.
    + apply loop_update_first_pad, has_room_zero_arrays, Hk.
    + apply loop_predict_first_pad, has_room_zero_arrays, Hk.
  - rewrite !batch_filter_unfold. unfold batch_inputs.
    rewrite zip_take_r. reflexivity.
Qed.

Lemma Rs_bounds_the_loop_witness :
  batch_filter [Some (arr [[q 3 1]]); Some (arr [[q 2 1]])]
    (Some [None]) false tracker
  = match batch_filter [Some (arr [[q 3 1]])] (Some [None]) false tracker with
    | Ok a s' => Ok (append_arrays a (zero_arrays 2 1)) s'
    | Err e s' => Err e s'
    end.
Proof.
  apply (proj1 (Rs_bounds_the_loop [Some (arr [[q 3 1]]); Some (arr [[q 2 1]])]
                  [None] false tracker)).
  - simpl. lia.
  - reflexivity.
Defined.

Lemma batch_inputs_app zs1 zs2 Rs1 Rs2 :
  length Rs1 = length zs1 ->
  batch_inputs (zs1 ++ zs2) (Some (Rs1 ++ Rs2))
  = batch_inputs zs1 (Some Rs1) ++ batch_inputs zs2 (Some Rs2).
Proof.
  intros H. unfold batch_inputs. apply zip_with_app. congruence.
Qed.

Lemma batch_inputs_app_None zs1 zs2 :
  batch_inputs (zs1 ++ zs2) None
  = batch_inputs zs1 None ++ batch_inputs zs2 None.
Proof.
  unfold batch_inputs. rewrite length_app, replicate_add.
  apply zip_with_app. rewrite length_replicate. reflexivity.
Qed.

(** Two batches in a row are one batch, when the first covers its
    measurements. *)
Lemma batches_compose uf zs1 zs2 Rs1 Rs2 Rs s :
  homogeneous (zs1 ++ zs2) ->
  batch_inputs (zs1 ++ zs2) Rs
  = batch_inputs zs1 Rs1 ++ batch_inputs zs2 Rs2 ->
  length (batch_inputs zs1 Rs1) = length zs1 ->
  batch_filter (zs1 ++ zs2) Rs uf s
  = match batch_filter zs1 Rs1 uf s with
    | Ok a1 s1 =>
        match batch_filter zs2 Rs2 uf s1 with
        | Ok a2 s2 => Ok (append_arrays a1 a2) s2
        | Err e s' => Err e s'
        end
    | Err e s' => Err e s'
    end.
Proof.
  intros Hzs Ein Hfull.
  pose proof (homogeneous_app zs1 zs2 Hzs) as [Hzs1 Hzs2].
  rewrite (batch_filter_body (zs1 ++ zs2)), Ein by assumption.
  rewrite (batch_filter_body zs1) by assumption.
  destruct (bool_decide (0 <= self_dim_x s)%Z) eqn:Hdx; [|reflexivity].
  rewrite length_app, zero_arrays_add.
  pose proof (length_batch_inputs zs2 Rs2) as H2.
  destruct uf.
  - rewrite loop_update_first_app.
    rewrite loop_update_first_pad by (apply has_room_zero_arrays; lia).
    destruct (loop_update_first 0 (batch_inputs zs1 Rs1) _ s)
      as [a1 s1|e s1] eqn:E1; [|reflexivity].
    apply loop_update_first_keeps in E1 as (Ex & L1 & L2 & L3 & L4).
    unfold zero_arrays in L1, L2, L3, L4. simpl in L1, L2, L3, L4.
    rewrite length_replicate in L1, L2, L3, L4.
    rewrite batch_filter_body by assumption. unfold dx. rewrite Ex, Hdx.
    rewrite Hfull.
    replace (0 + length zs1)%nat with (length zs1 + 0)%nat by lia.
    apply loop_update_first_shift; assumption.
  - rewrite loop_predict_first_app.
    rewrite loop_predict_first_pad by (apply has_room_zero_arrays; lia).
    destruct (loop_predict_first 0 (batch_inputs zs1 Rs1) _ s)
      as [a1 s1|e s1] eqn:E1; [|reflexivity].
    apply loop_predict_first_keeps in E1 as (Ex & L1 & L2 & L3 & L4).
    unfold zero_arrays in L1, L2, L3, L4. simpl in L1, L2, L3, L4.
    rewrite length_replicate in L1, L2, L3, L4.
    rewrite batch_filter_body by assumption. unfold dx. rewrite Ex, Hdx.
    rewrite Hfull.
    replace (0 + length zs1)%nat with (length zs1 + 0)%nat by lia.
    apply loop_predict_first_shift; assumption.
Qed.

(** X12. Filtering [zs1 ++ zs2] in one call, when [np.size] accepts
    that list, is filtering [zs1] and then [zs2] on the same instance:
    the rows are those of the two calls side by side, the instance at
    the end is the same, and when a step raises, the exception and the
    instance left are the same.  With overrides, [Rs1] has to cover
    [zs1]. *)
Theorem batch_filter_composes zs1 zs2 uf s :
  homogeneous (zs1 ++ zs2) ->
  batch_filter (zs1 ++ zs2) None uf s
  = match batch_filter zs1 None uf s with
    | Ok a1 s1 =>
        match batch_filter zs2 None uf s1 with
        | Ok a2 s2 => Ok (append_arrays a1 a2) s2
        | Err e s' => Err e s'
        end
    | Err e s' => Err e s'
    end /\
  forall Rs1 Rs2,
    length Rs1 = length zs1 ->
    batch_filter (zs1 ++ zs2) (Some (Rs1 ++ Rs2)) uf s
    = match batch_filter zs1 (Some Rs1) uf s with
      | Ok a1 s1 =>
          match batch_filter zs2 (Some Rs2) uf s1 with
          | Ok a2 s2 => Ok (append_arrays a1 a2) s2
          | Err e s' => Err e s'
          end
      | Err e s' => Err e s'
      end.
Proof.
  intros Hzs. split.
  - apply batches_compose.
    + exact Hzs.
    + apply batch_inputs_app_None.
    + apply batch_inputs_full. exact Logic.I.
  - intros Rs1 Rs2 H. apply batches_compose.
    + exact Hzs.
    + apply batch_inputs_app. exact H.
    + apply batch_inputs_full. simpl. lia.
Qed.

Lemma batch_filter_composes_witness :
  batch_filter ([Some (arr [[q 3 1]])] ++ [Some (arr [[q 2 1]])])
    (Some ([Some (Num PyNumber (q 1 4))] ++ [None])) true tracker
  = match batch_filter [Some (arr [[q 3 1]])]
            (Some [Some (Num PyNumber (q 1 4))]) true tracker with
    | Ok a1 s1 =>
        match batch_filter [Some (arr [[q 2 1]])] (Some [None]) true s1 with
        | Ok a2 s2 => Ok (append_arrays a1 a2) s2
        | Err e s' => Err e s'
        end
    | Err e s' => Err e s'
    end.
Proof.
  apply (proj2 (batch_filter_composes [Some (arr [[q 3 1]])]
                  [Some (arr [[q 2 1]])] true tracker eq_refl)).
  reflexivity.
Defined.

(** ** The exceptions of [batch_filter] *)

Lemma loop_predict_first_raises zrs : forall i a s e s',
  has_room i (length zrs) a ->
  loop_predict_first i zrs a s = Err e s' ->
  e = ValueError \/ e = AttributeError \/ e = LinAlgError.
Proof.
  induction zrs as [|[z r] rest IH]; intros i a s e s' (L1 & L2 & L3 & L4).
  - discriminate.
  - cbn [loop_predict_first length] in *.
    unfold mbind, M_bind, attr, eval.
    destruct (predict u_default s) as [[] s1|e1 s1] eqn:Ep.
    2:{ intros [= <- <-]. apply predict_raises in Ep. tauto. }
    destruct (setitem (means_p a) i (self_x s1)) as [mp|e1] eqn:E1.
    2:{ intros [= <- <-]. apply setitem_raises in E1; [auto | lia]. }
    destruct (setitem (covariances_p a) i (self_P s1)) as [cp|e1] eqn:E2.
    2:{ intros [= <- <-]. apply setitem_raises in E2; [auto | lia]. }
    destruct (update z r s1) as [[] s2|e1 s2] eqn:Eu.
    2:{ intros [= <- <-]. apply update_raises in Eu. exact Eu. }
    destruct (setitem (means a) i (self_x s2)) as [m|e1] eqn:E3.
    2:{ intros [= <- <-]. apply setitem_raises in E3; [auto | lia]. }
    destruct (setitem (covariances a) i (self_P s2)) as [c|e1] eqn:E4.
    2:{ intros [= <- <-]. apply setitem_raises in E4; [auto | lia]. }
    apply IH. unfold has_room. simpl.
    apply setitem_length in E1, E2, E3, E4. lia.
Qed.

Lemma loop_update_first_raises zrs : forall i a s e s',
  has_room i (length zrs) a ->
  loop_update_first i zrs a s = Err e s' ->
  e = ValueError \/ e = AttributeError \/ e = LinAlgError.
Proof.
  induction zrs as [|[z r] rest IH]; intros i a s e s' (L1 & L2 & L3 & L4).
  - discriminate.
  - cbn [loop_update_first length] in *.
    unfold mbind, M_bind, attr, eval.
    destruct (update z r s) as [[] s1|e1 s1] eqn:Eu.
    2:{ intros [= <- <-]. apply update_raises in Eu. exact Eu. }
    destruct (setitem (means a) i (self_x s1)) as [m|e1] eqn:E3.
    2:{ intros [= <- <-]. apply setitem_raises in E3; [auto | lia]. }
    destruct (setitem (covariances a) i (self_P s1)) as [c|e1] eqn:E4.
    2:{ intros [= <- <-]. apply setitem_raises in E4; [auto | lia]. }
    destruct (predict u_default s1) as [[] s2|e1 s2] eqn:Ep.
    2:{ intros [= <- <-]. apply predict_raises in Ep. tauto. }
    destruct (setitem (means_p a) i (self_x s2)) as [mp|e1] eqn:E1.
    2:{ intros [= <- <-]. apply setitem_raises in E1; [auto | lia]. }
    destruct (setitem (covariances_p a) i (self_P s2)) as [cp|e1] eqn:E2.
    2:{ intros [= <- <-]. apply setitem_raises in E2; [auto | lia]. }
    apply IH. unfold has_room. simpl.
    apply setitem_length in E1, E2, E3, E4. lia.
Qed.

(** X13. [batch_filter] never assigns outside its arrays: whatever the
    lengths of [zs] and [Rs] and whatever the instance, it does not
    raise [IndexError]; an exception that comes out of it, from
    [np.size], the allocation of the arrays, a call of [predict] or
    [update], or an assignment to a row, is [ValueError],
    [AttributeError] or [LinAlgError]. *)
Theorem batch_filter_never_indexes_out_of_range zs Rs uf s e s' :
  batch_filter zs Rs uf s = Err e s' ->
  e <> IndexError /\
  (e = ValueError \/ e = AttributeError \/ e = LinAlgError).
Proof.
  intros E.
  assert (H : e = ValueError \/ e = AttributeError \/ e = LinAlgError).
  { rewrite batch_filter_unfold in E.
    destruct (np_size0 zs) as [n|e0] eqn:En.
    2:{ injection E as <- _. left. eapply np_size0_raises, En. }
    destruct (bool_decide (0 <= self_dim_x s)%Z); cbn beta iota in E;
      [|injection E as <- _; auto].
    pose proof (length_batch_inputs zs Rs) as Hlen.
    destruct uf.
    - eapply loop_update_first_raises; [|exact E].
      apply has_room_zero_arrays, Hlen.
    - eapply loop_predict_first_raises; [|exact E].
      apply has_room_zero_arrays, Hlen. }
  split; [|exact H]. destruct H as [->|[->| ->]]; discriminate.
Qed.

Lemma batch_filter_never_indexes_out_of_range_witness :
  (exists s',
     batch_filter [Some (arr [[1]])] (Some [Some (Num PyNumber (-1)); None])
       false (scenario 1) = Err LinAlgError s') /\
  (exists s',
     batch_filter [Some (arr [[q 3 1]]); None] None false tracker
     = Err ValueError s') /\
  LinAlgError <> IndexError /\ ValueError <> IndexError.
Proof.
  split; [|split].
  - eexists. vm_compute. reflexivity.
  - eexists. vm_compute. reflexivity.
  - split.
    + refine (proj1 (batch_filter_never_indexes_out_of_range
                       [Some (arr [[1]])]
                       (Some [Some (Num PyNumber (-1)); None])
                       false (scenario 1) LinAlgError _ _)).
      vm_compute. reflexivity.
    + refine (proj1 (batch_filter_never_indexes_out_of_range
                       [Some (arr [[q 3 1]]); None] None
                       false tracker ValueError _ _)).
      vm_compute. reflexivity.
Defined.

(** ** A failing batch on a ready filter *)

Lemma loop_predict_first_fails zrs : forall s e d err s',
  batch_ready s -> Forall (input_ok s) zrs ->
  length (covariances d) = length (means d) ->
  length (means_p d) = length (means d) ->
  length (covariances_p d) = length (means d) ->
  manual false zrs s = Err err s' ->
  loop_predict_first (length (means d)) zrs
    (append_arrays d (zero_arrays (dx s) (length zrs + e))) s
  = Err err s'.
Proof.
  induction zrs as [|[z r] rest IH]; intros s e d err s' Hs Hin L1 L2 L3.
  - discriminate.
  - inversion Hin as [|zr' rest' [Hz Hr] Hin' Eq]; subst.
    simpl in Hz, Hr.
    destruct (predict_ready s Hs) as (s1 & E1 & Hs1 & X1 & Z1).
    cbn [manual first_call second_call loop_predict_first length Nat.add
         fst snd].
    rewrite !(bind_ok _ _ _ _ _ E1).
    cbn [append_arrays zero_arrays means covariances means_p covariances_p].
    rewrite <- X1.
    rewrite (record_run self_x (means_p d) (dx s1) 1)
      by (try apply (wf_x s1), Hs1; congruence).
    rewrite (record_run self_P (covariances_p d) (dx s1) (dx s1))
      by (try apply (wf_P s1), Hs1; congruence).
    destruct (update z r s1) as [[] s2|err2 s2] eqn:E2.
    2:{ rewrite !(bind_err _ _ _ _ _ E2). intros [= <- <-]. reflexivity. }
    rewrite !(bind_ok _ _ _ _ _ E2).
    assert (Hz1 : measurement_ok s1 z)
      by (destruct z; [simpl in *; rewrite Z1; assumption | exact Logic.I]).
    assert (Hr1 : override_ok s1 r)
      by (destruct r as [[|]|]; simpl in *; rewrite ?Z1; auto).
    destruct (update_ready s1 z r s2 Hs1 Hz1 Hr1 E2) as (Hs2 & X2 & Z2).
    rewrite <- X2.
    rewrite (record_run self_x (means d) (dx s2) 1)
      by (try apply (wf_x s2), Hs2; congruence).
    rewrite (record_run self_P (covariances d) (dx s2) (dx s2))
      by (try apply (wf_P s2), Hs2; congruence).
    intros Hm.
    set (d' := {| means := means d ++ [mat_of (self_x s2)];
                  covariances := covariances d ++ [mat_of (self_P s2)];
                  means_p := means_p d ++ [mat_of (self_x s1)];
                  covariances_p := covariances_p d ++ [mat_of (self_P s1)] |}).
    assert (Hin2 : Forall (input_ok s2) rest).
    { eapply Forall_impl; [|exact Hin']. intros zr. apply input_ok_same.
      congruence. }
    assert (IH' := IH s2 e d' err s' Hs2 Hin2).
    subst d'. cbn [means covariances means_p covariances_p] in IH'.
    rewrite !length_app, L1, L2, L3 in IH'.
    specialize (IH' eq_refl eq_refl eq_refl Hm).
    replace (length (means d) + length [mat_of (self_x s2)])%nat
      with (S (length (means d))) in IH' by (simpl; lia).
    unfold append_arrays, zero_arrays in IH' |- *.
    cbn [means covariances means_p covariances_p] in IH' |- *.
    exact IH'.
Qed.

Lemma loop_update_first_fails zrs : forall s e d err s',
  batch_ready s -> Forall (input_ok s) zrs ->
  length (covariances d) = length (means d) ->
  length (means_p d) = length (means d) ->
  length (covariances_p d) = length (means d) ->
  manual true zrs s = Err err s' ->
  loop_update_first (length (means d)) zrs
    (append_arrays d (zero_arrays (dx s) (length zrs + e))) s
  = Err err s'.
Proof.
  induction zrs as [|[z r] rest IH]; intros s e d err s' Hs Hin L1 L2 L3.
  - discriminate.
  - inversion Hin as [|zr' rest' [Hz Hr] Hin' Eq]; subst.
    simpl in Hz, Hr.
    cbn [manual first_call second_call loop_update_first length Nat.add
         fst snd].
    destruct (update z r s) as [[] s1|err1 s1] eqn:E1.
    2:{ rewrite !(bind_err _ _ _ _ _ E1). intros [= <- <-]. reflexivity. }
    rewrite !(bind_ok _ _ _ _ _ E1).
    destruct (update_ready s z r s1 Hs Hz Hr E1) as (Hs1 & X1 & Z1).
    destruct (predict_ready s1 Hs1) as (s2 & E2 & Hs2 & X2 & Z2).
    rewrite (bind_ok _ _ _ _ _ E2).
    cbn [append_arrays zero_arrays means covariances means_p covariances_p].
    rewrite <- X1.
    rewrite (record_run self_x (means d) (dx s1) 1)
      by (try apply (wf_x s1), Hs1; congruence).
    rewrite (record_run self_P (covariances d) (dx s1) (dx s1))
      by (try apply (wf_P s1), Hs1; congruence).
    rewrite (bind_ok _ _ _ _ _ E2).
    rewrite <- X2.
    rewrite (record_run self_x (means_p d) (dx s2) 1)
      by (try apply (wf_x s2), Hs2; congruence).
    rewrite (record_run self_P (covariances_p d) (dx s2) (dx s2))
      by (try apply (wf_P s2), Hs2; congruence).
    intros Hm.
    set (d' := {| means := means d ++ [mat_of (self_x s1)];
                  covariances := covariances d ++ [mat_of (self_P s1)];
                  means_p := means_p d ++ [mat_of (self_x s2)];
                  covariances_p := covariances_p d ++ [mat_of (self_P s2)] |}).
    assert (Hin2 : Forall (input_ok s2) rest).
    { eapply Forall_impl; [|exact Hin']. intros zr. apply input_ok_same.
      congruence. }
    assert (IH' := IH s2 e d' err s' Hs2 Hin2).
    subst d'. cbn [means covariances means_p covariances_p] in IH'.
    rewrite !length_app, L1, L2, L3 in IH'.
    specialize (IH' eq_refl eq_refl eq_refl Hm).
    replace (length (means d) + length [mat_of (self_x s1)])%nat
      with (S (length (means d))) in IH' by (simpl; lia).
    unfold append_arrays, zero_arrays in IH' |- *.
    cbn [means covariances means_p covariances_p] in IH' |- *.
    exact IH'.
Qed.

(** On a ready filter a manual run fails only in [linalg.inv]. *)
Lemma manual_fails_singular uf zrs : forall s err s',
  batch_ready s -> Forall (input_ok s) zrs ->
  manual uf zrs s = Err err s' -> err = LinAlgError.
Proof.
  induction zrs as [|zr rest IH]; intros s err s' Hs Hin.
  - discriminate.
  - inversion Hin as [|zr' rest' Hzr Hin' Eq]; subst.
    assert (Hstep : forall c s0 e0 s0',
              batch_ready s0 -> input_ok s0 zr ->
              (c = predict u_default \/ c = update zr.1 zr.2) ->
              c s0 = Err e0 s0' -> e0 = LinAlgError).
    { intros c s0 e0 s0' Hs0 [Hz Hr] [->| ->] E.
      - destruct (predict_ready s0 Hs0) as (s1 & E1 & _). congruence.
      - destruct zr as [[z|] r]; simpl in *.
        + destruct (override_resolved s0 r Hr) as (Rm & HRm).
          rewrite (update_run s0 z r Rm (proj1 Hs0) Hz HRm) in E.
          destruct (minv _); congruence.
        + rewrite update_none in E. discriminate. }
    cbn [manual]. unfold mbind, M_bind.
    destruct (first_call uf zr s) as [[] s1|e1 s1] eqn:E1.
    2:{ intros [= <- <-]. apply (Hstep _ s e1 s1 Hs Hzr) in E1; [exact E1|].
        destruct uf; auto. }
    destruct (first_call_ready uf zr s s1 Hs Hzr E1) as (Hs1 & X1 & Z1).
    assert (Hzr1 : input_ok s1 zr) by (eapply input_ok_same; eassumption).
    destruct (second_call uf zr s1) as [[] s2|e2 s2] eqn:E2.
    2:{ intros [= <- <-]. apply (Hstep _ s1 e2 s2 Hs1 Hzr1) in E2; [exact E2|].
        destruct uf; auto. }
    destruct (second_call_ready uf zr s1 s2 Hs1 Hzr1 E2) as (Hs2 & X2 & Z2).
    apply IH; [assumption|].
    eapply Forall_impl; [|exact Hin']. intros a. apply input_ok_same.
    congruence.
Qed.

Lemma batch_filter_fails zs Rs uf s err s' :
  homogeneous zs ->
  batch_ready s -> Forall (input_ok s) (batch_inputs zs Rs) ->
  manual uf (batch_inputs zs Rs) s = Err err s' ->
  batch_filter zs Rs uf s = Err err s'.
Proof.
  intros Hzs Hs Hin Hm. pose proof (length_batch_inputs zs Rs) as Hlen.
  pose proof (Z.lt_le_incl _ _ (wf_dim_x s (proj1 Hs))) as Hdx.
  rewrite batch_filter_body, bool_decide_eq_true_2 by assumption.
  set (empty := {| means := []; covariances := [];
                   means_p := []; covariances_p := [] |}).
  set (e := (length zs - length (batch_inputs zs Rs))%nat).
  replace (length zs) with (length (batch_inputs zs Rs) + e)%nat
    by (unfold e; lia).
  destruct uf.
  - exact (loop_update_first_fails (batch_inputs zs Rs) s e empty err s' Hs Hin
             eq_refl eq_refl eq_refl Hm).
  - exact (loop_predict_first_fails (batch_inputs zs Rs) s e empty err s' Hs Hin
             eq_refl eq_refl eq_refl Hm).
Qed.

(** X14. On a filter ready for [batch_filter], with inputs of the data
    model and measurements that [np.size(zs, 0)] accepts,
    [batch_filter] raises exactly when the calls made by hand raise:
    with the same exception, and leaving the same instance, so the
    steps made before the failure are not undone.  The exception is the
    [LinAlgError] of a singular [S]. *)
Theorem batch_filter_fails_as_manual zs Rs uf s :
  homogeneous zs ->
  batch_ready s -> Forall (input_ok s) (batch_inputs zs Rs) ->
  forall err s',
    (batch_filter zs Rs uf s = Err err s' <->
     manual uf (batch_inputs zs Rs) s = Err err s') /\
    (batch_filter zs Rs uf s = Err err s' -> err = LinAlgError).
Proof.
  intros Hzs Hs Hin err s'.
  assert (H : batch_filter zs Rs uf s = Err err s' ->
              manual uf (batch_inputs zs Rs) s = Err err s').
  { intros E.
    destruct (manual uf (batch_inputs zs Rs) s) as [[] s2|err2 s2] eqn:Hm.
    - apply manual_trace in Hm as (tr & Et & _).
      pose proof (batch_filter_run zs Rs uf s Hzs Hs Hin) as Hrun.
      rewrite Et in Hrun. congruence.
    - apply batch_filter_fails in Hm; try assumption. congruence. }
  split; [split; [exact H | apply batch_filter_fails; assumption]|].
  intros E. eapply manual_fails_singular; [exact Hs | exact Hin | exact (H E)].
Qed.

Lemma batch_filter_fails_as_manual_witness :
  exists s',
    batch_filter [Some (arr [[1]]); Some (arr [[1]])]
      (Some [None; Some (Num PyNumber (q (-1) 2))]) false (scenario 1)
    = Err LinAlgError s' /\
    self_x s' = arr [[q 1 2]] /\ self_P s' = arr [[q 1 2]].
Proof.
  eexists. split.
  - apply (proj1 (batch_filter_fails_as_manual
                    [Some (arr [[1]]); Some (arr [[1]])]
                    (Some [None; Some (Num PyNumber (q (-1) 2))]) false
                    (scenario 1) eq_refl scenario_ready ltac:(inputs_ok)
                    LinAlgError _)).
    vm_compute. reflexivity.
  - split; apply value_eqb_eq; vm_compute; reflexivity.
Defined.

(** ** Rows of [batch_filter] *)

(** X15. The rows of a missing measurement, [zs[i] = None].  With
    [update_first = False] the row [i] of the means and covariances
    repeats the row [i] of the predictions.  With [update_first = True]
    it repeats the row [i - 1] of the predictions, and for [i = 0] it
    holds the [x] and [P] the instance had before the call. *)
Theorem missing_measurement_rows zs Rs s a s' i :
  match Rs with
  | None => True
  | Some Rs => (length zs <= length Rs)%nat
  end ->
  zs !! i = Some None ->
  (batch_filter zs Rs false s = Ok a s' ->
   means a !! i = means_p a !! i /\
   covariances a !! i = covariances_p a !! i) /\
  (batch_filter zs Rs true s = Ok a s' ->
   match i with
   | O =>
       means a !! 0%nat = Some (stored (dx s) 1 (self_x s)) /\
       covariances a !! 0%nat = Some (stored (dx s) (dx s) (self_P s))
   | S j =>
       means a !! i = means_p a !! j /\
       covariances a !! i = covariances_p a !! j
   end).
Proof.
  intros HRs Hi.
  pose proof (batch_inputs_full zs Rs HRs) as Hfull.
  pose proof (lookup_lt_Some _ _ _ Hi) as Hlt.
  split; intros E.
  - apply batch_filter_returns in E as (tr & Et & _ & _ & _ & _ & _ & Hrows).
    pose proof (trace_length _ _ _ _ Et) as Htr.
    destruct (lookup_lt_is_Some_2 tr i) as [p Hp]; [lia|].
    destruct (trace_lookup _ _ _ _ _ _ Et Hp)
      as (zr & s_i & Hzr & _ & _ & E2 & _).
    destruct (batch_inputs_lookup _ _ _ _ Hzr) as [Hz _].
    rewrite Hi in Hz. injection Hz as Hz.
    unfold second_call in E2. rewrite <- Hz, update_none in E2.
    injection E2 as E2.
    destruct (Hrows i p Hp) as (-> & -> & -> & ->).
    unfold after_update, after_predict. rewrite <- E2. split; reflexivity.
  - apply batch_filter_returns in E as (tr & Et & _ & _ & _ & _ & _ & Hrows).
    pose proof (trace_length _ _ _ _ Et) as Htr.
    destruct (lookup_lt_is_Some_2 tr i) as [p Hp]; [lia|].
    destruct (trace_lookup _ _ _ _ _ _ Et Hp)
      as (zr & s_i & Hzr & Em & E1 & _ & _).
    destruct (batch_inputs_lookup _ _ _ _ Hzr) as [Hz _].
    rewrite Hi in Hz. injection Hz as Hz.
    unfold first_call in E1. rewrite <- Hz, update_none in E1.
    injection E1 as E1.
    destruct (Hrows i p Hp) as (Hm & Hc & _ & _).
    unfold after_update in Hm, Hc. rewrite <- E1 in Hm, Hc.
    destruct i as [|j].
    + simpl in Em. injection Em as <-. split; assumption.
    + destruct (lookup_lt_is_Some_2 tr j) as [p' Hp']; [lia|].
      destruct (trace_lookup _ _ _ _ _ _ Et Hp')
        as (zr' & s_j & _ & _ & _ & _ & Em').
      rewrite Em in Em'. injection Em' as Em'.
      destruct (Hrows j p' Hp') as (_ & _ & -> & ->).
      unfold after_predict. rewrite <- Em'. split; assumption.
Qed.

Lemma missing_measurement_rows_witness :
  (exists a s',
     batch_filter [Some (Num PyNumber (q 3 1)); None] None false tracker
     = Ok a s' /\
     means a !! 1%nat = means_p a !! 1%nat) /\
  (exists a s',
     batch_filter [Some (Num PyNumber (q 3 1)); None] None true tracker
     = Ok a s' /\
     means a !! 1%nat = means_p a !! 0%nat).
Proof.
  split.
  - destruct (batch_filter [Some (Num PyNumber (q 3 1)); None] None false
                tracker) as [a s'|e s'] eqn:E.
    + exists a, s'. split; [reflexivity|].
      exact (proj1 (proj1 (missing_measurement_rows
                             [Some (Num PyNumber (q 3 1)); None] None tracker
                             a s' 1 Logic.I eq_refl) E)).
    + vm_compute in E. discriminate.
  - destruct (batch_filter [Some (Num PyNumber (q 3 1)); None] None true
                tracker) as [a s'|e s'] eqn:E.
    + exists a, s'. split; [reflexivity|].
      exact (proj1 (proj2 (missing_measurement_rows
                             [Some (Num PyNumber (q 3 1)); None] None tracker
                             a s' 1 Logic.I eq_refl) E)).
    + vm_compute in E. discriminate.
Defined.

(** ** The two orders of [batch_filter] *)

Lemma final_state_cons p tr s : final_state (p :: tr) s = final_state tr p.2.
Proof. reflexivity. Qed.

(** The calls of a predict-first run from [s] are [predict()] followed by
    the calls of the update-first run from the predicted instance, up
    to the last [predict()]. *)
Lemma trace_shift zrs : forall s s0 tr tr',
  predict u_default s = Ok tt s0 ->
  trace false zrs s = Some tr -> trace true zrs s0 = Some tr' ->
  predict u_default (final_state tr s) = Ok tt (final_state tr' s0) /\
  (forall i p p', tr !! i = Some p -> tr' !! i = Some p' -> p'.1 = p.2) /\
  (forall i p' q, tr' !! i = Some p' -> tr !! (S i) = Some q -> q.1 = p'.2).
Proof.
  induction zrs as [|zr rest IH]; intros s s0 tr tr' Ep Et Et'.
  - injection Et as <-. injection Et' as <-.
    split; [exact Ep|]. split; intros i p p'; discriminate.
  - apply trace_cons_inv in Et as (s1 & s2 & trr & E1 & E2 & Er & ->).
    apply trace_cons_inv in Et' as (t1 & t2 & trr' & E1' & E2' & Er' & ->).
    unfold first_call, second_call in *.
    rewrite Ep in E1. injection E1 as <-.
    rewrite E2 in E1'. injection E1' as <-.
    destruct (IH s2 t2 trr trr' E2' Er Er') as (Hf & Hrow & Hshift).
    split; [exact Hf|]. split.
    + intros [|i] p p' Hp Hp'; simpl in Hp, Hp'.
      * injection Hp as <-. injection Hp' as <-. reflexivity.
      * eapply Hrow; eassumption.
    + intros [|i] p' q Hp' Hq; simpl in Hp', Hq.
      * injection Hp' as <-.
        destruct (trace_lookup _ _ _ _ _ _ Er Hq)
          as (zr' & s_i & _ & Em & Eq & _).
        simpl in Em. injection Em as <-.
        unfold first_call in Eq. simpl. congruence.
      * eapply Hshift; eassumption.
Qed.

(** X16. The two orders of [batch_filter] differ by one [predict()]:
    when [predict()] takes [s] to [s0], the predict-first batch from
    [s] and the update-first batch from [s0] return the same means and
    covariances, the predictions of the second are those of the first
    moved up by one row, and one more [predict()] takes the instance
    that the first leaves to the instance that the second leaves. *)
Theorem update_first_shifts_the_batch zs Rs s s0 a s1 b s2 :
  match Rs with
  | None => True
  | Some Rs => (length zs <= length Rs)%nat
  end ->
  predict u_default s = Ok tt s0 ->
  batch_filter zs Rs false s = Ok a s1 ->
  batch_filter zs Rs true s0 = Ok b s2 ->
  predict u_default s1 = Ok tt s2 /\
  means b = means a /\ covariances b = covariances a /\
  forall i, (S i < length zs)%nat ->
    means_p b !! i = means_p a !! (S i) /\
    covariances_p b !! i = covariances_p a !! (S i).
Proof.
  intros HRs Ep Ea Eb.
  pose proof (batch_inputs_full zs Rs HRs) as Hfull.
  assert (Ex : dx s0 = dx s) by (unfold dx; f_equal; eapply predict_dim_x, Ep).
  apply batch_filter_returns in Ea
    as (tr & Et & -> & La1 & La2 & La3 & La4 & Ha).
  apply batch_filter_returns in Eb
    as (tr' & Et' & -> & Lb1 & Lb2 & Lb3 & Lb4 & Hb).
  pose proof (trace_length _ _ _ _ Et) as Ltr.
  pose proof (trace_length _ _ _ _ Et') as Ltr'.
  destruct (trace_shift _ _ _ _ _ Ep Et Et') as (Hf & Hrow & Hshift).
  split; [exact Hf|].
  assert (Hsame : forall i,
            means b !! i = means a !! i /\
            covariances b !! i = covariances a !! i).
  { intros i. destruct (Nat.lt_ge_cases i (length zs)) as [Hi|Hi].
    - destruct (lookup_lt_is_Some_2 tr i) as [p Hp]; [lia|].
      destruct (lookup_lt_is_Some_2 tr' i) as [p' Hp']; [lia|].
      destruct (Ha i p Hp) as (-> & -> & _ & _).
      destruct (Hb i p' Hp') as (-> & -> & _ & _).
      unfold after_update. rewrite (Hrow i p p' Hp Hp'), Ex.
      split; reflexivity.
    - rewrite !lookup_ge_None_2 by lia. split; reflexivity. }
  split; [apply list_eq; intros i; apply Hsame|].
  split; [apply list_eq; intros i; apply Hsame|].
  intros i Hi.
  destruct (lookup_lt_is_Some_2 tr (S i)) as [q Hq]; [lia|].
  destruct (lookup_lt_is_Some_2 tr' i) as [p' Hp']; [lia|].
  destruct (Ha (S i) q Hq) as (_ & _ & -> & ->).
  destruct (Hb i p' Hp') as (_ & _ & -> & ->).
  unfold after_predict. rewrite (Hshift i p' q Hp' Hq), Ex.
  split; reflexivity.
Qed.

Lemma update_first_shifts_the_batch_witness :
  exists s0 a s1 b s2,
    predict u_default tracker = Ok tt s0 /\
    batch_filter [Some (arr [[q 3 1]]); Some (arr [[q 2 1]])] None false
      tracker = Ok a s1 /\
    batch_filter [Some (arr [[q 3 1]]); Some (arr [[q 2 1]])] None true
      s0 = Ok b s2 /\
    means b = means a.
Proof.
  destruct (predict u_default tracker) as [[] s0|e s0] eqn:Ep.
  2:{ vm_compute in Ep. discriminate. }
  destruct (batch_filter [Some (arr [[q 3 1]]); Some (arr [[q 2 1]])] None
              false tracker)
    as [a s1|e s1] eqn:Ea.
  2:{ vm_compute in Ea. discriminate. }
  destruct (batch_filter [Some (arr [[q 3 1]]); Some (arr [[q 2 1]])] None
              true s0)
    as [b s2|e s2] eqn:Eb.
  2:{ assert (Es : s0 = state_of (predict u_default tracker))
        by (rewrite Ep; reflexivity).
      rewrite Es in Eb. vm_compute in Eb. discriminate. }
  exists s0, a, s1, b, s2.
  split; [reflexivity|]. split; [reflexivity|]. split; [exact Eb|].
  exact (proj1 (proj2 (update_first_shifts_the_batch _ None _ _ _ _ _ _
                         Logic.I Ep Ea Eb))).
Defined.

(** ** A number stored in [R] *)

Transparent update.

Lemma update_run_number_R s z k r :
  filter_wf s -> shaped (dz s) 1 z ->
  let Hm := mat_of (self_H s) in
  let Pm := mat_of (self_P s) in
  let S_ := build (dz s) (dz s)
              (fun i j => mget (mmul Hm (mmul Pm (mtrans Hm))) i j + r) in
  update (Some z) None (set_R (Num k r) s)
  = match minv S_ with
    | Some Si =>
        let y := innovation s (mat_of z) in
        let K := gain s Si in
        let I_KH := msub (meye (dx s)) (mmul K Hm) in
        Ok tt
          (set_K (Arr K)
             (set_S (Arr S_)
                (set_P (Arr (madd (mmul I_KH (mmul Pm (mtrans I_KH)))
                                  (mmul K (mscale r (mtrans K)))))
                   (set_x (Arr (madd (mat_of (self_x s)) (mmul K y)))
                      (set_y (Arr y) (set_R (Num k r) s))))))
    | None =>
        Err LinAlgError
          (set_y (Arr (innovation s (mat_of z))) (set_R (Num k r) s))
    end.
Proof.
  intros Hwf Hz. destruct Hwf as [_ _ Hx HP _ _ HH _ HI].
  unfold innovation, gain.
  name_shaped Hx xm. name_shaped HP Pm. name_shaped HH Hm. name_shaped Hz zm.
  rewrite EMxm, EMPm, EMHm, EMzm. subst z. simpl.
  assert (SHT : has_shape (dx s) (dz s) (mtrans Hm))
    by (apply mtrans_shape; assumption).
  assert (SHx : has_shape (dz s) 1 (mmul Hm xm))
    by (eapply mmul_shape; eassumption).
  assert (SHPHT : has_shape (dz s) (dz s) (mmul Hm (mmul Pm (mtrans Hm)))).
  { eapply mmul_shape; [eassumption|]. eapply mmul_shape; eassumption. }
  set (S_ := build (dz s) (dz s) _).
  assert (SS : has_shape (dz s) (dz s) S_) by apply build_shape.
  unfold update. run. rewrite EHm, Exm.
  rewrite (dot_arr (dz s) (dx s) 1) by assumption. simpl.
  rewrite (np_sub_arr (dz s) 1) by assumption. simpl.
  rewrite T_arr. simpl.
  rewrite EPm, (dot3_arr (dz s) (dx s) (dx s) (dz s)) by assumption. simpl.
  rewrite np_add_arr_num, (shape_rows _ _ _ SHPHT), (shape_cols _ _ _ SHPHT).
  fold S_. simpl. rewrite (inv_arr (dz s)) by assumption.
  destruct (minv S_) as [Si|] eqn:Einv; simpl; [|reflexivity].
  assert (SSi : has_shape (dz s) (dz s) Si)
    by (eapply minv_shape; [exact (proj1 SS) | eassumption]).
  assert (SK : has_shape (dx s) (dz s) (mmul Pm (mmul (mtrans Hm) Si))).
  { eapply mmul_shape; [eassumption|]. eapply mmul_shape; eassumption. }
  rewrite (dot3_arr (dx s) (dx s) (dz s) (dz s)) by assumption. simpl.
  assert (Sy : has_shape (dz s) 1 (msub zm (mmul Hm xm)))
    by (apply mmap2_shape; assumption).
  rewrite (dot_arr (dx s) (dz s) 1) by assumption. simpl.
  rewrite (np_add_arr (dx s) 1); [| assumption | eapply mmul_shape; eassumption].
  simpl. rewrite HI, (dot_arr (dx s) (dz s) (dx s)) by assumption. simpl.
  rewrite (np_sub_arr (dx s) (dx s));
    [| apply meye_shape | eapply mmul_shape; eassumption].
  simpl. rewrite T_arr. simpl.
  set (IKH := msub (meye (dx s)) _).
  assert (SIKH : has_shape (dx s) (dx s) IKH) by (apply mmap2_shape, meye_shape).
  rewrite (dot3_arr (dx s) (dx s) (dx s) (dx s));
    [| assumption | assumption | apply mtrans_shape; assumption ].
  simpl. rewrite T_arr. simpl.
  rewrite (dot3_arr_num_arr (dx s) (dz s) (dx s));
    [| assumption | apply mtrans_shape; assumption].
  simpl. rewrite (np_add_arr (dx s) (dx s)); [reflexivity | |].
  - eapply mmul_shape; [eassumption|]. eapply mmul_shape; [eassumption|].
    apply mtrans_shape; assumption.
  - eapply mmul_shape; [eassumption|]. apply mscale_shape, mtrans_shape.
    assumption.
Qed.

Opaque update.

Lemma mscale_as_product r n C :
  has_shape 1 n C -> mmul (build 1 1 (fun _ _ => r)) C = mscale r C.
Proof.
  intros SC. apply (shape_ext 1 n).
  - eapply mmul_shape; [apply build_shape | eassumption].
  - apply mscale_shape. assumption.
  - intros i j Hi Hj.
    pose proof (shape_rows _ _ _ SC). pose proof (shape_cols _ _ _ SC).
    rewrite mget_mmul by (rewrite ?nrows_build; lia).
    rewrite ncols_build. simpl.
    rewrite mget_build, mget_mscale by lia.
    replace i with 0%nat by lia. ring.
Qed.

(** X17. A number [r] stored in [R] (as after [kf.R = 5.]) is used by
    [update(z)] as it is: it is added to every entry of [H·P·Hᵗ] to
    give [S], and the term [K·R·Kᵗ] of the covariance is [K·(r·Kᵗ)].
    For [dim_z = 1] this is the update with the 1 x 1 matrix [[r]]
    passed as [R]. *)
Theorem number_stored_in_R s z k r :
  filter_wf s -> shaped (dz s) 1 z ->
  let Hm := mat_of (self_H s) in
  let Pm := mat_of (self_P s) in
  let sr := set_R (Num k r) s in
  let S_ := build (dz s) (dz s)
              (fun i j => mget (mmul Hm (mmul Pm (mtrans Hm))) i j + r) in
  update (Some z) None sr
  = match minv S_ with
    | Some Si =>
        let y := innovation s (mat_of z) in
        let K := gain s Si in
        let I_KH := msub (meye (dx s)) (mmul K Hm) in
        Ok tt
          (set_K (Arr K)
             (set_S (Arr S_)
                (set_P (Arr (madd (mmul I_KH (mmul Pm (mtrans I_KH)))
                                  (mmul K (mscale r (mtrans K)))))
                   (set_x (Arr (madd (mat_of (self_x s)) (mmul K y)))
                      (set_y (Arr y) sr)))))
    | None => Err LinAlgError (set_y (Arr (innovation s (mat_of z))) sr)
    end /\
  (dz s = 1%nat ->
   update (Some z) None sr
   = match update (Some z) (Some (Arr (build 1 1 (fun _ _ => r)))) s with
     | Ok _ s' => Ok tt (set_R (Num k r) s')
     | Err e s' => Err e (set_R (Num k r) s')
     end).
Proof.
  intros Hwf Hz Hm Pm sr S_.
  pose proof (update_run_number_R s z k r Hwf Hz) as Erun.
  cbv zeta in Erun. fold Hm Pm sr S_ in Erun.
  split; [exact Erun|]. intros Hdz.
  set (Rm := build 1 1 (fun _ _ : nat => r)).
  assert (SRm : has_shape (dz s) (dz s) Rm)
    by (rewrite Hdz; apply build_shape).
  rewrite Erun, (update_run s z (Some (Arr Rm)) Rm Hwf Hz (R_matrix s Rm SRm)).
  pose proof (proj2 (wf_H s Hwf)) as SH. fold Hm in SH.
  pose proof (proj2 (wf_P s Hwf)) as SP. fold Pm in SP.
  assert (SHPHT : has_shape (dz s) (dz s) (mmul Hm (mmul Pm (mtrans Hm)))).
  { eapply mmul_shape; [eassumption|]. eapply mmul_shape; [eassumption|].
    apply mtrans_shape. assumption. }
  assert (ES : innovation_cov s Rm = S_).
  { unfold innovation_cov. fold Hm Pm. apply (shape_ext (dz s) (dz s)).
    - apply mmap2_shape. assumption.
    - apply build_shape.
    - intros i j Hi Hj. unfold S_, madd, Rm.
      rewrite mget_mmap2
        by (rewrite ?(shape_rows _ _ _ SHPHT), ?(shape_cols _ _ _ SHPHT); lia).
      rewrite !mget_build by lia. reflexivity. }
  rewrite ES.
  destruct (minv S_) as [Si|] eqn:E; [|reflexivity].
  pose proof (minv_shape (dz s) S_ Si (nrows_build _ _ _) E) as SSi.
  assert (SK : has_shape (dx s) (dz s) (gain s Si)).
  { unfold gain. fold Hm Pm. eapply mmul_shape; [eassumption|].
    eapply mmul_shape; [|eassumption]. apply mtrans_shape. assumption. }
  unfold spec_update, joseph. fold Hm Pm. rewrite ES.
  unfold Rm. rewrite (mscale_as_product r (dx s));
    [reflexivity|].
  rewrite <- Hdz. apply mtrans_shape. assumption.
Qed.

Lemma number_stored_in_R_witness :
  update (Some (arr [[q 3 1]])) None (set_R (Num PyNumber (q 1 4)) tracker)
  = match update (Some (arr [[q 3 1]]))
            (Some (Arr (build 1 1 (fun _ _ => q 1 4)))) tracker with
    | Ok _ s' => Ok tt (set_R (Num PyNumber (q 1 4)) s')
    | Err e s' => Err e (set_R (Num PyNumber (q 1 4)) s')
    end.
Proof.
  apply (proj2 (number_stored_in_R tracker (arr [[q 3 1]]) PyNumber (q 1 4)
                  tracker_wf ltac:(shapes))).
  reflexivity.
Defined.

(** ** A batch and the calls made by hand *)

(** X18. Whenever [batch_filter] returns, on any instance and for [Rs]
    absent or of length [n], it returns four sequences of length [n] and
    leaves the instance of the manual run.  For every index [i] the two
    calls are made in order on the instance [s_i] reached by the manual
    run over the inputs before [i]: with [update_first = False],
    [predict()] then [update(zs[i], Rs[i])]; with [update_first = True],
    [update(zs[i], Rs[i])] then [predict()].  Entry [i] of the means and
    the covariances is the copy of the [x] and [P] of the instance after
    [update], entry [i] of the predictions the copy of the [x] and [P]
    of the instance after [predict]; each copy is the value at that
    step, whatever happens later, and it is the value itself when it has
    the shape of its slot.  On a filter ready for [batch_filter], with
    inputs of the data model and measurements that [np.size(zs, 0)]
    accepts, [batch_filter] returns whenever the calls made by hand
    return, and the entries are the [x] and [P] themselves; in
    particular the means at [i] are the [x] reached by [i + 1] manual
    steps. *)
Theorem batch_filter_records_manual_steps :
  (forall s zs Rs uf a s',
     match Rs with
     | None => True
     | Some Rs => length Rs = length zs
     end ->
     batch_filter zs Rs uf s = Ok a s' ->
     manual uf (batch_inputs zs Rs) s = Ok tt s' /\
     length (means a) = length zs /\
     length (covariances a) = length zs /\
     length (means_p a) = length zs /\
     length (covariances_p a) = length zs /\
     length (batch_inputs zs Rs) = length zs /\
     forall i zr,
       batch_inputs zs Rs !! i = Some zr ->
       exists s_i s1 s2,
         zs !! i = Some zr.1 /\ override_at Rs i zr.2 /\
         manual uf (take i (batch_inputs zs Rs)) s = Ok tt s_i /\
         first_call uf zr s_i = Ok tt s1 /\
         second_call uf zr s1 = Ok tt s2 /\
         manual uf (take (S i) (batch_inputs zs Rs)) s = Ok tt s2 /\
         means a !! i
           = Some (stored (dx s) 1 (self_x (after_update uf (s1, s2)))) /\
         covariances a !! i
           = Some (stored (dx s) (dx s)
                     (self_P (after_update uf (s1, s2)))) /\
         means_p a !! i
           = Some (stored (dx s) 1 (self_x (after_predict uf (s1, s2)))) /\
         covariances_p a !! i
           = Some (stored (dx s) (dx s)
                     (self_P (after_predict uf (s1, s2))))) /\
  (forall m n v, shaped m n v -> Arr (stored m n v) = v) /\
  (forall s zs Rs uf s_end,
     homogeneous zs ->
     batch_ready s ->
     Forall (input_ok s) (batch_inputs zs Rs) ->
     match Rs with
     | None => True
     | Some Rs => length Rs = length zs
     end ->
     manual uf (batch_inputs zs Rs) s = Ok tt s_end ->
     exists a,
       batch_filter zs Rs uf s = Ok a s_end /\
       length (means a) = length zs /\
       length (covariances a) = length zs /\
       length (means_p a) = length zs /\
       length (covariances_p a) = length zs /\
       length (batch_inputs zs Rs) = length zs /\
       forall i zr,
         batch_inputs zs Rs !! i = Some zr ->
         exists s_i s1 s2 m c mp cp,
           zs !! i = Some zr.1 /\ override_at Rs i zr.2 /\
           manual uf (take i (batch_inputs zs Rs)) s = Ok tt s_i /\
           first_call uf zr s_i = Ok tt s1 /\
           second_call uf zr s1 = Ok tt s2 /\
           manual uf (take (S i) (batch_inputs zs Rs)) s = Ok tt s2 /\
           means a !! i = Some m /\
           self_x (after_update uf (s1, s2)) = Arr m /\
           covariances a !! i = Some c /\
           self_P (after_update uf (s1, s2)) = Arr c /\
           means_p a !! i = Some mp /\
           self_x (after_predict uf (s1, s2)) = Arr mp /\
           covariances_p a !! i = Some cp /\
           self_P (after_predict uf (s1, s2)) = Arr cp).
Proof.
  split; [|split; [exact stored_shaped|]].
  - intros s zs Rs uf a s' HRs Hb.
    assert (Hfull : length (batch_inputs zs Rs) = length zs).
    { apply batch_inputs_full. destruct Rs; [lia | exact Logic.I]. }
    apply batch_filter_returns in Hb
      as (tr & Etr & -> & L1 & L2 & L3 & L4 & Hsto).
    pose proof (trace_length uf _ s tr Etr) as Hlen.
    split; [apply manual_trace; eauto|].
    repeat (split; [assumption|]).
    intros i zr Hzr.
    destruct (lookup_lt_is_Some_2 tr i) as [[s1 s2] Hp].
    { rewrite Hlen. eapply lookup_lt_Some. exact Hzr. }
    destruct (trace_lookup uf _ s tr i (s1, s2) Etr Hp)
      as (zr' & s_i & Hzr' & Hm & Hf & Hsn & Hm').
    rewrite Hzr in Hzr'. injection Hzr' as <-.
    exists s_i, s1, s2.
    destruct (batch_inputs_lookup zs Rs i zr Hzr) as [Hzi Hri].
    repeat (split; [assumption|]).
    exact (Hsto i (s1, s2) Hp).
  - intros s zs Rs uf s_end.

  intros Hzs Hs Hin HRs Hman.
  assert (Hfull : length (batch_inputs zs Rs) = length zs).
  { apply batch_inputs_full. destruct Rs; [lia | exact Logic.I]. }
  apply manual_trace in Hman as (tr & Etr & <-).
  pose proof (batch_filter_run zs Rs uf s Hzs Hs Hin) as Hrun.
  rewrite Etr, Hfull, Nat.sub_diag in Hrun.
  pose proof (trace_length uf _ s tr Etr) as Hlen. rewrite Hfull in Hlen.
  pose proof (trace_ready uf _ s tr Hs Hin Etr) as Hready.
  eexists. split; [exact Hrun|].
  unfold append_arrays, zero_arrays, recorded; simpl.
  rewrite !app_nil_r, !length_map.
  repeat (split; [assumption|]).
  intros i zr Hzr.
  destruct (lookup_lt_is_Some_2 tr i) as [[s1 s2] Hp].
  { rewrite Hlen, <- Hfull. eapply lookup_lt_Some. exact Hzr. }
  destruct (trace_lookup uf _ s tr i (s1, s2) Etr Hp)
    as (zr' & s_i & Hzr' & Hm & Hf & Hsn & Hm').
  rewrite Hzr in Hzr'. injection Hzr' as <-.
  rewrite Forall_forall in Hready.
  destruct (Hready (s1, s2)) as [[W1 _] [W2 _]].
  { apply list_elem_of_In. eapply list_elem_of_lookup_2. exact Hp. }
  simpl in W1, W2.
  exists s_i, s1, s2.
  exists (mat_of (self_x (after_update uf (s1, s2)))),
         (mat_of (self_P (after_update uf (s1, s2)))),
         (mat_of (self_x (after_predict uf (s1, s2)))),
         (mat_of (self_P (after_predict uf (s1, s2)))).
  rewrite !list_lookup_fmap, Hp. simpl.
  destruct (batch_inputs_lookup zs Rs i zr Hzr) as [Hzi Hri].
  repeat (split; [assumption || reflexivity|]).
  destruct uf; simpl;
    repeat split; try reflexivity;
    first [apply (wf_x s1 W1) | apply (wf_P s1 W1)
          | apply (wf_x s2 W2) | apply (wf_P s2 W2)].
Qed.

Lemma batch_filter_records_manual_steps_witness :
  (exists a s_end,
     batch_filter
       [Some (arr [[q 3 1]]); Some (arr [[q 5 2]]); Some (arr [[q 2 1]])]
       (Some [None; Some (Num PyNumber (q 1 4)); Some (arr [[q 1 2]])])
       false tracker = Ok a s_end /\
     length (means a) = 3%nat) /\
  (exists a s_end,
     batch_filter [None; None] None true tracker = Ok a s_end /\
     length (means a) = 2%nat).
Proof.
  split.
  - destruct (proj2 (proj2 batch_filter_records_manual_steps) tracker
                [Some (arr [[q 3 1]]); Some (arr [[q 5 2]]);
                 Some (arr [[q 2 1]])]
                (Some [None; Some (Num PyNumber (q 1 4));
                       Some (arr [[q 1 2]])])
                false
                (state_of (manual false
                   (batch_inputs
                      [Some (arr [[q 3 1]]); Some (arr [[q 5 2]]);
                       Some (arr [[q 2 1]])]
                      (Some [None; Some (Num PyNumber (q 1 4));
                             Some (arr [[q 1 2]])]))
                   tracker)))
      as (a & Ha & Hl & _).
    + reflexivity.
    + exact tracker_ready.
    + inputs_ok.
    + reflexivity.
    + vm_compute. reflexivity.
    + exists a. eexists. split; [exact Ha | exact Hl].
  - destruct (proj2 (proj2 batch_filter_records_manual_steps) tracker
                [None; None] None true
                (state_of (manual true (batch_inputs [None; None] None)
                             tracker)))
      as (a & Ha & Hl & _).
    + reflexivity.
    + exact tracker_ready.
    + inputs_ok.
    + exact Logic.I.
    + vm_compute. reflexivity.
    + exists a. eexists. split; [exact Ha | exact Hl].
Defined.
